(** * Slamrock item script: selection and slot reconciliation

    A shallow embedding of [src/game/AI/ScriptDevAI/scripts/world/slamrock_items.cpp]:
    the whitelist samplers, the tier-bounded swap selectors, the in-place swap
    routine, the enchantment-slot reconciliation and the item-use hook, with the
    properties the specification states about them; then the scans over the
    enchantment store of the same file, the ability item script
    ([hardcore_ability_items.cpp]) and the free-for-all loot toggle
    ([LootMgr_MakeAllItemsFreeForAll.cpp]), with properties read off the code.

    Conventions.  [uint32] and [uint16] values are binary naturals ([N]); every
    32-bit addition of the source is written with its wrap-around ([wrap32]).
    A function that returns [bool] and writes an out-parameter is rendered as an
    [option].  The random draws of [urand] are taken from an explicit source
    that is threaded through the calls. *)

From Stdlib Require Import NArith ZArith List String Ascii Bool Lia Arith.
From Stdlib Require Import DecimalString DecimalPos DecimalN OrderedTypeEx Permutation Sorted.
Import ListNotations.

Open Scope N_scope.

(* ================================================================== *)
(** * Machine integers *)

Definition wrap32 (n : N) : N := n mod 4294967296.

(* ================================================================== *)
(** * The random source *)

(** Modelled from the spec: [urand] (declared in Util/Util.h, outside the
    sources) "draws a uniform integer in [lo, hi]".  The source of randomness
    is an explicit stream of raw naturals; a draw consumes one of them and
    reduces it into the requested closed interval.  An exhausted stream
    yields the lower bound. *)
Definition Rng := list N.

Definition urand (lo hi : N) (g : Rng) : N * Rng :=
  match g with
  | [] => (lo, [])
  | x :: g' => (lo + x mod (hi - lo + 1), g')
  end.

(* ================================================================== *)
(** * [std::map]: an ordered association list with unique keys *)

Module StdMap.
Section WithOrder.
Context {K V : Type}.
Variable cmp : K -> K -> comparison.

Definition t := list (K * V).

(** [m.find(k)]: the value stored under the key equivalent to [k]. *)
Fixpoint find (k : K) (m : t) : option V :=
  match m with
  | [] => None
  | (k', v) :: m' =>
      match cmp k k' with
      | Eq => Some v
      | _ => find k m'
      end
  end.

(** [m[k] = v]: insert at the key's place in the order, or overwrite. *)
Fixpoint assign (k : K) (v : V) (m : t) : t :=
  match m with
  | [] => [(k, v)]
  | (k', v') :: m' =>
      match cmp k k' with
      | Eq => (k', v) :: m'
      | Lt => (k, v) :: (k', v') :: m'
      | Gt => (k', v') :: assign k v m'
      end
  end.

Definition keys (m : t) : list K := map fst m.
Definition values (m : t) : list V := map snd m.

(** The strict order of the keys, and the map's order invariant. *)
Definition klt (a b : K) : Prop := cmp a b = Lt.

Inductive sorted : t -> Prop :=
| sorted_nil : sorted []
| sorted_cons k v m :
    Forall (fun kv => klt k (fst kv)) m -> sorted m -> sorted ((k, v) :: m).
End WithOrder.
End StdMap.

(* ================================================================== *)
(** * The whitelist and its samplers *)

Record SlamrockWhitelistRow := mkRow
  { enchantId : N;      (* uint32 *)
    groupKey : string;
    rank : N;           (* uint16 *)
    minIlvl : N;        (* uint16 *)
    weight : N          (* uint16 *) }.

(** [std::to_string] on an unsigned value: its decimal digits. *)
Definition to_string (n : N) : string := NilZero.string_of_uint (N.to_uint n).

Definition empty (s : string) : bool :=
  match s with EmptyString => true | String _ _ => false end.

Definition GetEffectiveGroupKey (row : SlamrockWhitelistRow) : string :=
  if negb (empty (groupKey row)) then groupKey row
  else to_string (enchantId row).

(** The guard [row.weight == 0 || row.minIlvl > itemLevel] of the three loops. *)
Definition rowSkipped (itemLevel : N) (row : SlamrockWhitelistRow) : bool :=
  (weight row =? 0) || (itemLevel <? minIlvl row).

Definition isExcluded (excludeGroups : list string) (key : string) : bool :=
  match excludeGroups with
  | [] => false
  | _ => existsb (fun ex => (ex =? key)%string) excludeGroups
  end.

Definition GroupWeights := @StdMap.t string N.

Definition gfind := @StdMap.find string N String.compare.
Definition gassign := @StdMap.assign string N String.compare.

(** One iteration of the first loop of [PickWeightedGroupFromWhitelist]. *)
Definition accumulateGroup (itemLevel : N) (excludeGroups : list string)
    (groupWeights : GroupWeights) (row : SlamrockWhitelistRow) : GroupWeights :=
  if rowSkipped itemLevel row then groupWeights
  else
    let key := GetEffectiveGroupKey row in
    if isExcluded excludeGroups key then groupWeights
    else
      match gfind key groupWeights with
      | None => gassign key (weight row) groupWeights
      | Some w =>
          if w <? weight row then gassign key (weight row) groupWeights
          else groupWeights
      end.

Definition groupWeightsOf (pool : list SlamrockWhitelistRow) (itemLevel : N)
    (excludeGroups : list string) : GroupWeights :=
  fold_left (accumulateGroup itemLevel excludeGroups) pool [].

(** [totalWeight += kv.second] over the map, in 32 bits. *)
Definition totalWeightOf (groupWeights : GroupWeights) : N :=
  fold_left (fun total kv => wrap32 (total + snd kv)) groupWeights 0.

(** The cumulative walk; [None] is the trailing [return false]. *)
Fixpoint walkGroups (groupWeights : GroupWeights) (roll running : N)
    : option string :=
  match groupWeights with
  | [] => None
  | (key, w) :: rest =>
      let running' := wrap32 (running + w) in
      if roll <=? running' then Some key
      else walkGroups rest roll running'
  end.

Definition PickWeightedGroupFromWhitelist (pool : list SlamrockWhitelistRow)
    (itemLevel : N) (excludeGroups : list string) (g : Rng)
    : option string * Rng :=
  let groupWeights := groupWeightsOf pool itemLevel excludeGroups in
  let totalWeight := totalWeightOf groupWeights in
  if (totalWeight =? 0) || (match groupWeights with [] => true | _ => false end)
  then (None, g)
  else
    let (roll, g') := urand 1 totalWeight g in
    (walkGroups groupWeights roll 0, g').

(** The first loop of [PickRandomEligibleRankEnchantForGroup]. *)
Definition countEligible (pool : list SlamrockWhitelistRow) (itemLevel : N)
    (key : string) : N :=
  fold_left
    (fun eligibleCount row =>
       if rowSkipped itemLevel row then eligibleCount
       else if negb (GetEffectiveGroupKey row =? key)%string then eligibleCount
       else wrap32 (eligibleCount + 1))
    pool 0.

(** Its second loop; [None] is the trailing [return false]. *)
Fixpoint walkRanks (pool : list SlamrockWhitelistRow) (itemLevel : N)
    (key : string) (roll seen : N) : option N :=
  match pool with
  | [] => None
  | row :: rest =>
      if rowSkipped itemLevel row then walkRanks rest itemLevel key roll seen
      else if negb (GetEffectiveGroupKey row =? key)%string
      then walkRanks rest itemLevel key roll seen
      else
        let seen' := wrap32 (seen + 1) in
        if roll <=? seen' then Some (enchantId row)
        else walkRanks rest itemLevel key roll seen'
  end.

Definition PickRandomEligibleRankEnchantForGroup
    (pool : list SlamrockWhitelistRow) (itemLevel : N) (key : string) (g : Rng)
    : option N * Rng :=
  let eligibleCount := countEligible pool itemLevel key in
  if eligibleCount =? 0 then (None, g)
  else
    let (roll, g') := urand 1 eligibleCount g in
    (walkRanks pool itemLevel key roll 0, g').

(** ** Reference notions used in the statements *)

(** A row takes part in a draw at this item level. *)
Definition eligible (itemLevel : N) (row : SlamrockWhitelistRow) : Prop :=
  0 < weight row /\ minIlvl row <= itemLevel.

(** The eligible rows of one group, in pool order. *)
Definition rankRows (pool : list SlamrockWhitelistRow) (itemLevel : N)
    (key : string) : list SlamrockWhitelistRow :=
  filter (fun row => negb (rowSkipped itemLevel row)
                     && (GetEffectiveGroupKey row =? key)%string) pool.

(** The rows that feed the weight of group [key] in the sampler. *)
Definition groupRows (pool : list SlamrockWhitelistRow) (itemLevel : N)
    (excludeGroups : list string) (key : string) : list SlamrockWhitelistRow :=
  filter (fun row => negb (rowSkipped itemLevel row)
                     && negb (isExcluded excludeGroups (GetEffectiveGroupKey row))
                     && (GetEffectiveGroupKey row =? key)%string) pool.

(** The largest of a list of weights (0 for none). *)
Definition lmax (ws : list N) : N := fold_right N.max 0 ws.

Definition maxWeight (rows : list SlamrockWhitelistRow) : option N :=
  match rows with
  | [] => None
  | _ :: _ => Some (lmax (map weight rows))
  end.

Definition sumWeight (rows : list SlamrockWhitelistRow) : N :=
  fold_right (fun r s => weight r + s) 0 rows.

(** The sum of the per-group weights as a mathematical number (no wrap). *)
Definition rawTotal (groupWeights : GroupWeights) : N :=
  fold_right (fun kv s => snd kv + s) 0 groupWeights.

(** The draws [a+1 .. a+n], in increasing order; [draws n] are the possible
    results of [urand(1, n)]. *)
Definition ivl (a n : N) : list N :=
  map (fun j => a + N.of_nat j) (seq 1 (N.to_nat n)).

Definition draws (n : N) : list N := ivl 0 n.

Definition selects (groupWeights : GroupWeights) (running : N) (key : string)
    (roll : N) : bool :=
  match walkGroups groupWeights roll running with
  | Some k => (k =? key)%string
  | None => false
  end.

(** How many of the equally likely draws make the sampler return [key]. *)
Definition drawsSelecting (pool : list SlamrockWhitelistRow) (itemLevel : N)
    (excludeGroups : list string) (key : string) : N :=
  let groupWeights := groupWeightsOf pool itemLevel excludeGroups in
  N.of_nat (List.length (filter (selects groupWeights 0 key)
                           (draws (totalWeightOf groupWeights)))).

(** The walk's running sum after the groups of [gw], from [running]. *)
Definition totalFrom (gw : GroupWeights) (running : N) : N :=
  fold_left (fun total kv => wrap32 (total + snd kv)) gw running.

(** The weight stored for a group, 0 when the group is absent. *)
Definition weightIn (gw : GroupWeights) (key : string) : N :=
  match gfind key gw with Some w => w | None => 0 end.

(** The rows of the pool that can be drawn at all: the key of a tier-eligible,
    non-excluded row. *)
Definition qualifies (pool : list SlamrockWhitelistRow) (itemLevel : N)
    (excludeGroups : list string) (row : SlamrockWhitelistRow) : Prop :=
  In row pool /\ eligible itemLevel row /\
  isExcluded excludeGroups (GetEffectiveGroupKey row) = false.

(** The relative odds of a group do not go up when [row] is added to the
    pool: (draws selecting the group) / (all draws) compared by cross
    multiplication. *)
Definition oddsNotRaisedBy (pool : list SlamrockWhitelistRow) (itemLevel : N)
    (excludeGroups : list string) (row : SlamrockWhitelistRow) : Prop :=
  let key := GetEffectiveGroupKey row in
  let pool' := pool ++ [row] in
  drawsSelecting pool' itemLevel excludeGroups key
    * totalWeightOf (groupWeightsOf pool itemLevel excludeGroups)
  <= drawsSelecting pool itemLevel excludeGroups key
    * totalWeightOf (groupWeightsOf pool' itemLevel excludeGroups).

(* ================================================================== *)
(** * The item catalog and the tier-bounded swap selectors *)

(** The fields of [ItemPrototype] the script reads. *)
Record ItemPrototype := mkProto
  { ItemId : N; Class : N; SubClass : N; InventoryType : N; ItemLevel : N }.

(** Modelled from the spec: the slot types "non-equip" and "container" that
    the indexes leave out, and the weapon class.  The enumerators are declared
    in Entities/ItemPrototype.h, outside the sources; the model takes the
    values of that header. *)
Definition INVTYPE_NON_EQUIP : N := 0.
Definition INVTYPE_BAG : N := 18.
Definition ITEM_CLASS_WEAPON : N := 2.

(** [sItemStorage]: an array of prototypes indexed by entry; its length is
    [GetMaxEntry()], a missing entry is [None]. *)
Definition ItemStorage := list (option ItemPrototype).

Definition LookupEntry (storage : ItemStorage) (entry : N) : option ItemPrototype :=
  nth (N.to_nat entry) storage None.

(** The prototypes met by [for (entry = 1; entry < GetMaxEntry(); ++entry)],
    in that order. *)
Definition scannedEntries (storage : ItemStorage) : list (option ItemPrototype) :=
  skipn 1 storage.

Record ItemTypeKey := mkKey
  { itemClass : N; subClass : N; inventoryType : N }.

(** [ItemTypeKey::operator<]. *)
Definition ItemTypeKey_lt (a b : ItemTypeKey) : bool :=
  if negb (itemClass a =? itemClass b) then itemClass a <? itemClass b
  else if negb (subClass a =? subClass b) then subClass a <? subClass b
  else inventoryType a <? inventoryType b.

(** The three-way comparison a [std::map] derives from [operator<]. *)
Definition ItemTypeKey_cmp (a b : ItemTypeKey) : comparison :=
  if ItemTypeKey_lt a b then Lt
  else if ItemTypeKey_lt b a then Gt
  else Eq.

Definition keyOf (proto : ItemPrototype) : ItemTypeKey :=
  mkKey (Class proto) (SubClass proto) (InventoryType proto).

(** An index entry: the pair (ItemLevel, entry). *)
Definition LevelEntry := (N * N)%type.

(** [std::sort] with the comparator [a.first < b.first].  The standard leaves
    the order of equal levels open; the model fixes it by insertion. *)
Fixpoint insertByLevel (x : LevelEntry) (l : list LevelEntry) : list LevelEntry :=
  match l with
  | [] => [x]
  | y :: l' => if fst x <? fst y then x :: l else y :: insertByLevel x l'
  end.

Definition sortByLevel (l : list LevelEntry) : list LevelEntry :=
  fold_right insertByLevel [] l.

(** The filter of the index loops:
    [InventoryType == INVTYPE_NON_EQUIP || InventoryType == INVTYPE_BAG]. *)
Definition notGear (proto : ItemPrototype) : bool :=
  (InventoryType proto =? INVTYPE_NON_EQUIP) || (InventoryType proto =? INVTYPE_BAG).

(** [m[key].push_back(x)]. *)
Definition push_back_at {K} (cmp : K -> K -> comparison) (key : K)
    (x : LevelEntry) (m : @StdMap.t K (list LevelEntry)) :=
  StdMap.assign cmp key
    (match StdMap.find cmp key m with
     | Some vec => vec ++ [x]
     | None => [x]
     end) m.

(** [for (auto& kv : m) std::sort(kv.second ...)]. *)
Definition sortAll {K} (m : @StdMap.t K (list LevelEntry)) :=
  map (fun kv => (fst kv, sortByLevel (snd kv))) m.

(** The two index loops differ only in the key they file a prototype under:
    scan the entries, skip the missing and the non-gear ones, append
    (ItemLevel, ItemId) to the key's vector, then sort every vector. *)
Definition buildIndex {K} (cmp : K -> K -> comparison) (keyfn : ItemPrototype -> K)
    (storage : ItemStorage) : @StdMap.t K (list LevelEntry) :=
  sortAll
    (fold_left
       (fun index entry =>
          match entry with
          | None => index
          | Some proto =>
              if notGear proto then index
              else push_back_at cmp (keyfn proto)
                     (ItemLevel proto, ItemId proto) index
          end)
       (scannedEntries storage) []).

(** The lazily built index [byType] of [PickDowngradeEntry]. *)
Definition buildByType (storage : ItemStorage)
    : @StdMap.t ItemTypeKey (list LevelEntry) :=
  buildIndex ItemTypeKey_cmp keyOf storage.

(** The lazily built index [byClass] of [PickUpgradeEntrySameClass]. *)
Definition buildByClass (storage : ItemStorage)
    : @StdMap.t N (list LevelEntry) :=
  buildIndex N.compare Class storage.

(** The candidate loop of [PickDowngradeEntry]: strictly lower item level. *)
Fixpoint lowerCandidates (vec : list LevelEntry) (targetProto : ItemPrototype)
    : list N :=
  match vec with
  | [] => []
  | it :: rest =>
      if ItemLevel targetProto <=? fst it then []            (* break *)
      else if snd it =? ItemId targetProto
      then lowerCandidates rest targetProto                   (* continue *)
      else snd it :: lowerCandidates rest targetProto
  end.

(** [candidates[urand(0, candidates.size() - 1)]]; the bound is narrowed to
    the 32 bits of [urand]'s parameter. *)
Definition pickCandidate (candidates : list N) (g : Rng) : N * Rng :=
  let (i, g') := urand 0 (wrap32 (N.of_nat (List.length candidates) - 1)) g in
  (nth (N.to_nat i) candidates 0, g').

(** [PickDowngradeEntry]; the result 0 is "none".  The two optional
    out-parameters only feed the log line and are left out. *)
Definition PickDowngradeEntry (storage : ItemStorage)
    (targetProto : option ItemPrototype) (g : Rng) : N * Rng :=
  match targetProto with
  | None => (0, g)
  | Some targetProto =>
      if ItemLevel targetProto =? 0 then (0, g)
      else
        match StdMap.find ItemTypeKey_cmp (keyOf targetProto) (buildByType storage) with
        | None => (0, g)
        | Some [] => (0, g)
        | Some vec =>
            match lowerCandidates vec targetProto with
            | [] => (0, g)
            | candidates => pickCandidate candidates g
            end
        end
  end.

(** The candidate loop of [PickUpgradeEntrySameClass]. *)
Fixpoint upgradeCandidates (vec : list LevelEntry) (targetIlvl maxIlvl targetId : N)
    : list N :=
  match vec with
  | [] => []
  | it :: rest =>
      if fst it <? targetIlvl
      then upgradeCandidates rest targetIlvl maxIlvl targetId   (* continue *)
      else if maxIlvl <? fst it then []                          (* break *)
      else if snd it =? targetId
      then upgradeCandidates rest targetIlvl maxIlvl targetId   (* continue *)
      else snd it :: upgradeCandidates rest targetIlvl maxIlvl targetId
  end.

(** [PickUpgradeEntrySameClass]; the result 0 is "none". *)
Definition PickUpgradeEntrySameClass (storage : ItemStorage)
    (targetProto : option ItemPrototype) (maxIlvlDelta : N) (g : Rng) : N * Rng :=
  match targetProto with
  | None => (0, g)
  | Some targetProto =>
      let targetIlvl := ItemLevel targetProto in
      let maxIlvl := wrap32 (targetIlvl + maxIlvlDelta) in
      match StdMap.find N.compare (Class targetProto) (buildByClass storage) with
      | None => (0, g)
      | Some [] => (0, g)
      | Some vec =>
          match upgradeCandidates vec targetIlvl maxIlvl (ItemId targetProto) with
          | [] => (0, g)
          | candidates => pickCandidate candidates g
          end
      end
  end.

(** The catalog items an id may stand for: a stored, equippable prototype. *)
Definition catalogItem (storage : ItemStorage) (proto : ItemPrototype) : Prop :=
  In (Some proto) (scannedEntries storage) /\ notGear proto = false.

(** The (ItemLevel, ItemId) pairs of the gear filed under [key], in scan order. *)
Definition indexRows {K} (cmp : K -> K -> comparison) (keyfn : ItemPrototype -> K)
    (entries : list (option ItemPrototype)) (key : K) : list LevelEntry :=
  flat_map
    (fun entry =>
       match entry with
       | None => []
       | Some proto =>
           if notGear proto then []
           else match cmp (keyfn proto) key with
                | Eq => [(ItemLevel proto, ItemId proto)]
                | _ => []
                end
       end) entries.

(** The candidate lists the two selectors draw from. *)
Definition downgradeCandidatesOf (storage : ItemStorage)
    (targetProto : ItemPrototype) : list N :=
  match StdMap.find ItemTypeKey_cmp (keyOf targetProto) (buildByType storage) with
  | Some vec => lowerCandidates vec targetProto
  | None => []
  end.

Definition upgradeCandidatesOf (storage : ItemStorage)
    (targetProto : ItemPrototype) (maxIlvlDelta : N) : list N :=
  match StdMap.find N.compare (Class targetProto) (buildByClass storage) with
  | Some vec =>
      upgradeCandidates vec (ItemLevel targetProto)
        (wrap32 (ItemLevel targetProto + maxIlvlDelta)) (ItemId targetProto)
  | None => []
  end.

(** A storage holding the given prototypes at the index of their [ItemId]. *)
Definition storageOf (protos : list ItemPrototype) (maxEntry : nat) : ItemStorage :=
  map (fun entry =>
         List.find (fun proto => ItemId proto =? N.of_nat entry) protos)
      (seq 0 maxEntry).

(** The catalog of the spec's scenario: three one-handed swords (class 2,
    subclass 7, slot type 13) of tiers 10, 20 and 30, and a bag. *)
Definition scenarioStorage : ItemStorage :=
  storageOf [mkProto 100 2 7 13 10; mkProto 200 2 7 13 20;
             mkProto 300 2 7 13 30; mkProto 150 1 0 18 15] 301.

Definition SLAMROCK_MAX_MODIFIERS : N := 3.
Definition SLAMROCK_UPGRADE_CHANCE_PCT : N := 2.
Definition SLAMROCK_UPGRADE_MAX_ILVL_DELTA : N := 5.
Definition SLAMROCK_DOWNGRADE_CHANCE_PCT : N := 25.
Definition SLAMROCK_MARKER_ENCHANT_ID : N := 900000.

(* ================================================================== *)
(** * Items, enchantment slots and the host services *)

(** The enchantment slots of an item the script touches or reads
    ([EnchantmentSlot], Entities/Item.h). *)
Inductive EnchantmentSlot :=
| PERM_ENCHANTMENT_SLOT
| TEMP_ENCHANTMENT_SLOT
| PROP_ENCHANTMENT_SLOT_0
| PROP_ENCHANTMENT_SLOT_1
| PROP_ENCHANTMENT_SLOT_2
| PROP_ENCHANTMENT_SLOT_3.

Definition SLAMROCK_MARKER_SLOT := PROP_ENCHANTMENT_SLOT_0.
Definition SLAMROCK_MODIFIER_SLOTS :=
  [PROP_ENCHANTMENT_SLOT_1; PROP_ENCHANTMENT_SLOT_2; PROP_ENCHANTMENT_SLOT_3].
Definition SLAMROCK_ALL_PROP_SLOTS :=
  [PROP_ENCHANTMENT_SLOT_0; PROP_ENCHANTMENT_SLOT_1;
   PROP_ENCHANTMENT_SLOT_2; PROP_ENCHANTMENT_SLOT_3].

(** One value per enchantment slot. *)
Record Slots (A : Type) := mkSlots
  { perm : A; temp : A; prop0 : A; prop1 : A; prop2 : A; prop3 : A }.
Arguments mkSlots {A}.
Arguments perm {A}.
Arguments temp {A}.
Arguments prop0 {A}.
Arguments prop1 {A}.
Arguments prop2 {A}.
Arguments prop3 {A}.

Definition getSlot {A} (s : Slots A) (slot : EnchantmentSlot) : A :=
  match slot with
  | PERM_ENCHANTMENT_SLOT => perm s
  | TEMP_ENCHANTMENT_SLOT => temp s
  | PROP_ENCHANTMENT_SLOT_0 => prop0 s
  | PROP_ENCHANTMENT_SLOT_1 => prop1 s
  | PROP_ENCHANTMENT_SLOT_2 => prop2 s
  | PROP_ENCHANTMENT_SLOT_3 => prop3 s
  end.

Definition setSlot {A} (slot : EnchantmentSlot) (a : A) (s : Slots A) : Slots A :=
  match slot with
  | PERM_ENCHANTMENT_SLOT => mkSlots a (temp s) (prop0 s) (prop1 s) (prop2 s) (prop3 s)
  | TEMP_ENCHANTMENT_SLOT => mkSlots (perm s) a (prop0 s) (prop1 s) (prop2 s) (prop3 s)
  | PROP_ENCHANTMENT_SLOT_0 => mkSlots (perm s) (temp s) a (prop1 s) (prop2 s) (prop3 s)
  | PROP_ENCHANTMENT_SLOT_1 => mkSlots (perm s) (temp s) (prop0 s) a (prop2 s) (prop3 s)
  | PROP_ENCHANTMENT_SLOT_2 => mkSlots (perm s) (temp s) (prop0 s) (prop1 s) a (prop3 s)
  | PROP_ENCHANTMENT_SLOT_3 => mkSlots (perm s) (temp s) (prop0 s) (prop1 s) (prop2 s) a
  end.

(** The target item as the hook sees it.  The enchantment ids, the one part
    the script mutates, live in the world state below. *)
Record Item := mkItem
  { proto : option ItemPrototype;   (* GetProto(), may be null *)
    entry : N;                      (* GetEntry() *)
    owner : option N;               (* GetOwner(), a player guid *)
    randomPropertyId : N;           (* GetItemRandomPropertyId() != 0 *)
    bagSlot : N;                    (* GetBagSlot() *)
    slot : N                        (* GetSlot() *) }.

(** Modelled from the spec: the equipment slot bounds and the three weapon
    slots with "independent refresh scopes", and the position constants
    handed to the inventory service.  They are declared in Entities/Player.h
    and Entities/Item.h, outside the sources; the model takes the values of
    those headers. *)
Definition EQUIPMENT_SLOT_MAINHAND : N := 15.
Definition EQUIPMENT_SLOT_OFFHAND : N := 16.
Definition EQUIPMENT_SLOT_RANGED : N := 17.
Definition EQUIPMENT_SLOT_END : N := 19.
Definition INVENTORY_SLOT_BAG_0 : N := 255.
Definition NULL_BAG : N := 0.
Definition NULL_SLOT : N := 255.
Definition EQUIP_ERR_OK : N := 0.

Inductive WeaponAttackType := BASE_ATTACK | OFF_ATTACK | RANGED_ATTACK.
Inductive SpellCastResult := SPELL_FAILED_BAD_TARGETS | SPELL_FAILED_ERROR.

(** The messages of [SendNotification], by the information they carry. *)
Inductive Notification :=
| NoItemTargetReceived
| TargetingItem (entry : N)
| CannotEmpowerRandomProperties
| ItemUpgradesInto (newEntry : N)
| ItemTransformsInto (newEntry : N)
| WhitelistEmptyCannotRoll
| NoEligibleEnchantments
| EmpoweredWith (count e0 e1 e2 : N).

(** [ItemPosCountVec]: the destination a store check hands back. *)
Definition ItemPosCountVec := list (N * N).

(** What the script does to its collaborators, in order. *)
Inductive Event :=
| EvNotification (msg : Notification)
| EvSendEquipError
| EvSendCastResult (result : SpellCastResult)
| EvCanEquipNewItem (slot newEntry msg : N)
| EvCanStoreNewItem (bag slot newEntry msg : N)
| EvDestroyItem (bag slot : N)
| EvEquipNewItem (dest newEntry : N) (placed : bool)
| EvStoreNewItem (dest : ItemPosCountVec) (newEntry : N) (placed : bool)
| EvDestroyItemCount (entry count : N)
| EvApplyEnchantment (slot : EnchantmentSlot) (apply : bool)
| EvUpdateDamagePhysical (attack : WeaponAttackType)
| EvSetVisibleItemSlot (slot : N)
| EvSetStateChanged.

(** Modelled from the spec: the Inventory Service, whose code (Player.cpp,
    Item.cpp) is outside the sources: "validate-and-equip, validate-and-store,
    destroy-by-position, generate-random-property-id-for-new-instance; each
    validate operation returns a structured result distinguishing success
    from a named failure reason".  [Inv] is the service's own state. *)
Record InventoryService (Inv : Type) := mkService
  { IsEquipmentPos : N -> N -> bool;
    IsInventoryPos : N -> N -> bool;
    (* slot, entry, swap: the result and the destination *)
    CanEquipNewItem : Inv -> N -> N -> bool -> N * N;
    (* bag, slot, entry, count: the result and the destination *)
    CanStoreNewItem : Inv -> N -> N -> N -> N -> N * ItemPosCountVec;
    DestroyItem : Inv -> N -> N -> Inv;
    (* destination, entry: whether an item came back, and the new state *)
    EquipNewItem : Inv -> N -> N -> bool * Inv;
    (* destination, entry, random property id *)
    StoreNewItem : Inv -> ItemPosCountVec -> N -> N -> bool * Inv;
    DestroyItemCount : Inv -> N -> N -> Inv;
    GenerateItemRandomPropertyId : N -> Rng -> N * Rng }.
Arguments IsEquipmentPos {Inv}.
Arguments IsInventoryPos {Inv}.
Arguments CanEquipNewItem {Inv}.
Arguments CanStoreNewItem {Inv}.
Arguments DestroyItem {Inv}.
Arguments EquipNewItem {Inv}.
Arguments StoreNewItem {Inv}.
Arguments DestroyItemCount {Inv}.
Arguments GenerateItemRandomPropertyId {Inv}.

Record SlamrockWhitelistCache := mkCache
  { attemptedLoad : bool;
    loaded : bool;
    weapon : list SlamrockWhitelistRow;
    armor : list SlamrockWhitelistRow }.

(** What the script reads but never writes: the item catalog, whether the
    targeting spell exists in the spell store, and the rows the two whitelist
    queries return ([None]: the query gives no result). *)
Record Env := mkEnv
  { sItemStorage : ItemStorage;
    targetingSpell : bool;
    dbWeapon : option (list SlamrockWhitelistRow);
    dbArmor : option (list SlamrockWhitelistRow) }.

(** The mutable state an item-use event runs against. *)
Record World (Inv : Type) := mkWorld
  { inv : Inv;                     (* the player's inventory *)
    enchants : Slots N;            (* the target item's enchantment ids *)
    live : Slots (list N);         (* effects applied to the player, per slot *)
    cache : SlamrockWhitelistCache;
    rng : Rng;
    events : list Event }.
Arguments mkWorld {Inv}.
Arguments inv {Inv}.
Arguments enchants {Inv}.
Arguments live {Inv}.
Arguments cache {Inv}.
Arguments rng {Inv}.
Arguments events {Inv}.

(** ** A state monad over the world *)

Definition M (Inv A : Type) : Type := World Inv -> A * World Inv.

Definition ret {Inv A} (a : A) : M Inv A := fun w => (a, w).

Definition bind {Inv A B} (c : M Inv A) (k : A -> M Inv B) : M Inv B :=
  fun w => let (a, w') := c w in k a w'.

Declare Scope script_scope.
Delimit Scope script_scope with script.
Notation "x <- c ;; k" := (bind c (fun x => k))
  (at level 61, c at next level, right associativity) : script_scope.
Notation "c ;; k" := (bind c (fun _ => k))
  (at level 61, right associativity) : script_scope.
Open Scope script_scope.

Fixpoint forM_ {Inv A} (l : list A) (f : A -> M Inv unit) : M Inv unit :=
  match l with
  | [] => ret tt
  | a :: l' => f a ;; forM_ l' f
  end.

Definition emit {Inv} (e : Event) : M Inv unit :=
  fun w => (tt, mkWorld (inv w) (enchants w) (live w) (cache w) (rng w)
                        (events w ++ [e])).

Definition withRng {Inv A} (f : Rng -> A * Rng) : M Inv A :=
  fun w => let (a, g) := f (rng w) in
           (a, mkWorld (inv w) (enchants w) (live w) (cache w) g (events w)).

Definition setInv {Inv} (i : Inv) : M Inv unit :=
  fun w => (tt, mkWorld i (enchants w) (live w) (cache w) (rng w) (events w)).

Definition setCache {Inv} (c : SlamrockWhitelistCache) : M Inv unit :=
  fun w => (tt, mkWorld (inv w) (enchants w) (live w) c (rng w) (events w)).

Definition getCache {Inv} : M Inv SlamrockWhitelistCache :=
  fun w => (cache w, w).

(** [Item::GetEnchantmentId], [Item::SetEnchantment(slot, id, 0, 0, guid)].
    The script writes duration and charges as 0 throughout; only the id of a
    slot is kept. *)
Definition GetEnchantmentId {Inv} (slot : EnchantmentSlot) : M Inv N :=
  fun w => (getSlot (enchants w) slot, w).

Definition SetEnchantment {Inv} (slot : EnchantmentSlot) (id : N) : M Inv unit :=
  fun w => (tt, mkWorld (inv w) (setSlot slot id (enchants w)) (live w) (cache w)
                        (rng w) (events w)).

(** Modelled from the spec: [Item::ClearEnchantment] (Item.cpp, outside the
    sources) "empties" the slot. *)
Definition ClearEnchantment {Inv} (slot : EnchantmentSlot) : M Inv unit :=
  SetEnchantment slot 0.

Definition IsEquipped (item : Item) : bool :=
  (bagSlot item =? INVENTORY_SLOT_BAG_0) && (slot item <? EQUIPMENT_SLOT_END).

Fixpoint removeOne (id : N) (l : list N) : list N :=
  match l with
  | [] => []
  | x :: l' => if x =? id then l' else x :: removeOne id l'
  end.

(** Modelled from the spec: [Player::ApplyEnchantment] (Player.cpp, outside
    the sources) applies or removes "the live effect" of the enchantment a
    slot holds, for an equipped item and an occupied slot, and does nothing
    otherwise.  The live effects are kept per slot as the list of enchantment
    ids whose effect is on the player. *)
Definition effectAfter (item : Item) (e : Slots N) (apply : bool)
    (l : Slots (list N)) (slot : EnchantmentSlot) : Slots (list N) :=
  if IsEquipped item && negb (getSlot e slot =? 0) then
    setSlot slot
            (if apply then getSlot e slot :: getSlot l slot
             else removeOne (getSlot e slot) (getSlot l slot)) l
  else l.

Definition ApplyEnchantment {Inv} (item : Item) (slot : EnchantmentSlot)
    (apply : bool) : M Inv unit :=
  emit (EvApplyEnchantment slot apply) ;;
  fun w =>
    (tt, mkWorld (inv w) (enchants w)
                 (effectAfter item (enchants w) apply (live w) slot)
                 (cache w) (rng w) (events w)).

Section Script.
Context {Inv : Type}.
Variable svc : InventoryService Inv.
Variable env : Env.

(** The inventory calls, each leaving its trace. *)
Definition canEquipNewItem (slot newEntry : N) (swap : bool) : M Inv (N * N) :=
  fun w =>
    let r := CanEquipNewItem svc (inv w) slot newEntry swap in
    (r, snd (emit (EvCanEquipNewItem slot newEntry (fst r)) w)).

Definition canStoreNewItem (bag slot newEntry count : N)
    : M Inv (N * ItemPosCountVec) :=
  fun w =>
    let r := CanStoreNewItem svc (inv w) bag slot newEntry count in
    (r, snd (emit (EvCanStoreNewItem bag slot newEntry (fst r)) w)).

Definition destroyItem (bag slot : N) : M Inv unit :=
  emit (EvDestroyItem bag slot) ;;
  fun w => setInv (DestroyItem svc (inv w) bag slot) w.

Definition equipNewItem (dest newEntry : N) : M Inv bool :=
  fun w =>
    let r := EquipNewItem svc (inv w) dest newEntry in
    (fst r, snd ((emit (EvEquipNewItem dest newEntry (fst r)) ;; setInv (snd r)) w)).

Definition storeNewItem (dest : ItemPosCountVec) (newEntry randomPropertyId : N)
    : M Inv bool :=
  fun w =>
    let r := StoreNewItem svc (inv w) dest newEntry randomPropertyId in
    (fst r, snd ((emit (EvStoreNewItem dest newEntry (fst r)) ;; setInv (snd r)) w)).

Definition destroyItemCount (entry count : N) : M Inv unit :=
  emit (EvDestroyItemCount entry count) ;;
  fun w => setInv (DestroyItemCount svc (inv w) entry count) w.

(** [TryDowngradeItemInPlace]; the two optional out-parameters only feed the
    log line and are left out. *)
Definition TryDowngradeItemInPlace (player : option N) (targetItem : option Item)
    (newEntry : N) : M Inv bool :=
  match player, targetItem with
  | Some _, Some targetItem =>
      if newEntry =? 0 then ret false
      else
        let bag := bagSlot targetItem in
        let slot := slot targetItem in
        (* Pre-check we can create/store/equip the replacement before
           destroying the old item. *)
        if IsEquipmentPos svc bag slot then
          r <- canEquipNewItem slot newEntry true ;;
          let (msg, dest) := r : N * N in
          if negb (msg =? EQUIP_ERR_OK) then ret false
          else
            destroyItem bag slot ;;
            equipNewItem dest newEntry
        else if IsInventoryPos svc bag slot then
          r <- canStoreNewItem NULL_BAG NULL_SLOT newEntry 1 ;;
          let (msg, destAny) := r : N * ItemPosCountVec in
          if negb (msg =? EQUIP_ERR_OK) then ret false
          else
            destroyItem bag slot ;;
            r' <- canStoreNewItem bag slot newEntry 1 ;;
            let (msg', destSame) := r' : N * ItemPosCountVec in
            if msg' =? EQUIP_ERR_OK then
              prop <- withRng (GenerateItemRandomPropertyId svc newEntry) ;;
              storeNewItem destSame newEntry prop
            else
              (* Fallback: store wherever we already proved we can. *)
              prop <- withRng (GenerateItemRandomPropertyId svc newEntry) ;;
              storeNewItem destAny newEntry prop
        else ret false
  | _, _ => ret false
  end.
End Script.

(** The service contract the swap relies on: a destination that a check has
    validated accepts the new item, also after the old item was destroyed. *)
Definition placesWhatItValidates {Inv} (svc : InventoryService Inv) : Prop :=
  (forall i bag slot newEntry dest,
     CanEquipNewItem svc i slot newEntry true = (EQUIP_ERR_OK, dest) ->
     fst (EquipNewItem svc (DestroyItem svc i bag slot) dest newEntry) = true) /\
  (forall i bag slot newEntry dest prop,
     CanStoreNewItem svc i bag slot newEntry 1 = (EQUIP_ERR_OK, dest) ->
     fst (StoreNewItem svc i dest newEntry prop) = true) /\
  (forall i bag slot newEntry dest prop,
     CanStoreNewItem svc i NULL_BAG NULL_SLOT newEntry 1 = (EQUIP_ERR_OK, dest) ->
     fst (StoreNewItem svc (DestroyItem svc i bag slot) dest newEntry prop) = true).

Definition isDestroyItem (e : Event) : bool :=
  match e with EvDestroyItem _ _ => true | _ => false end.

Definition isPlacement (e : Event) : bool :=
  match e with
  | EvEquipNewItem _ _ placed => placed
  | EvStoreNewItem _ _ placed => placed
  | _ => false
  end.

(** The pre-check of a swap of [targetItem] into [newEntry] that came back
    with success. *)
Definition validatedOk {Inv} (svc : InventoryService Inv) (targetItem : Item)
    (newEntry : N) (e : Event) : Prop :=
  if IsEquipmentPos svc (bagSlot targetItem) (slot targetItem)
  then e = EvCanEquipNewItem (slot targetItem) newEntry EQUIP_ERR_OK
  else e = EvCanStoreNewItem NULL_BAG NULL_SLOT newEntry EQUIP_ERR_OK.

(** The pre-check of the swap, evaluated on an inventory state. *)
Definition precheck {Inv} (svc : InventoryService Inv) (targetItem : Item)
    (newEntry : N) (i : Inv) : option N :=
  if IsEquipmentPos svc (bagSlot targetItem) (slot targetItem)
  then Some (fst (CanEquipNewItem svc i (slot targetItem) newEntry true))
  else if IsInventoryPos svc (bagSlot targetItem) (slot targetItem)
  then Some (fst (CanStoreNewItem svc i NULL_BAG NULL_SLOT newEntry 1))
  else None.

(** A small inventory to run the script against: the state lists the
    occupied positions as (bag, slot, entry).  Equipment positions are the
    slots below 19 of bag 255, backpack positions its slots 23 to 38.  Entries
    below 1000 can be equipped; entries below 2000 can be stored, in the
    requested position when it is free, else in the first backpack slot. *)
Definition toyOccupied (i : list (N * N * N)) (bag slot : N) : bool :=
  existsb (fun p => (fst (fst p) =? bag) && (snd (fst p) =? slot)) i.

Definition toyInventory : InventoryService (list (N * N * N)) :=
  mkService (list (N * N * N))
    (fun bag slot => (bag =? INVENTORY_SLOT_BAG_0) && (slot <? EQUIPMENT_SLOT_END))
    (fun bag slot => (bag =? INVENTORY_SLOT_BAG_0) && (23 <=? slot) && (slot <? 39))
    (fun i slot newEntry swap =>
       if newEntry <? 1000 then (EQUIP_ERR_OK, slot) else (21, 0))
    (fun i bag slot newEntry count =>
       if negb (newEntry <? 2000) then (21, [])
       else if (bag =? NULL_BAG) && (slot =? NULL_SLOT)
       then (EQUIP_ERR_OK, [(INVENTORY_SLOT_BAG_0 * 256 + 23, count)])
       else if toyOccupied i bag slot then (50, [])
       else (EQUIP_ERR_OK, [(bag * 256 + slot, count)]))
    (fun i bag slot =>
       filter (fun p => negb ((fst (fst p) =? bag) && (snd (fst p) =? slot))) i)
    (fun i dest newEntry => (true, (INVENTORY_SLOT_BAG_0, dest, newEntry) :: i))
    (fun i dest newEntry prop =>
       match dest with
       | [] => (false, i)
       | (pos, _) :: _ => (true, (pos / 256, pos mod 256, newEntry) :: i)
       end)
    (fun i entry count => i)
    (fun newEntry g => (0, g)).

Definition emptySlots : Slots N := mkSlots 0 0 0 0 0 0.
Definition noEffects : Slots (list N) := mkSlots [] [] [] [] [] [].
Definition emptyCache : SlamrockWhitelistCache := mkCache false false [] [].

(** A player (guid 7) wearing item 200 in the main hand and carrying item 300
    in the backpack. *)
Definition toyWorld : World (list (N * N * N)) :=
  mkWorld [(255, 15, 200); (255, 24, 300)] emptySlots noEffects emptyCache [] [].

Definition wornSword : Item :=
  mkItem (Some (mkProto 200 2 7 13 20)) 200 (Some 7) 0 255 15.
Definition carriedSword : Item :=
  mkItem (Some (mkProto 300 2 7 13 30)) 300 (Some 7) 0 255 24.

(** ** The reconciler and the item-use hook *)

Definition IsReasonableGearTarget (target : option Item) : bool :=
  match target with
  | None => false
  | Some target =>
      match proto target with
      | None => false
      | Some proto =>
          (* Basic filter: must be equippable gear *)
          negb (InventoryType proto =? INVTYPE_NON_EQUIP)
          && negb (InventoryType proto =? INVTYPE_BAG)
      end
  end.

Definition IsWeaponTarget (target : option Item) : bool :=
  match target with
  | None => false
  | Some target =>
      match proto target with
      | None => false
      | Some proto => Class proto =? ITEM_CLASS_WEAPON
      end
  end.

Section Hook.
Context {Inv : Type}.
Variable svc : InventoryService Inv.
Variable env : Env.

(** [LoadWhitelistFromDB]: both sides are emptied, then filled with what the
    two queries return. *)
Definition LoadWhitelistFromDB : M Inv unit :=
  cache <- getCache ;;
  let loadSide (result : option (list SlamrockWhitelistRow)) :=
    match result with
    | None => []
    | Some rows => rows
    end in
  setCache (mkCache (attemptedLoad cache) true
                    (loadSide (dbWeapon env)) (loadSide (dbArmor env))).

(** The weapon damage refresh shared by clearing and applying. *)
Definition refreshWeaponDamage (targetItem : Item) : M Inv unit :=
  if slot targetItem =? EQUIPMENT_SLOT_MAINHAND
  then emit (EvUpdateDamagePhysical BASE_ATTACK)
  else if slot targetItem =? EQUIPMENT_SLOT_OFFHAND
  then emit (EvUpdateDamagePhysical OFF_ATTACK)
  else if slot targetItem =? EQUIPMENT_SLOT_RANGED
  then emit (EvUpdateDamagePhysical RANGED_ATTACK)
  else ret tt.

(** [ClearSlamrockEnchants]. *)
Definition ClearSlamrockEnchants (player : option N) (targetItem : option Item)
    : M Inv unit :=
  match player, targetItem with
  | Some _, Some targetItem =>
      (* Remove effects first (if equipped), then clear. *)
      (if slot targetItem <? EQUIPMENT_SLOT_END then
         forM_ SLAMROCK_ALL_PROP_SLOTS
               (fun slot => ApplyEnchantment targetItem slot false) ;;
         refreshWeaponDamage targetItem
       else ret tt) ;;
      forM_ SLAMROCK_ALL_PROP_SLOTS ClearEnchantment ;;
      permId <- GetEnchantmentId PERM_ENCHANTMENT_SLOT ;;
      (if permId =? SLAMROCK_MARKER_ENCHANT_ID
       then ClearEnchantment PERM_ENCHANTMENT_SLOT
       else ret tt) ;;
      (if slot targetItem <? EQUIPMENT_SLOT_END
       then emit (EvSetVisibleItemSlot (slot targetItem))
       else ret tt)
  | _, _ => ret tt
  end.

(** "Apply marker + modifiers": the part of [ItemUse_item_slamrock] that
    follows the call of [ClearSlamrockEnchants], up to the consumption of the
    Slamrock. *)
Definition ApplyMarkerAndModifiers (targetItem : Item) (rolled : list N)
    : M Inv unit :=
  (* Prefer perm slot for the marker when free; if perm is already occupied,
     fall back to prop marker slot. *)
  permId <- GetEnchantmentId PERM_ENCHANTMENT_SLOT ;;
  markerInPerm <-
    (if permId =? 0
     then SetEnchantment PERM_ENCHANTMENT_SLOT SLAMROCK_MARKER_ENCHANT_ID ;; ret true
     else ret false) ;;
  (if negb markerInPerm
   then SetEnchantment SLAMROCK_MARKER_SLOT SLAMROCK_MARKER_ENCHANT_ID
   else ret tt) ;;
  (* for (i = 0; i < rolled.size() && i < SLAMROCK_MAX_MODIFIERS; ++i) *)
  forM_ (combine SLAMROCK_MODIFIER_SLOTS rolled)
        (fun si => SetEnchantment (fst si) (snd si)) ;;
  emit EvSetStateChanged ;;
  if slot targetItem <? EQUIPMENT_SLOT_END then
    (* Apply marker first, then modifiers *)
    ApplyEnchantment targetItem SLAMROCK_MARKER_SLOT true ;;
    forM_ (combine SLAMROCK_MODIFIER_SLOTS rolled)
          (fun si => ApplyEnchantment targetItem (fst si) true) ;;
    refreshWeaponDamage targetItem ;;
    emit (EvSetVisibleItemSlot (slot targetItem))
  else ret tt.

(** The rejection reply shared by the failure paths. *)
Definition replyFailure (result : SpellCastResult) : M Inv unit :=
  emit EvSendEquipError ;;
  if targetingSpell env then emit (EvSendCastResult result) else ret tt.

(** The [groups] map of the hook: which groups have a tier-eligible row. *)
Definition eligibleGroups (pool : list SlamrockWhitelistRow) (itemLevel : N)
    : @StdMap.t string bool :=
  fold_left
    (fun groups row =>
       if rowSkipped itemLevel row then groups
       else StdMap.assign String.compare (GetEffectiveGroupKey row) true groups)
    pool [].

(** [static std::vector<std::string> noExclusions]: never written. *)
Definition noExclusions : list string := [].

(** The loop [while (rolled.size() < modifierCount)]; [remaining] is
    [modifierCount - rolled.size()], which every full iteration lowers by one. *)
Fixpoint rollModifiers (remaining : nat) (pool : list SlamrockWhitelistRow)
    (itemLevel : N) (rolled : list N) : M Inv (list N) :=
  match remaining with
  | O => ret rolled
  | S remaining' =>
      groupKey <- withRng (PickWeightedGroupFromWhitelist pool itemLevel noExclusions) ;;
      match groupKey with
      | None => ret rolled                                   (* break *)
      | Some groupKey =>
          picked <- withRng (PickRandomEligibleRankEnchantForGroup
                               pool itemLevel groupKey) ;;
          match picked with
          | None => ret rolled                               (* break *)
          | Some picked =>
              rollModifiers remaining' pool itemLevel (rolled ++ [picked])
          end
      end
  end.

(** One swap gate of the hook: with [chancePct] percent, pick a replacement
    and try the swap; [true] when the item was replaced. *)
Definition swapGate (chancePct : N) (pick : Rng -> N * Rng)
    (player slamrock : N) (targetItem : Item) (msg : N -> Notification)
    : M Inv bool :=
  roll <- withRng (urand 1 100) ;;
  if roll <=? chancePct then
    newEntry <- withRng pick ;;
    if negb (newEntry =? 0) then
      swapped <- TryDowngradeItemInPlace svc (Some player) (Some targetItem) newEntry ;;
      if swapped then
        destroyItemCount svc slamrock 1 ;;
        emit (EvNotification (msg newEntry)) ;;
        ret true
      else ret false
    else ret false
  else ret false.

(** The lazy load at the head of the modifier stage:
    [if (!cache.loaded && !cache.attemptedLoad)]. *)
Definition ensureWhitelistLoaded : M Inv unit :=
  cache <- getCache ;;
  if negb (loaded cache) && negb (attemptedLoad cache) then
    setCache (mkCache true (loaded cache) (weapon cache) (armor cache)) ;;
    LoadWhitelistFromDB
  else ret tt.

(** The modifier stage of the hook: from the lazy whitelist load to the end. *)
Definition empower (player slamrock : N) (targetItem : Item) : M Inv bool :=
  ensureWhitelistLoaded ;;
  cache <- getCache ;;
  let itemLevel := match proto targetItem with
                   | Some targetProto => ItemLevel targetProto
                   | None => 0
                   end in
  let isWeapon := IsWeaponTarget (Some targetItem) in
  let pool := if isWeapon then weapon cache else armor cache in
  match pool with
  | [] =>
      emit (EvNotification WhitelistEmptyCannotRoll) ;;
      replyFailure SPELL_FAILED_ERROR ;;
      ret true
  | _ :: _ =>
      modifierCount <- withRng (urand 1 SLAMROCK_MAX_MODIFIERS) ;;
      (* Only cap if there are no eligible groups at all. *)
      let modifierCount :=
        match eligibleGroups pool itemLevel with
        | [] => 0
        | _ :: _ => modifierCount
        end in
      if modifierCount =? 0 then
        emit (EvNotification NoEligibleEnchantments) ;;
        replyFailure SPELL_FAILED_ERROR ;;
        ret true
      else
        rolled <- rollModifiers (N.to_nat modifierCount) pool itemLevel [] ;;
        match rolled with
        | [] =>
            emit (EvNotification NoEligibleEnchantments) ;;
            replyFailure SPELL_FAILED_ERROR ;;
            ret true
        | _ :: _ =>
            (* Clear previous slamrock enchants. *)
            ClearSlamrockEnchants (Some player) (Some targetItem) ;;
            ApplyMarkerAndModifiers targetItem rolled ;;
            (* Consume the Slamrock *)
            destroyItemCount svc slamrock 1 ;;
            emit (EvNotification
                    (EmpoweredWith (N.of_nat (List.length rolled))
                       (nth 0 rolled 0) (nth 1 rolled 0) (nth 2 rolled 0))) ;;
            ret true
        end
  end.

(** [ItemUse_item_slamrock].  [pPlayer] is the player's guid, [pItem] the
    entry of the Slamrock being used, [target] the item target of the cast.
    The lines written to the server log are left out. *)
Definition ItemUse_item_slamrock (pPlayer pItem : option N) (target : option Item)
    : M Inv bool :=
  match pPlayer, pItem with
  | Some player, Some slamrock =>
      emit (EvNotification
              match target with
              | None => NoItemTargetReceived
              | Some targetItem => TargetingItem (entry targetItem)
              end) ;;
      match target with
      | None => replyFailure SPELL_FAILED_BAD_TARGETS ;; ret true
      | Some targetItem =>
          if negb (IsReasonableGearTarget target) then
            replyFailure SPELL_FAILED_BAD_TARGETS ;; ret true
          (* Must be owned by the player *)
          else if negb (match owner targetItem with
                        | Some guid => guid =? player
                        | None => false
                        end) then
            replyFailure SPELL_FAILED_BAD_TARGETS ;; ret true
          (* Reject items with random suffix/properties *)
          else if negb (randomPropertyId targetItem =? 0) then
            emit (EvNotification CannotEmpowerRandomProperties) ;;
            replyFailure SPELL_FAILED_BAD_TARGETS ;; ret true
          else
            (* 2% chance: upgrade *)
            upgraded <-
              swapGate SLAMROCK_UPGRADE_CHANCE_PCT
                (PickUpgradeEntrySameClass (sItemStorage env) (proto targetItem)
                   SLAMROCK_UPGRADE_MAX_ILVL_DELTA)
                player slamrock targetItem ItemUpgradesInto ;;
            if upgraded then ret true
            else
              (* 25% chance: downgrade *)
              downgraded <-
                swapGate SLAMROCK_DOWNGRADE_CHANCE_PCT
                  (PickDowngradeEntry (sItemStorage env) (proto targetItem))
                  player slamrock targetItem ItemTransformsInto ;;
              if downgraded then ret true
              else empower player slamrock targetItem
      end
  | _, _ => ret false
  end.
End Hook.

(** ** What clearing and applying do to the slots, as pure functions *)

(** The slots after [ClearSlamrockEnchants]: the four property slots are
    empty and the permanent slot is emptied when it holds the marker. *)
Definition clearedSlots (e : Slots N) : Slots N :=
  mkSlots (if perm e =? SLAMROCK_MARKER_ENCHANT_ID then 0 else perm e)
          (temp e) 0 0 0 0.

(** The slots after "apply marker + modifiers". *)
Definition appliedSlots (rolled : list N) (e : Slots N) : Slots N :=
  fold_left (fun e' si => setSlot (fst si) (snd si) e')
            (combine SLAMROCK_MODIFIER_SLOTS rolled)
            (if perm e =? 0
             then setSlot PERM_ENCHANTMENT_SLOT SLAMROCK_MARKER_ENCHANT_ID e
             else setSlot SLAMROCK_MARKER_SLOT SLAMROCK_MARKER_ENCHANT_ID e).

(** The live effects of the four property slots agree with what the slots
    hold: an occupied slot of an equipped item carries its enchantment's
    effect exactly once, any other slot carries none. *)
Definition liveConsistent (item : Item) (e : Slots N) (l : Slots (list N)) : Prop :=
  forall slot, In slot SLAMROCK_ALL_PROP_SLOTS ->
    getSlot l slot =
    if IsEquipped item && negb (getSlot e slot =? 0) then [getSlot e slot] else [].

Definition withEnchants {Inv} (e : Slots N) (w : World Inv) : World Inv :=
  mkWorld (inv w) e (live w) (cache w) (rng w) (events w).

(** Clear, then apply: what the hook does to a target once modifiers were
    rolled. *)
Definition clearThenApply {Inv} (player : N) (targetItem : Item) (rolled : list N)
    : M Inv unit :=
  ClearSlamrockEnchants (Some player) (Some targetItem) ;;
  ApplyMarkerAndModifiers targetItem rolled.

(** The round trip as the specification words it: clearing and applying
    gives the slot occupancy of a single apply on an item with empty slots. *)
Definition roundTripFromEmpty : Prop :=
  forall (player : N) (targetItem : Item) (rolled : list N) (w : World unit),
    enchants (snd (clearThenApply player targetItem rolled w)) =
    enchants (snd (ApplyMarkerAndModifiers targetItem rolled
                     (withEnchants emptySlots w))).

Definition slot_eqb (a b : EnchantmentSlot) : bool :=
  match a, b with
  | PERM_ENCHANTMENT_SLOT, PERM_ENCHANTMENT_SLOT
  | TEMP_ENCHANTMENT_SLOT, TEMP_ENCHANTMENT_SLOT
  | PROP_ENCHANTMENT_SLOT_0, PROP_ENCHANTMENT_SLOT_0
  | PROP_ENCHANTMENT_SLOT_1, PROP_ENCHANTMENT_SLOT_1
  | PROP_ENCHANTMENT_SLOT_2, PROP_ENCHANTMENT_SLOT_2
  | PROP_ENCHANTMENT_SLOT_3, PROP_ENCHANTMENT_SLOT_3 => true
  | _, _ => false
  end.

(** The live effects of one slot after an [ApplyEnchantment] call on it. *)
Definition effectValue (item : Item) (e : Slots N) (apply : bool)
    (current : list N) (slot : EnchantmentSlot) : list N :=
  if IsEquipped item && negb (getSlot e slot =? 0) then
    if apply then getSlot e slot :: current
    else removeOne (getSlot e slot) current
  else current.

(** ** Notions used in the statements about the hook *)

(** The reply every failure path sends. *)
Definition replyEvents (env : Env) (result : SpellCastResult) : list Event :=
  EvSendEquipError
    :: (if targetingSpell env then [EvSendCastResult result] else []).

(** The cache after the lazy load. *)
Definition cacheAfterLoad (env : Env) (c : SlamrockWhitelistCache)
    : SlamrockWhitelistCache :=
  if negb (loaded c) && negb (attemptedLoad c) then
    mkCache true true
            (match dbWeapon env with Some rows => rows | None => [] end)
            (match dbArmor env with Some rows => rows | None => [] end)
  else c.

(** The whitelist pool the hook rolls from for a target. *)
Definition poolFor (env : Env) (c : SlamrockWhitelistCache) (targetItem : Item)
    : list SlamrockWhitelistRow :=
  if IsWeaponTarget (Some targetItem)
  then weapon (cacheAfterLoad env c)
  else armor (cacheAfterLoad env c).

Definition itemLevelOf (targetItem : Item) : N :=
  match proto targetItem with
  | Some targetProto => ItemLevel targetProto
  | None => 0
  end.

(** The target checks of the hook: missing, not gear, not owned by the
    player, or carrying a random property id. *)
Definition targetRejected (player : N) (target : option Item) : Prop :=
  match target with
  | None => True
  | Some targetItem =>
      IsReasonableGearTarget target = false \/
      owner targetItem <> Some player \/
      randomPropertyId targetItem <> 0
  end.

(** The calls of the swap routine. *)
Definition isSwapEvent (e : Event) : bool :=
  match e with
  | EvCanEquipNewItem _ _ _ | EvCanStoreNewItem _ _ _ _ | EvDestroyItem _ _
  | EvEquipNewItem _ _ _ | EvStoreNewItem _ _ _ => true
  | _ => false
  end.

(** The Slamrock was consumed. *)
Definition consumedIn (tr : list Event) : Prop :=
  exists entry count, In (EvDestroyItemCount entry count) tr.

(** The marker occupies exactly one of the permanent slot and property
    slot 0. *)
Definition markerInOneSlot (e : Slots N) : Prop :=
  (perm e = SLAMROCK_MARKER_ENCHANT_ID /\ prop0 e <> SLAMROCK_MARKER_ENCHANT_ID) \/
  (perm e <> SLAMROCK_MARKER_ENCHANT_ID /\ prop0 e = SLAMROCK_MARKER_ENCHANT_ID).

(** The calls the reconciler makes on the player and the item. *)
Definition isReconcilerEvent (e : Event) : bool :=
  match e with
  | EvApplyEnchantment _ _ | EvUpdateDamagePhysical _
  | EvSetVisibleItemSlot _ | EvSetStateChanged => true
  | _ => false
  end.

(** The only notifications of a trace are the reports of a swap. *)
Definition onlySwapNotifications (tr : list Event) : Prop :=
  forall n, In (EvNotification n) tr ->
    exists newEntry, n = ItemUpgradesInto newEntry \/ n = ItemTransformsInto newEntry.

(** The first notification of the hook names the target it received. *)
Definition targetNotification (target : option Item) : Notification :=
  match target with
  | None => NoItemTargetReceived
  | Some targetItem => TargetingItem (entry targetItem)
  end.

(** A notification that reports a committed outcome. *)
Definition reportsCommit (n : Notification) : bool :=
  match n with
  | ItemUpgradesInto _ | ItemTransformsInto _ | EmpoweredWith _ _ _ _ => true
  | _ => false
  end.

(** Two environments for the small world: one whose whitelist queries give
    nothing, one whose whitelist holds the two groups of the spec's scenario. *)
Definition scenarioPool : list SlamrockWhitelistRow :=
  [mkRow 1 "A" 1 0 10; mkRow 2 "B" 1 0 10].

Definition emptyEnv : Env := mkEnv scenarioStorage true None None.
Definition scenarioEnv : Env :=
  mkEnv scenarioStorage true (Some scenarioPool) (Some scenarioPool).

Definition withRandom {Inv} (g : Rng) (w : World Inv) : World Inv :=
  mkWorld (inv w) (enchants w) (live w) (cache w) g (events w).

(* ================================================================== *)
(** * The enchantment store and the scans over it *)

(** A C array of three elements ([type[3]], [amount[3]], [spellid[3]] of an
    enchantment, the three effects of a spell). *)
Record Array3 (A : Type) := mkArray3 { elt0 : A; elt1 : A; elt2 : A }.
Arguments mkArray3 {A}.
Arguments elt0 {A}.
Arguments elt1 {A}.
Arguments elt2 {A}.

(** The fields of [SpellItemEnchantmentEntry] the script reads. *)
Record SpellItemEnchantmentEntry := mkEnchantment
  { ID : N;
    type : Array3 N;
    amount : Array3 N;
    spellid : Array3 N }.

(** The fields of [SpellEntry] the script reads; [CalculateSimpleValue] holds
    the result of the method of that name for each effect index (its code is
    in Server/DBCStructure.h, outside the sources). *)
Record SpellEntry := mkSpell
  { EffectApplyAuraName : Array3 N;
    EffectMiscValue : Array3 Z;
    CalculateSimpleValue : Array3 Z;
    SpellName : string }.

(** [sSpellItemEnchantmentStore] and [sSpellTemplate]: arrays indexed by id;
    the length is [GetNumRows()], a missing entry is [None]. *)
Definition EnchantmentStore := list (option SpellItemEnchantmentEntry).
Definition SpellStore := list (option SpellEntry).

Definition LookupSpell (spells : SpellStore) (spellId : N) : option SpellEntry :=
  nth (N.to_nat spellId) spells None.

(** The enumerators the scans compare with are declared in
    Server/DBCEnums.h, Entities/ItemPrototype.h, Server/SharedDefines.h and
    Spells/SpellAuraDefines.h, outside the sources; the model takes the values
    of those headers (the source's own comment gives 3 and 5 for the
    equip-spell and the stat enchantment types). *)
Definition ITEM_ENCHANTMENT_TYPE_NONE : N := 0.
Definition ITEM_ENCHANTMENT_TYPE_COMBAT_SPELL : N := 1.
Definition ITEM_ENCHANTMENT_TYPE_DAMAGE : N := 2.
Definition ITEM_ENCHANTMENT_TYPE_EQUIP_SPELL : N := 3.
Definition ITEM_ENCHANTMENT_TYPE_RESISTANCE : N := 4.
Definition ITEM_ENCHANTMENT_TYPE_STAT : N := 5.
Definition ITEM_ENCHANTMENT_TYPE_TOTEM : N := 6.

Definition ITEM_MOD_AGILITY : N := 3.
Definition ITEM_MOD_STRENGTH : N := 4.
Definition ITEM_MOD_INTELLECT : N := 5.
Definition ITEM_MOD_SPIRIT : N := 6.
Definition ITEM_MOD_STAMINA : N := 7.

Definition STAT_STRENGTH : Z := 0.
Definition STAT_AGILITY : Z := 1.
Definition STAT_STAMINA : Z := 2.
Definition STAT_INTELLECT : Z := 3.
Definition STAT_SPIRIT : Z := 4.

Definition SPELL_AURA_MOD_STAT : N := 29.

(** The cast [int32(x)] of a 32-bit unsigned value. *)
Definition int32 (x : N) : Z :=
  if x <? 2147483648 then Z.of_N x else (Z.of_N x - 4294967296)%Z.

Definition ItemModToStatIndex (itemModType : N) : Z :=
  if itemModType =? ITEM_MOD_STRENGTH then STAT_STRENGTH
  else if itemModType =? ITEM_MOD_AGILITY then STAT_AGILITY
  else if itemModType =? ITEM_MOD_STAMINA then STAT_STAMINA
  else if itemModType =? ITEM_MOD_INTELLECT then STAT_INTELLECT
  else if itemModType =? ITEM_MOD_SPIRIT then STAT_SPIRIT
  else (-1)%Z.

(** The three (type, amount, spellid) slots of an enchantment, in the order
    of [for (int s = 0; s < 3; ++s)]. *)
Definition enchantSlots (ench : SpellItemEnchantmentEntry) : list (N * N * N) :=
  [(elt0 (type ench), elt0 (amount ench), elt0 (spellid ench));
   (elt1 (type ench), elt1 (amount ench), elt1 (spellid ench));
   (elt2 (type ench), elt2 (amount ench), elt2 (spellid ench))].

(** The three (aura, misc value, simple value) effects of a spell, in the
    order of [for (uint8 eff = 0; eff < MAX_EFFECT_INDEX; ++eff)]. *)
Definition spellEffects (spellInfo : SpellEntry) : list (N * Z * Z) :=
  [(elt0 (EffectApplyAuraName spellInfo), elt0 (EffectMiscValue spellInfo),
    elt0 (CalculateSimpleValue spellInfo));
   (elt1 (EffectApplyAuraName spellInfo), elt1 (EffectMiscValue spellInfo),
    elt1 (CalculateSimpleValue spellInfo));
   (elt2 (EffectApplyAuraName spellInfo), elt2 (EffectMiscValue spellInfo),
    elt2 (CalculateSimpleValue spellInfo))].

(** The effect loop of [FindStatEnchantmentId]: some effect passes the three
    tests (the loop returns the enchantment's id at the first such effect). *)
Fixpoint findStatEffect (effects : list (N * Z * Z)) (statIndex statValue : Z)
    : bool :=
  match effects with
  | [] => false
  | (aura, misc, value) :: rest =>
      if negb (aura =? SPELL_AURA_MOD_STAT) then findStatEffect rest statIndex statValue
      else if negb (misc =? statIndex)%Z then findStatEffect rest statIndex statValue
      else if negb (value =? statValue)%Z then findStatEffect rest statIndex statValue
      else true
  end.

(** The slot loop of [FindStatEnchantmentId]: [true] is [return ench->ID]. *)
Fixpoint findStatSlot (spells : SpellStore) (statType : N) (statIndex statValue : Z)
    (slots : list (N * N * N)) : bool :=
  match slots with
  | [] => false
  | (ty, am, sp) :: rest =>
      (* Direct stat enchant in DBC *)
      if ty =? ITEM_ENCHANTMENT_TYPE_STAT then
        if (sp =? statType) && (int32 am =? statValue)%Z then true
        else findStatSlot spells statType statIndex statValue rest
      (* Equip-spell enchant in DBC *)
      else if (ty =? ITEM_ENCHANTMENT_TYPE_EQUIP_SPELL) && (0 <=? statIndex)%Z then
        if sp =? 0 then findStatSlot spells statType statIndex statValue rest
        else
          match LookupSpell spells sp with
          | None => findStatSlot spells statType statIndex statValue rest
          | Some spellInfo =>
              if findStatEffect (spellEffects spellInfo) statIndex statValue then true
              else findStatSlot spells statType statIndex statValue rest
          end
      else findStatSlot spells statType statIndex statValue rest
  end.

(** The store loop of [FindStatEnchantmentId]; 0 is the trailing [return 0]. *)
Fixpoint findStatEntry (spells : SpellStore) (statType : N) (statIndex statValue : Z)
    (rows : EnchantmentStore) : N :=
  match rows with
  | [] => 0
  | None :: rest => findStatEntry spells statType statIndex statValue rest
  | Some ench :: rest =>
      if findStatSlot spells statType statIndex statValue (enchantSlots ench)
      then ID ench
      else findStatEntry spells statType statIndex statValue rest
  end.

Definition FindStatEnchantmentId (store : EnchantmentStore) (spells : SpellStore)
    (statType : N) (statValue : Z) : N :=
  if (statValue <=? 0)%Z then 0
  else findStatEntry spells statType (ItemModToStatIndex statType) statValue store.

Record StatEnchantCandidate := mkCandidate
  { candidateEnchantId : N; candidateStatValue : Z }.

(** The effect loop of [CollectStatEnchantCandidates]: the first effect that
    mods the stat decides, whatever its value ([break]). *)
Fixpoint collectStatEffect (effects : list (N * Z * Z)) (statIndex minValue maxValue : Z)
    (id : N) (out : list StatEnchantCandidate) : list StatEnchantCandidate :=
  match effects with
  | [] => out
  | (aura, misc, value) :: rest =>
      if negb (aura =? SPELL_AURA_MOD_STAT)
      then collectStatEffect rest statIndex minValue maxValue id out
      else if negb (misc =? statIndex)%Z
      then collectStatEffect rest statIndex minValue maxValue id out
      else if (minValue <=? value)%Z && (value <=? maxValue)%Z
      then out ++ [mkCandidate id value]
      else out
  end.

(** One iteration of its slot loop. *)
Definition collectStatSlot (spells : SpellStore) (statType : N)
    (statIndex minValue maxValue : Z) (id : N)
    (out : list StatEnchantCandidate) (slot : N * N * N)
    : list StatEnchantCandidate :=
  let '(ty, am, sp) := slot in
  (* Direct stat enchant in DBC *)
  if (ty =? ITEM_ENCHANTMENT_TYPE_STAT) && (sp =? statType) then
    let value := int32 am in
    if (minValue <=? value)%Z && (value <=? maxValue)%Z
    then out ++ [mkCandidate id value]
    else out
  (* Equip-spell enchant in DBC *)
  else if (ty =? ITEM_ENCHANTMENT_TYPE_EQUIP_SPELL) && (0 <=? statIndex)%Z then
    if sp =? 0 then out
    else
      match LookupSpell spells sp with
      | None => out
      | Some spellInfo =>
          collectStatEffect (spellEffects spellInfo) statIndex minValue maxValue id out
      end
  else out.

(** [CollectStatEnchantCandidates]: the candidates are pushed on the back of
    the vector handed in, which is returned. *)
Definition CollectStatEnchantCandidates (store : EnchantmentStore)
    (spells : SpellStore) (statType : N) (minValue maxValue : Z)
    (out : list StatEnchantCandidate) : list StatEnchantCandidate :=
  if (maxValue <? minValue)%Z then out
  else
    let statIndex := ItemModToStatIndex statType in
    fold_left
      (fun out row =>
         match row with
         | None => out
         | Some ench =>
             fold_left
               (collectStatSlot spells statType statIndex minValue maxValue (ID ench))
               (enchantSlots ench) out
         end)
      store out.

(** The slot loop of [EnchantHasUsableEffectForTarget]; a slot holds the type
    and the argument ([spellid]). *)
Fixpoint usableSlot (spells : SpellStore) (isWeaponTarget : bool)
    (slots : list (N * N * N)) : bool :=
  match slots with
  | [] => false
  | (ty, _, arg) :: rest =>
      if ty =? ITEM_ENCHANTMENT_TYPE_NONE then usableSlot spells isWeaponTarget rest
      else if (ty =? ITEM_ENCHANTMENT_TYPE_STAT)
              || (ty =? ITEM_ENCHANTMENT_TYPE_RESISTANCE) then true
      else if (ty =? ITEM_ENCHANTMENT_TYPE_DAMAGE)
              || (ty =? ITEM_ENCHANTMENT_TYPE_TOTEM) then
        if isWeaponTarget then true else usableSlot spells isWeaponTarget rest
      else if (ty =? ITEM_ENCHANTMENT_TYPE_EQUIP_SPELL)
              || (ty =? ITEM_ENCHANTMENT_TYPE_COMBAT_SPELL) then
        if negb (arg =? 0)
           && match LookupSpell spells arg with Some _ => true | None => false end
        then true
        else usableSlot spells isWeaponTarget rest
      else usableSlot spells isWeaponTarget rest
  end.

Definition EnchantHasUsableEffectForTarget (spells : SpellStore)
    (ench : option SpellItemEnchantmentEntry) (isWeaponTarget : bool) : bool :=
  match ench with
  | None => false
  | Some ench => usableSlot spells isWeaponTarget (enchantSlots ench)
  end.

(** The two lists [GetAllEnchantCandidatesForTarget] builds on its first
    call: (weaponEnchants, armorEnchants). *)
Definition buildEnchantCandidates (store : EnchantmentStore) (spells : SpellStore)
    : list N * list N :=
  fold_left
    (fun lists row =>
       match row with
       | None => lists
       | Some ench =>
           (* Reserve this enchant for the marker only. *)
           if ID ench =? SLAMROCK_MARKER_ENCHANT_ID then lists
           else
             let weaponEnchants :=
               if EnchantHasUsableEffectForTarget spells (Some ench) true
               then fst lists ++ [ID ench] else fst lists in
             let armorEnchants :=
               if EnchantHasUsableEffectForTarget spells (Some ench) false
               then snd lists ++ [ID ench] else snd lists in
             (weaponEnchants, armorEnchants)
       end)
    store ([], []).

Definition GetAllEnchantCandidatesForTarget (store : EnchantmentStore)
    (spells : SpellStore) (targetItem : option Item) : list N :=
  if IsWeaponTarget targetItem
  then fst (buildEnchantCandidates store spells)
  else snd (buildEnchantCandidates store spells).

(** What a slot must hold for [FindStatEnchantmentId] to accept it. *)
Definition givesStat (spells : SpellStore) (statType : N) (statValue : Z)
    (slot : N * N * N) : Prop :=
  let '(ty, am, sp) := slot in
  (ty = ITEM_ENCHANTMENT_TYPE_STAT /\ sp = statType /\ int32 am = statValue)
  \/
  (ty = ITEM_ENCHANTMENT_TYPE_EQUIP_SPELL /\ sp <> 0 /\
   (0 <= ItemModToStatIndex statType)%Z /\
   exists spellInfo,
     LookupSpell spells sp = Some spellInfo /\
     In (SPELL_AURA_MOD_STAT, ItemModToStatIndex statType, statValue)
        (spellEffects spellInfo)).

(** A small store: enchantment 1 gives +3 strength directly, enchantment 2
    gives +3 strength through spell 1, enchantment 3 is a weapon-damage
    enchantment, entry 4 is missing, enchantment 5 casts the unknown spell 9. *)
Definition noSlot : Array3 N := mkArray3 0 0 0.
Definition toySpells : SpellStore :=
  [None;
   Some (mkSpell (mkArray3 29 0 0) (mkArray3 0 0 0)%Z (mkArray3 3 0 0)%Z "Strength")].
Definition toyEnchantments : EnchantmentStore :=
  [None;
   Some (mkEnchantment 1 (mkArray3 5 0 0) (mkArray3 3 0 0) (mkArray3 4 0 0));
   Some (mkEnchantment 2 (mkArray3 3 0 0) noSlot (mkArray3 1 0 0));
   Some (mkEnchantment 3 (mkArray3 2 0 0) (mkArray3 7 0 0) noSlot);
   None;
   Some (mkEnchantment 5 (mkArray3 1 0 0) noSlot (mkArray3 9 0 0))].

(** The ids one store row adds to the list for weapons ([true]) or for armor
    ([false]). *)
Definition candidateOf (spells : SpellStore) (isWeaponTarget : bool)
    (row : option SpellItemEnchantmentEntry) : list N :=
  match row with
  | None => []
  | Some ench =>
      if ID ench =? SLAMROCK_MARKER_ENCHANT_ID then []
      else if EnchantHasUsableEffectForTarget spells (Some ench) isWeaponTarget
      then [ID ench] else []
  end.

(** An enchantment has a slot that gives the stat. *)
Definition enchantGivesStat (spells : SpellStore) (statType : N) (statValue : Z)
    (ench : SpellItemEnchantmentEntry) : Prop :=
  exists slot, In slot (enchantSlots ench) /\ givesStat spells statType statValue slot.

(** The calls that consume the Slamrock, and the reports of a committed
    outcome, as tests on events. *)
Definition isConsumption (e : Event) : bool :=
  match e with EvDestroyItemCount _ _ => true | _ => false end.

Definition isCommitReport (e : Event) : bool :=
  match e with EvNotification n => reportsCommit n | _ => false end.

(** The report of an applied roll. *)
Definition empoweredReport (rolled : list N) : Event :=
  EvNotification (EmpoweredWith (N.of_nat (List.length rolled))
                    (nth 0 rolled 0) (nth 1 rolled 0) (nth 2 rolled 0)).

(** The order [std::sort] leaves an index vector in: the levels never go
    down. *)
Definition byLevel (a b : LevelEntry) : Prop := fst a <= fst b.

(** The candidates a sorted vector must yield to the two candidate loops. *)
Definition isLower (targetProto : ItemPrototype) (it : LevelEntry) : bool :=
  (fst it <? ItemLevel targetProto) && negb (snd it =? ItemId targetProto).

Definition isWithin (targetIlvl maxIlvl targetId : N) (it : LevelEntry) : bool :=
  (targetIlvl <=? fst it) && (fst it <=? maxIlvl) && negb (snd it =? targetId).

(** The small inventory with a host that validates a placement but then
    hands back no item. *)
Definition refusingInventory : InventoryService (list (N * N * N)) :=
  mkService (list (N * N * N))
    (IsEquipmentPos toyInventory) (IsInventoryPos toyInventory)
    (CanEquipNewItem toyInventory) (CanStoreNewItem toyInventory)
    (DestroyItem toyInventory)
    (fun i dest newEntry => (false, i))
    (fun i dest newEntry prop => (false, i))
    (DestroyItemCount toyInventory)
    (GenerateItemRandomPropertyId toyInventory).

(** The calls of the weapon damage refresh for a slot index. *)
Definition refreshEvents (slot : N) : list Event :=
  if slot =? EQUIPMENT_SLOT_MAINHAND then [EvUpdateDamagePhysical BASE_ATTACK]
  else if slot =? EQUIPMENT_SLOT_OFFHAND then [EvUpdateDamagePhysical OFF_ATTACK]
  else if slot =? EQUIPMENT_SLOT_RANGED then [EvUpdateDamagePhysical RANGED_ATTACK]
  else [].

(** The calls [ClearSlamrockEnchants] and "apply marker + modifiers" make for
    a target in the given slot. *)
Definition clearCalls (slot : N) : list Event :=
  if slot <? EQUIPMENT_SLOT_END then
    map (fun s => EvApplyEnchantment s false) SLAMROCK_ALL_PROP_SLOTS
    ++ refreshEvents slot ++ [EvSetVisibleItemSlot slot]
  else [].

Definition applyCalls (slot : N) (rolled : list N) : list Event :=
  EvSetStateChanged ::
  if slot <? EQUIPMENT_SLOT_END then
    map (fun s => EvApplyEnchantment s true)
        (SLAMROCK_MARKER_SLOT :: map fst (combine SLAMROCK_MODIFIER_SLOTS rolled))
    ++ refreshEvents slot ++ [EvSetVisibleItemSlot slot]
  else [].

(** The reports of the modifier stage of the hook. *)
Definition isModifierStageReport (n : Notification) : bool :=
  match n with
  | WhitelistEmptyCannotRoll | NoEligibleEnchantments | EmpoweredWith _ _ _ _ => true
  | _ => false
  end.

(* ================================================================== *)
(** * The ability item script *)

(** A shallow embedding of
    [src/game/AI/ScriptDevAI/scripts/world/hardcore_ability_items.cpp]. *)

(** The used item as the script reads it: [GetProto()], which may be null,
    with [Spells[0].SpellId] (the column spellid_1) and [Spells[1].SpellId]
    (the column spellid_2), and [GetEntry()]. *)
Record AbilityItemPrototype := mkAbilityProto { spellid_1 : N; spellid_2 : N }.

Record AbilityItem := mkAbilityItem
  { abilityProto : option AbilityItemPrototype; abilityEntry : N }.

Inductive AbilityNotification :=
| NoSpellToTeach
| InvalidSpellId (spellToLearn : N)
| AlreadyKnow (spellName : string)
| HaveLearned (spellName : string).

(** What the script does to the player, in order. *)
Inductive AbilityEvent :=
| AbNotification (msg : AbilityNotification)
| AbLearnSpell (spell : N)
| AbPlaySpellVisual (visual : N)
| AbDestroyItemCount (entry count : N).

(** The player as the script uses it ([Player::HasSpell],
    [Player::learnSpell], [Player::DestroyItemCount]; Player.cpp is outside
    the sources); [P] is the player's state. *)
Record PlayerService (P : Type) := mkPlayerService
  { HasSpell : P -> N -> bool;
    learnSpell : P -> N -> P;
    destroyItems : P -> N -> N -> P }.
Arguments HasSpell {P}.
Arguments learnSpell {P}.
Arguments destroyItems {P}.

(** The spell the script settles on: spellid_2, or spellid_1 when spellid_2
    is not set. *)
Definition spellToLearnOf (proto : AbilityItemPrototype) : N :=
  let spellToLearn := spellid_2 proto in
  if spellToLearn =? 0 then spellid_1 proto else spellToLearn.

(** [ItemUse_hardcore_ability_item]: the result, the player afterwards and
    the calls made. *)
Definition ItemUse_hardcore_ability_item {P} (svc : PlayerService P)
    (spells : SpellStore) (pPlayer : option P) (pItem : option AbilityItem)
    : bool * option P * list AbilityEvent :=
  match pPlayer, pItem with
  | Some player, Some item =>
      match abilityProto item with
      | None => (false, pPlayer, [])
      | Some proto =>
          let spellToLearn := spellToLearnOf proto in
          if spellToLearn =? 0 then
            (true, pPlayer, [AbNotification NoSpellToTeach])
          else
            (* Check if spell exists *)
            match LookupSpell spells spellToLearn with
            | None => (true, pPlayer, [AbNotification (InvalidSpellId spellToLearn)])
            | Some spellInfo =>
                (* Check if player already knows this spell *)
                if HasSpell svc player spellToLearn then
                  (true, pPlayer, [AbNotification (AlreadyKnow (SpellName spellInfo))])
                else
                  let learned := learnSpell svc player spellToLearn in
                  (true,
                   Some (destroyItems svc learned (abilityEntry item) 1),
                   [AbLearnSpell spellToLearn;
                    AbNotification (HaveLearned (SpellName spellInfo));
                    AbPlaySpellVisual 362;
                    AbDestroyItemCount (abilityEntry item) 1])
            end
      end
  | _, _ => (false, pPlayer, [])
  end.

(** The host contract a second use relies on: a learned spell is known, and
    consuming items forgets no spell. *)
Definition keepsLearnedSpells {P} (svc : PlayerService P) : Prop :=
  (forall p spell, HasSpell svc (learnSpell svc p spell) spell = true) /\
  (forall p entry count spell,
     HasSpell svc (destroyItems svc p entry count) spell = HasSpell svc p spell).

(** A player that is the list of the spells known. *)
Definition toyPlayer : PlayerService (list N) :=
  mkPlayerService (list N)
    (fun p spell => existsb (fun s => s =? spell) p)
    (fun p spell => spell :: p)
    (fun p entry count => p).

(* ================================================================== *)
(** * The free-for-all loot toggle *)

(** A shallow embedding of [src/game/Loot/LootMgr_MakeAllItemsFreeForAll.cpp].
    [m_lootItems] holds pointers; the loot items live in a store addressed by
    position, a null pointer is [None]. *)
Record LootItem := mkLootItem
  { lootItemId : N;             (* stands for the fields the toggle leaves alone *)
    freeForAll : bool;
    allowedGuid : list N }.

Definition LootStore := list LootItem.

Fixpoint updateAt (addr : nat) (f : LootItem -> LootItem) (store : LootStore)
    : LootStore :=
  match store, addr with
  | [], _ => []
  | item :: rest, O => f item :: rest
  | item :: rest, S addr' => item :: updateAt addr' f rest
  end.

(** The body of the loop: [item->freeForAll = true; item->allowedGuid.clear()]. *)
Definition makeFreeForAll (item : LootItem) : LootItem :=
  mkLootItem (lootItemId item) true [].

Definition MakeAllItemsFreeForAll (m_lootItems : list (option nat))
    (store : LootStore) : LootStore :=
  fold_left
    (fun store item =>
       match item with
       | None => store
       | Some addr => updateAt addr makeFreeForAll store
       end)
    m_lootItems store.

(** What the host answers to the one placement a validated swap attempts: on
    the inventory without the old item, at the destination its checks have
    handed back, with the random property id drawn for a stored item. *)
Definition placementAfterDestroy {Inv} (svc : InventoryService Inv)
    (targetItem : Item) (newEntry : N) (w : World Inv) : bool * Inv :=
  let bag := bagSlot targetItem in
  let slot := slot targetItem in
  let destroyed := DestroyItem svc (inv w) bag slot in
  if IsEquipmentPos svc bag slot then
    EquipNewItem svc destroyed
      (snd (CanEquipNewItem svc (inv w) slot newEntry true)) newEntry
  else
    let destAny := snd (CanStoreNewItem svc (inv w) NULL_BAG NULL_SLOT newEntry 1) in
    let recheck := CanStoreNewItem svc destroyed bag slot newEntry 1 in
    StoreNewItem svc destroyed
      (if fst recheck =? EQUIP_ERR_OK then snd recheck else destAny)
      newEntry (fst (GenerateItemRandomPropertyId svc newEntry (rng w))).

(* ================================================================== *)
(** * Properties *)

(** ** Machine integers and draws *)

Lemma wrap32_small n : n < 4294967296 -> wrap32 n = n.
Proof. intros H. unfold wrap32. now apply N.mod_small. Qed.

Lemma wrap32_le n : wrap32 n <= n.
Proof. unfold wrap32. apply N.Div0.mod_le. Qed.

Lemma wrap32_lt n : wrap32 n < 4294967296.
Proof. unfold wrap32. apply N.mod_lt. discriminate. Qed.

Lemma wrap32_add_l a b : wrap32 (wrap32 a + b) = wrap32 (a + b).
Proof. unfold wrap32. now rewrite N.Div0.add_mod_idemp_l. Qed.

Lemma urand_range lo hi g : lo <= hi -> lo <= fst (urand lo hi g) <= hi.
Proof.
  intros Hle. destruct g as [|x g']; cbn [urand fst]; [lia|].
  assert (H : x mod (hi - lo + 1) < hi - lo + 1) by (apply N.mod_lt; lia).
  revert H. generalize (x mod (hi - lo + 1)). intros r Hr. lia.
Qed.

(** Every value of the interval is produced by some raw draw. *)
Lemma urand_onto lo hi v g : lo <= v <= hi -> urand lo hi ((v - lo) :: g) = (v, g).
Proof.
  intros H. cbn [urand]. rewrite N.mod_small by lia. f_equal. lia.
Qed.

(** ** Facts on [std::map] *)

Module StdMapFacts.
Import StdMap.
Section Facts.
Context {K V : Type}.
Variable cmp : K -> K -> comparison.
#[local] Abbreviation find := (@StdMap.find K V cmp).
#[local] Abbreviation assign := (@StdMap.assign K V cmp).
#[local] Abbreviation sorted := (@StdMap.sorted K V cmp).
#[local] Abbreviation klt := (@StdMap.klt K cmp).

Hypothesis cmp_eq : forall a b, cmp a b = Eq <-> a = b.

Lemma find_assign_same k v m : find k (assign k v m) = Some v.
Proof.
  assert (Hkk : cmp k k = Eq) by now apply cmp_eq.
  induction m as [|[k' v'] m IH]; simpl.
  - now rewrite Hkk.
  - destruct (cmp k k') eqn:E; simpl.
    + now rewrite E.
    + now rewrite Hkk.
    + now rewrite E.
Qed.

Lemma find_assign_other k k2 v m :
  k <> k2 -> find k2 (assign k v m) = find k2 m.
Proof.
  intros Hne.
  assert (Hk2 : cmp k2 k <> Eq) by (intros E; apply cmp_eq in E; congruence).
  induction m as [|[k' v'] m IH]; simpl.
  - destruct (cmp k2 k); congruence.
  - destruct (cmp k k') eqn:E; simpl.
    + apply cmp_eq in E. subst k'. destruct (cmp k2 k); congruence.
    + destruct (cmp k2 k); congruence.
    + destruct (cmp k2 k'); auto.
Qed.

Lemma find_some_in k v m : find k m = Some v -> In (k, v) m.
Proof.
  induction m as [|[k' v'] m IH]; simpl; [discriminate|].
  destruct (cmp k k') eqn:E; auto.
  intros [= ->]. apply cmp_eq in E. subst. now left.
Qed.

Lemma find_none_notin k m : find k m = None -> ~ In k (keys m).
Proof.
  induction m as [|[k' v'] m IH]; simpl; [tauto|].
  destruct (cmp k k') eqn:E; [discriminate| |];
    intros H [Hk|Hk]; try (now apply IH);
    subst; assert (cmp k k = Eq) by (now apply cmp_eq); congruence.
Qed.

Lemma in_keys_find k m : In k (keys m) -> exists v, find k m = Some v.
Proof.
  intros Hin. destruct (find k m) eqn:E; [eauto|].
  now apply find_none_notin in E.
Qed.

Lemma in_assign kv k v m : In kv (assign k v m) -> kv = (k, v) \/ In kv m.
Proof.
  induction m as [|[k' v'] m IH]; simpl.
  - intuition.
  - destruct (cmp k k') eqn:E; simpl.
    + apply cmp_eq in E. subst. intuition.
    + intuition.
    + intros [H|H]; [tauto|]. apply IH in H. tauto.
Qed.

Lemma assign_not_nil k v m : assign k v m <> [].
Proof. destruct m as [|[k' v'] m]; simpl; [|destruct (cmp k k')]; discriminate. Qed.



Hypothesis cmp_antisym : forall a b, cmp a b = CompOpp (cmp b a).
Hypothesis klt_trans : forall a b c, klt a b -> klt b c -> klt a c.


Lemma sorted_assign k v m : sorted m -> sorted (assign k v m).
Proof.
  induction 1 as [|k' v' m Hall Hs IH]; simpl.
  - constructor; auto. constructor.
  - destruct (cmp k k') eqn:E.
    + constructor; auto.
    + constructor; [|now constructor].
      constructor; [exact E|].
      eapply Forall_impl; [|exact Hall]. intros kv Hkv. eapply klt_trans; eauto.
    + constructor; auto.
      apply Forall_forall. intros kv Hin. apply in_assign in Hin.
      destruct Hin as [->|Hin].
      * simpl. unfold klt. rewrite cmp_antisym, E. reflexivity.
      * rewrite Forall_forall in Hall. now apply Hall.
Qed.

Lemma sorted_NoDup m : sorted m -> NoDup (keys m).
Proof.
  induction 1 as [|k v m Hall Hs IH]; simpl; constructor; auto.
  intros Hin. unfold keys in Hin. apply in_map_iff in Hin.
  destruct Hin as [[k2 v2] [Hk Hin]]. simpl in Hk. subst k2.
  rewrite Forall_forall in Hall. specialize (Hall _ Hin). simpl in Hall.
  unfold klt in Hall. assert (cmp k k = Eq) by now apply cmp_eq. congruence.
Qed.

(** Two ordered maps with the same contents are the same list. *)
Lemma sorted_ext m1 m2 :
  sorted m1 -> sorted m2 -> (forall k, find k m1 = find k m2) -> m1 = m2.
Proof.
  intros H1. revert m2.
  induction H1 as [|k1 v1 m1 Hall1 Hs1 IH]; intros m2 H2 Hext.
  - destruct m2 as [|[k2 v2] m2]; auto.
    specialize (Hext k2). simpl in Hext.
    assert (E : cmp k2 k2 = Eq) by now apply cmp_eq.
    rewrite E in Hext. discriminate.
  - assert (Ek1 : cmp k1 k1 = Eq) by now apply cmp_eq.
    destruct H2 as [|k2 v2 m2 Hall2 Hs2].
    + specialize (Hext k1). simpl in Hext. rewrite Ek1 in Hext. discriminate.
    + assert (Ek2 : cmp k2 k2 = Eq) by now apply cmp_eq.
      assert (Hk : k1 = k2).
      { destruct (cmp k1 k2) eqn:E; [now apply cmp_eq| |].
        - pose proof (Hext k1) as He. simpl in He. rewrite Ek1, E in He.
          symmetry in He. apply find_some_in in He.
          rewrite Forall_forall in Hall2. specialize (Hall2 _ He). simpl in Hall2.
          unfold klt in Hall2. rewrite cmp_antisym, E in Hall2. discriminate.
        - pose proof (Hext k2) as He. simpl in He. rewrite Ek2 in He.
          assert (E' : cmp k2 k1 = Lt) by (rewrite cmp_antisym, E; reflexivity).
          rewrite E' in He. apply find_some_in in He.
          rewrite Forall_forall in Hall1. specialize (Hall1 _ He). simpl in Hall1.
          unfold klt in Hall1. congruence. }
      subst k2.
      pose proof (Hext k1) as He. simpl in He. rewrite Ek1 in He.
      injection He as ->.
      f_equal. apply IH; auto.
      intros k. specialize (Hext k). simpl in Hext.
      destruct (cmp k k1) eqn:E; auto.
      apply cmp_eq in E. subst k.
      destruct (find k1 m1) eqn:F1.
      { apply find_some_in in F1. rewrite Forall_forall in Hall1.
        specialize (Hall1 _ F1). simpl in Hall1. unfold klt in Hall1. congruence. }
      destruct (find k1 m2) eqn:F2; auto.
      apply find_some_in in F2. rewrite Forall_forall in Hall2.
      specialize (Hall2 _ F2). simpl in Hall2. unfold klt in Hall2. congruence.
Qed.
End Facts.
End StdMapFacts.

(** [std::string] keys are ordered by [String.compare] (bytewise
    lexicographic order, as [std::less<std::string>]). *)
Lemma string_cmp_eq a b : String.compare a b = Eq <-> a = b.
Proof. apply String_as_OT.cmp_eq. Qed.

Lemma string_klt_trans a b c :
  StdMap.klt String.compare a b -> StdMap.klt String.compare b c ->
  StdMap.klt String.compare a c.
Proof.
  unfold StdMap.klt. intros H1 H2.
  apply String_as_OT.cmp_lt in H1. apply String_as_OT.cmp_lt in H2.
  apply String_as_OT.cmp_lt. eapply String_as_OT.lt_trans; eauto.
Qed.

Lemma N_cmp_eq a b : N.compare a b = Eq <-> a = b.
Proof. apply N.compare_eq_iff. Qed.

(** ** The samplers *)

Lemma rowSkipped_false lvl row : rowSkipped lvl row = false <-> eligible lvl row.
Proof.
  unfold rowSkipped, eligible. rewrite orb_false_iff, N.eqb_neq, N.ltb_ge. lia.
Qed.

Lemma lmax_app a b : lmax (a ++ b) = N.max (lmax a) (lmax b).
Proof.
  induction a as [|x a IH]; simpl.
  - now rewrite N.max_0_l.
  - rewrite IH. apply N.max_assoc.
Qed.

Lemma maxWeight_snoc rows r :
  maxWeight (rows ++ [r]) =
  Some (match maxWeight rows with
        | None => weight r
        | Some m => N.max m (weight r)
        end).
Proof.
  unfold maxWeight. destruct rows as [|r0 rows]; simpl.
  - now rewrite N.max_0_r.
  - f_equal. rewrite map_app, lmax_app. simpl. rewrite N.max_0_r.
    now rewrite N.max_assoc.
Qed.

Lemma groupWeightsOf_snoc pool lvl excl r :
  groupWeightsOf (pool ++ [r]) lvl excl =
  accumulateGroup lvl excl (groupWeightsOf pool lvl excl) r.
Proof. unfold groupWeightsOf. now rewrite fold_left_app. Qed.

Lemma groupRows_snoc pool lvl excl k r :
  groupRows (pool ++ [r]) lvl excl k =
  groupRows pool lvl excl k ++
  (if negb (rowSkipped lvl r)
      && negb (isExcluded excl (GetEffectiveGroupKey r))
      && (GetEffectiveGroupKey r =? k)%string then [r] else []).
Proof. unfold groupRows. now rewrite filter_app. Qed.

(** The weight the sampler stores for a group is the largest weight among
    the group's eligible, non-excluded rows. *)
Lemma groupWeights_find pool lvl excl k :
  gfind k (groupWeightsOf pool lvl excl) = maxWeight (groupRows pool lvl excl k).
Proof.
  revert k. induction pool as [|r pool IH] using rev_ind; intros k.
  - reflexivity.
  - rewrite groupWeightsOf_snoc, groupRows_snoc. unfold accumulateGroup.
    destruct (rowSkipped lvl r); simpl; [rewrite app_nil_r; apply IH|].
    destruct (isExcluded excl (GetEffectiveGroupKey r)); simpl;
      [rewrite app_nil_r; apply IH|].
    destruct (String.eqb_spec (GetEffectiveGroupKey r) k) as [->|Hne].
    + rewrite maxWeight_snoc, <- IH.
      destruct (gfind k (groupWeightsOf pool lvl excl)) as [w|] eqn:Ef.
      * destruct (N.ltb_spec w (weight r)).
        -- unfold gfind, gassign.
           rewrite (StdMapFacts.find_assign_same _ string_cmp_eq).
           f_equal. lia.
        -- rewrite Ef. f_equal. lia.
      * unfold gfind, gassign.
        now rewrite (StdMapFacts.find_assign_same _ string_cmp_eq).
    + rewrite app_nil_r, <- IH.
      destruct (gfind (GetEffectiveGroupKey r) (groupWeightsOf pool lvl excl)) as [w|];
        [destruct (w <? weight r)|]; auto;
        unfold gfind, gassign;
        now rewrite (StdMapFacts.find_assign_other _ string_cmp_eq).
Qed.

Lemma groupWeights_sorted pool lvl excl :
  StdMap.sorted String.compare (groupWeightsOf pool lvl excl).
Proof.
  induction pool as [|r pool IH] using rev_ind.
  - constructor.
  - rewrite groupWeightsOf_snoc. unfold accumulateGroup.
    destruct (rowSkipped lvl r); auto.
    destruct (isExcluded excl (GetEffectiveGroupKey r)); auto.
    destruct (gfind _ _) as [w|]; [destruct (w <? weight r)|]; auto;
      apply StdMapFacts.sorted_assign; auto;
      first [apply string_cmp_eq | apply String.compare_antisym
            | exact string_klt_trans].
Qed.

(** Every entry of the map comes from an eligible, non-excluded row of the
    pool and carries that row's (non-zero) weight. *)
Lemma groupWeights_in pool lvl excl k w :
  In (k, w) (groupWeightsOf pool lvl excl) ->
  exists row, In row pool /\ eligible lvl row /\
              isExcluded excl (GetEffectiveGroupKey row) = false /\
              GetEffectiveGroupKey row = k /\ weight row = w.
Proof.
  induction pool as [|r pool IH] using rev_ind.
  - intros [].
  - rewrite groupWeightsOf_snoc. unfold accumulateGroup.
    assert (Hold : In (k, w) (groupWeightsOf pool lvl excl) ->
                   exists row, In row (pool ++ [r]) /\ eligible lvl row /\
                     isExcluded excl (GetEffectiveGroupKey row) = false /\
                     GetEffectiveGroupKey row = k /\ weight row = w).
    { intros H. destruct (IH H) as [row [Hin Hrest]]. exists row.
      split; auto. apply in_or_app. now left. }
    destruct (rowSkipped lvl r) eqn:Es; auto.
    destruct (isExcluded excl (GetEffectiveGroupKey r)) eqn:Ex; auto.
    assert (Hnew : In (k, w) (gassign (GetEffectiveGroupKey r) (weight r)
                                (groupWeightsOf pool lvl excl)) ->
                   exists row, In row (pool ++ [r]) /\ eligible lvl row /\
                     isExcluded excl (GetEffectiveGroupKey row) = false /\
                     GetEffectiveGroupKey row = k /\ weight row = w).
    { intros H. apply (StdMapFacts.in_assign _ string_cmp_eq) in H.
      destruct H as [[= -> ->]|H]; auto.
      exists r. repeat split; auto.
      - apply in_or_app. right. now left.
      - apply rowSkipped_false in Es. apply Es.
      - apply rowSkipped_false in Es. apply Es. }
    destruct (gfind _ _) as [w0|]; [destruct (w0 <? weight r)|]; auto.
Qed.

(** ** The cumulative walk *)

Lemma totalWeightOf_from gw : totalWeightOf gw = totalFrom gw 0.
Proof. reflexivity. Qed.

(** The walk's running sum ends at the total, so a draw that does not exceed
    the total is met by some group: the trailing failure is not reached. *)
Lemma walkGroups_reaches gw : forall roll running,
  running < roll -> roll <= totalFrom gw running ->
  exists key, walkGroups gw roll running = Some key /\ In key (StdMap.keys gw).
Proof.
  induction gw as [|[k w] gw IH]; intros roll running Hlt Hle; simpl in *.
  - lia.
  - destruct (N.leb_spec roll (wrap32 (running + w))) as [H|H].
    + exists k. auto.
    + destruct (IH roll (wrap32 (running + w)) H Hle) as [key [Hw Hin]].
      exists key. auto.
Qed.

Lemma totalFrom_nowrap gw : forall running,
  running + rawTotal gw < 4294967296 ->
  totalFrom gw running = running + rawTotal gw.
Proof.
  induction gw as [|[k w] gw IH]; intros running H; simpl in *.
  - lia.
  - rewrite wrap32_small by lia. rewrite IH by lia. lia.
Qed.

Lemma totalWeightOf_nowrap gw :
  rawTotal gw < 4294967296 -> totalWeightOf gw = rawTotal gw.
Proof. intros H. rewrite totalWeightOf_from, totalFrom_nowrap; simpl; lia. Qed.

Lemma groupWeights_positive pool lvl excl k w :
  In (k, w) (groupWeightsOf pool lvl excl) -> 0 < w.
Proof.
  intros H. apply groupWeights_in in H.
  destruct H as [row [_ [[Hw _] [_ [_ <-]]]]]. exact Hw.
Qed.

Lemma rawTotal_in (gw : GroupWeights) k w : In (k, w) gw -> w <= rawTotal gw.
Proof.
  induction gw as [|[k' w'] gw IH]; simpl; [tauto|].
  intros [[= -> ->]|H]; [lia|]. apply IH in H. lia.
Qed.

(** The map is non-empty exactly when some row qualifies. *)
Lemma groupWeights_nonempty pool lvl excl :
  groupWeightsOf pool lvl excl <> [] <->
  exists row, In row pool /\ eligible lvl row /\
              isExcluded excl (GetEffectiveGroupKey row) = false.
Proof.
  split.
  - destruct (groupWeightsOf pool lvl excl) as [|[k w] gw] eqn:E; [congruence|].
    intros _.
    destruct (groupWeights_in pool lvl excl k w) as [row [Hin [He [Hx _]]]];
      [rewrite E; now left|eauto].
  - intros [row [Hin [He Hx]]] Hnil.
    pose proof (groupWeights_find pool lvl excl (GetEffectiveGroupKey row)) as Hf.
    rewrite Hnil in Hf. simpl in Hf.
    assert (Hr : In row (groupRows pool lvl excl (GetEffectiveGroupKey row))).
    { unfold groupRows. apply filter_In. split; auto.
      apply rowSkipped_false in He. rewrite He, Hx, String.eqb_refl. reflexivity. }
    destruct (groupRows pool lvl excl (GetEffectiveGroupKey row)); [destruct Hr|].
    discriminate.
Qed.

(** ** Counting the draws that select a group *)

Lemma ivl_split a n m : ivl a (n + m) = ivl a n ++ ivl (a + n) m.
Proof.
  unfold ivl. rewrite N2Nat.inj_add, seq_app, map_app. f_equal.
  rewrite <- (seq_shift (N.to_nat m)) at 1.
  replace (1 + N.to_nat n)%nat with (S (N.to_nat n)) by reflexivity.
  rewrite <- seq_shift, !map_map.
  assert (Hs : forall len s, map (fun x => a + N.of_nat (S x)) (seq (N.to_nat n + s) len)
                      = map (fun x => a + n + N.of_nat (S x)) (seq s len)).
  { induction len as [|len IHl]; intros s; simpl; auto.
    rewrite <- IHl. f_equal; [lia|]. f_equal. f_equal. lia. }
  specialize (Hs (N.to_nat m) 0%nat). rewrite Nat.add_0_r in Hs.
  rewrite Hs. apply map_ext. intros x. reflexivity.
Qed.

Lemma ivl_in a n r : In r (ivl a n) <-> a < r <= a + n.
Proof.
  unfold ivl. rewrite in_map_iff. split.
  - intros [j [<- Hj]]. apply in_seq in Hj. lia.
  - intros H. exists (N.to_nat (r - a)). split; [lia|]. apply in_seq. lia.
Qed.

Lemma ivl_length a n : N.of_nat (List.length (ivl a n)) = n.
Proof. unfold ivl. rewrite length_map, length_seq. lia. Qed.

Lemma filter_all {A} (f : A -> bool) l :
  (forall x, In x l -> f x = true) -> filter f l = l.
Proof.
  induction l as [|x l IH]; simpl; intros H; auto.
  rewrite H by auto. f_equal. auto.
Qed.

Lemma filter_none {A} (f : A -> bool) l :
  (forall x, In x l -> f x = false) -> filter f l = [].
Proof.
  induction l as [|x l IH]; simpl; intros H; auto.
  rewrite H by auto. auto.
Qed.

Lemma selects_count (gw : GroupWeights) key : forall running,
  NoDup (StdMap.keys gw) ->
  running + rawTotal gw < 4294967296 ->
  N.of_nat (List.length (filter (selects gw running key) (ivl running (rawTotal gw))))
  = weightIn gw key.
Proof.
  induction gw as [|[k w] gw IH]; intros running Hnd Hsum.
  - reflexivity.
  - simpl in Hsum. inversion Hnd as [|? ? Hnotin Hnd']; subst.
    change (rawTotal ((k, w) :: gw)) with (w + rawTotal gw).
    rewrite ivl_split, filter_app, length_app, Nat2N.inj_add.
    assert (Htail : filter (selects ((k, w) :: gw) running key)
                           (ivl (running + w) (rawTotal gw))
                    = filter (selects gw (running + w) key)
                             (ivl (running + w) (rawTotal gw))).
    { apply filter_ext_in. intros r Hr. apply ivl_in in Hr.
      unfold selects. simpl. rewrite wrap32_small by lia.
      destruct (N.leb_spec r (running + w)); [lia|reflexivity]. }
    rewrite Htail, IH by (auto; lia).
    unfold weightIn, gfind. simpl.
    destruct (String.compare key k) eqn:E.
    + apply string_cmp_eq in E. subst k.
      rewrite filter_all, ivl_length.
      * destruct (StdMap.find String.compare key gw) eqn:F; [|lia].
        apply (StdMapFacts.find_some_in _ string_cmp_eq) in F.
        exfalso. apply Hnotin. unfold StdMap.keys.
        apply in_map_iff. exists (key, n). auto.
      * intros r Hr. apply ivl_in in Hr. unfold selects. simpl.
        rewrite wrap32_small by lia.
        destruct (N.leb_spec r (running + w)); [apply String.eqb_refl|lia].
    + rewrite filter_none; [reflexivity|].
      intros r Hr. apply ivl_in in Hr. unfold selects. simpl.
      rewrite wrap32_small by lia.
      destruct (N.leb_spec r (running + w)); [|lia].
      apply String.eqb_neq. intros ->.
      assert (String.compare key key = Eq) by now apply string_cmp_eq. congruence.
    + rewrite filter_none; [reflexivity|].
      intros r Hr. apply ivl_in in Hr. unfold selects. simpl.
      rewrite wrap32_small by lia.
      destruct (N.leb_spec r (running + w)); [|lia].
      apply String.eqb_neq. intros ->.
      assert (String.compare key key = Eq) by now apply string_cmp_eq. congruence.
Qed.

(** With a total that fits 32 bits, the number of draws that select a group
    is the largest weight among the group's qualifying rows. *)
Lemma drawsSelecting_max pool lvl excl key :
  rawTotal (groupWeightsOf pool lvl excl) < 4294967296 ->
  drawsSelecting pool lvl excl key =
  match maxWeight (groupRows pool lvl excl key) with
  | Some m => m
  | None => 0
  end.
Proof.
  intros H. unfold drawsSelecting, draws.
  rewrite totalWeightOf_nowrap by exact H.
  rewrite selects_count.
  - unfold weightIn. now rewrite groupWeights_find.
  - apply (StdMapFacts.sorted_NoDup _ string_cmp_eq), groupWeights_sorted.
  - simpl. exact H.
Qed.

Lemma maxWeight_nonempty rows :
  rows <> [] -> maxWeight rows = Some (lmax (map weight rows)).
Proof. destruct rows; [congruence|reflexivity]. Qed.

Lemma maxWeight_lmax rows :
  match maxWeight rows with Some m => m | None => 0 end = lmax (map weight rows).
Proof. destruct rows; reflexivity. Qed.

Lemma maxWeight_insert a b r :
  maxWeight (a ++ r :: b) =
  Some (match maxWeight (a ++ b) with
        | None => weight r
        | Some m => N.max m (weight r)
        end).
Proof.
  rewrite maxWeight_nonempty by (now destruct a).
  f_equal. rewrite map_app, lmax_app. simpl.
  pose proof (maxWeight_lmax (a ++ b)) as H.
  rewrite map_app, lmax_app in H.
  destruct (maxWeight (a ++ b)); lia.
Qed.

(** A row that is skipped, excluded, or no heavier than its group already is
    changes no group weight, wherever it is placed in the pool. *)
Lemma groupWeights_insert_row before after lvl excl row :
  rowSkipped lvl row = true \/
  isExcluded excl (GetEffectiveGroupKey row) = true \/
  (exists m, maxWeight (groupRows (before ++ after) lvl excl
                                  (GetEffectiveGroupKey row)) = Some m
             /\ weight row <= m) ->
  groupWeightsOf (before ++ row :: after) lvl excl =
  groupWeightsOf (before ++ after) lvl excl.
Proof.
  intros H.
  apply (StdMapFacts.sorted_ext _ string_cmp_eq String.compare_antisym);
    try apply groupWeights_sorted.
  intros k. fold gfind. rewrite !groupWeights_find.
  unfold groupRows. rewrite !filter_app. simpl.
  destruct (rowSkipped lvl row) eqn:Es; simpl; auto.
  destruct (isExcluded excl (GetEffectiveGroupKey row)) eqn:Ex; simpl; auto.
  destruct H as [H|[H|[m [Hm Hle]]]]; try discriminate.
  destruct (String.eqb_spec (GetEffectiveGroupKey row) k) as [<-|Hne]; auto.
  rewrite maxWeight_insert. unfold groupRows in Hm. rewrite filter_app in Hm.
  rewrite Hm. f_equal. lia.
Qed.

(** C3 (as amended) -- For every pool, item level and exclusion list, the
    weight the sampler gives a group is the maximum weight among the group's
    eligible, non-excluded rows, not their sum: a group with rows of weights
    5 and 9 contributes exactly 9 to the total; when the total fits 32 bits
    the number of draws selecting a group equals that maximum; and adding a
    row that is ineligible, excluded, or not heavier than the current maximum
    of its group changes no group weight and hence no outcome of the sampler. *)
Theorem group_weight_is_max pool lvl excl :
  (forall key, gfind key (groupWeightsOf pool lvl excl)
               = maxWeight (groupRows pool lvl excl key)) /\
  (forall lvl' minA minB, minA <= lvl' -> minB <= lvl' ->
     totalWeightOf (groupWeightsOf
        [mkRow 1 "A" 1 minA 5; mkRow 2 "A" 2 minB 9] lvl' []) = 9) /\
  (rawTotal (groupWeightsOf pool lvl excl) < 4294967296 ->
   forall key, drawsSelecting pool lvl excl key =
               match maxWeight (groupRows pool lvl excl key) with
               | Some m => m
               | None => 0
               end) /\
  (forall before after row,
     pool = before ++ after ->
     rowSkipped lvl row = true \/
     isExcluded excl (GetEffectiveGroupKey row) = true \/
     (exists m, maxWeight (groupRows pool lvl excl (GetEffectiveGroupKey row))
                = Some m /\ weight row <= m) ->
     groupWeightsOf (before ++ row :: after) lvl excl = groupWeightsOf pool lvl excl
     /\ forall g, PickWeightedGroupFromWhitelist (before ++ row :: after) lvl excl g
                  = PickWeightedGroupFromWhitelist pool lvl excl g).
Proof.
  split; [intros key; apply groupWeights_find|].
  split.
  { intros lvl' minA minB HA HB. unfold groupWeightsOf, accumulateGroup, rowSkipped.
    simpl. apply N.ltb_ge in HA, HB. rewrite HA, HB. reflexivity. }
  split; [intros H key; now apply drawsSelecting_max|].
  intros before after row -> H.
  assert (E : groupWeightsOf (before ++ row :: after) lvl excl
              = groupWeightsOf (before ++ after) lvl excl)
    by now apply groupWeights_insert_row.
  split; [exact E|].
  intros g. unfold PickWeightedGroupFromWhitelist. now rewrite E.
Qed.

Lemma group_weight_is_max_witness :
  let pool := [mkRow 1 "A" 1 0 9; mkRow 2 "B" 1 0 10] in
  let row := mkRow 3 "A" 2 0 5 in
  totalWeightOf (groupWeightsOf [mkRow 1 "A" 1 3 5; mkRow 2 "A" 2 7 9] 7 []) = 9 /\
  drawsSelecting pool 0 [] "A" = 9 /\
  groupWeightsOf ([mkRow 1 "A" 1 0 9] ++ row :: [mkRow 2 "B" 1 0 10]) 0 []
  = groupWeightsOf pool 0 [].
Proof.
  intros pool row.
  destruct (group_weight_is_max pool 0 []) as [_ [Hex [Hcnt Hadd]]].
  split; [apply Hex; lia|].
  split; [rewrite Hcnt by (vm_compute; reflexivity); reflexivity|].
  apply (Hadd [mkRow 1 "A" 1 0 9] [mkRow 2 "B" 1 0 10] row eq_refl).
  right. right. exists 9. split; [reflexivity|]. simpl. lia.
Defined.

(** C3 (the claim as stated fails) -- adding a row to a group can raise the
    group's odds: with groups A (weight 5) and B (weight 10), group A is
    selected by 5 of 15 draws; after a second A row of weight 9 is added it is
    selected by 9 of 19 draws. *)
Lemma adding_heavier_row_raises_odds :
  ~ (forall pool lvl excl row, oddsNotRaisedBy pool lvl excl row).
Proof.
  intros H.
  specialize (H [mkRow 1 "A" 1 0 5; mkRow 2 "B" 1 0 10] 0 [] (mkRow 3 "A" 2 0 9)).
  vm_compute in H. apply H. reflexivity.
Qed.

(** ** The sampler never falls through its walk *)

Lemma walkGroups_some_in (gw : GroupWeights) roll key : forall running,
  walkGroups gw roll running = Some key -> In key (StdMap.keys gw).
Proof.
  induction gw as [|[k w] gw IH]; simpl; intros run Hw; [discriminate|].
  destruct (roll <=? wrap32 (run + w)).
  - injection Hw as ->. now left.
  - right. eapply IH; eauto.
Qed.

Lemma sampler_success_qualifies pool lvl excl g key :
  fst (PickWeightedGroupFromWhitelist pool lvl excl g) = Some key ->
  exists row, qualifies pool lvl excl row /\ GetEffectiveGroupKey row = key.
Proof.
  unfold PickWeightedGroupFromWhitelist.
  destruct (totalWeightOf (groupWeightsOf pool lvl excl) =? 0); simpl;
    [discriminate|].
  destruct (match groupWeightsOf pool lvl excl with [] => true | _ => false end);
    [discriminate|].
  destruct (urand 1 _ g) as [roll g']. simpl.
  intros Hw. apply walkGroups_some_in in Hw.
  unfold StdMap.keys in Hw. apply in_map_iff in Hw.
  destruct Hw as [[k w] [Hk Hin]]. simpl in Hk. subst k.
  apply groupWeights_in in Hin. destruct Hin as [row [H1 [H2 [H3 [H4 _]]]]].
  exists row. unfold qualifies. auto.
Qed.

Lemma sampler_positive_total_succeeds pool lvl excl g :
  0 < totalWeightOf (groupWeightsOf pool lvl excl) ->
  exists key, fst (PickWeightedGroupFromWhitelist pool lvl excl g) = Some key.
Proof.
  intros Hpos. unfold PickWeightedGroupFromWhitelist.
  remember (groupWeightsOf pool lvl excl) as gw eqn:Egw. clear Egw.
  destruct (N.eqb_spec (totalWeightOf gw) 0) as [E|E]; [lia|]. simpl.
  destruct gw as [|kv gw']; [now elim E|].
  remember (kv :: gw') as gw eqn:Egw. clear Egw.
  destruct (urand 1 (totalWeightOf gw) g) as [roll g'] eqn:Eu. simpl.
  pose proof (urand_range 1 (totalWeightOf gw) g) as Hr.
  rewrite Eu in Hr. simpl in Hr.
  destruct (walkGroups_reaches gw roll 0) as [key [Hk _]]; try lia.
  - change (totalFrom gw 0) with (totalWeightOf gw). lia.
  - eauto.
Qed.

Lemma qualifying_row_positive_total pool lvl excl :
  rawTotal (groupWeightsOf pool lvl excl) < 4294967296 ->
  (exists row, qualifies pool lvl excl row) ->
  0 < totalWeightOf (groupWeightsOf pool lvl excl).
Proof.
  intros Hraw Hq. apply groupWeights_nonempty in Hq.
  rewrite totalWeightOf_nowrap by exact Hraw.
  destruct (groupWeightsOf pool lvl excl) as [|[k w] gw] eqn:E; [congruence|].
  assert (Hin : In (k, w) (groupWeightsOf pool lvl excl)) by (rewrite E; now left).
  apply groupWeights_positive in Hin. simpl. lia.
Qed.

(** The total of a pool of 16-bit weights fits 32 bits as soon as the pool
    has at most 65537 rows. *)
Lemma rawTotal_bound pool lvl excl :
  Forall (fun row => weight row <= 65535) pool ->
  rawTotal (groupWeightsOf pool lvl excl) <= 65535 * N.of_nat (List.length pool).
Proof.
  intros Hw.
  assert (Hlen : (List.length (groupWeightsOf pool lvl excl) <= List.length pool)%nat).
  { pose proof (StdMapFacts.sorted_NoDup _ string_cmp_eq _
                  (groupWeights_sorted pool lvl excl)) as Hnd.
    assert (Hincl : incl (StdMap.keys (groupWeightsOf pool lvl excl))
                         (map GetEffectiveGroupKey pool)).
    { intros k Hk. unfold StdMap.keys in Hk. apply in_map_iff in Hk.
      destruct Hk as [[k' w] [Hk Hin]]. simpl in Hk. subst k'.
      apply groupWeights_in in Hin.
      destruct Hin as [row [Hin [_ [_ [Hkey _]]]]]. subst k. now apply in_map. }
    pose proof (NoDup_incl_length Hnd Hincl) as Hl.
    unfold StdMap.keys in Hl. now rewrite !length_map in Hl. }
  assert (Hall : Forall (fun kv => snd kv <= 65535) (groupWeightsOf pool lvl excl)).
  { apply Forall_forall. intros [k w] Hin. apply groupWeights_in in Hin.
    destruct Hin as [row [Hin [_ [_ [_ <-]]]]].
    rewrite Forall_forall in Hw. now apply Hw. }
  revert Hlen Hall. generalize (groupWeightsOf pool lvl excl) as gw.
  generalize (List.length pool) as n.
  intros n gw. revert n. induction gw as [|[k w] gw IH]; intros n Hlen Hall.
  - simpl. lia.
  - inversion Hall as [|? ? Hw0 Hall']; subst. simpl in Hw0, Hlen.
    destruct n as [|n]; [lia|].
    specialize (IH n ltac:(lia) Hall').
    change (rawTotal ((k, w) :: gw)) with (w + rawTotal gw).
    rewrite Nat2N.inj_succ. lia.
Qed.

(** C10 -- Whenever the sampler computes a positive total weight, the
    cumulative walk selects a group for every draw in [1, totalWeight]: the
    trailing failure return is never reached and the sampler succeeds with the
    key of a qualifying row.  Success always implies that a non-excluded group
    has a row with weight > 0 and minimumTier <= itemTier, and (the total
    fitting 32 bits) such a row makes the total positive, so the sampler
    succeeds exactly when such a row exists. *)
Theorem sampler_walk_total pool lvl excl :
  let gw := groupWeightsOf pool lvl excl in
  (0 < totalWeightOf gw ->
     (forall roll, 1 <= roll <= totalWeightOf gw ->
        exists key, walkGroups gw roll 0 = Some key) /\
     (forall g, exists key,
        fst (PickWeightedGroupFromWhitelist pool lvl excl g) = Some key) /\
     (exists row, qualifies pool lvl excl row)) /\
  (forall g key,
     fst (PickWeightedGroupFromWhitelist pool lvl excl g) = Some key ->
     exists row, qualifies pool lvl excl row /\ GetEffectiveGroupKey row = key) /\
  (rawTotal gw < 4294967296 ->
   forall g,
     (exists key, fst (PickWeightedGroupFromWhitelist pool lvl excl g) = Some key)
     <-> (exists row, qualifies pool lvl excl row)).
Proof.
  intros gw. split; [|split].
  - intros Hpos. split; [|split].
    + intros roll Hr.
      destruct (walkGroups_reaches gw roll 0) as [key [Hk _]]; try lia.
      * change (totalFrom gw 0) with (totalWeightOf gw). lia.
      * eauto.
    + intros g. now apply sampler_positive_total_succeeds.
    + destruct (sampler_positive_total_succeeds pool lvl excl [] Hpos) as [key Hk].
      apply sampler_success_qualifies in Hk. destruct Hk as [row [Hq _]]. eauto.
  - intros g key. apply sampler_success_qualifies.
  - intros Hraw g. split.
    + intros [key Hk]. apply sampler_success_qualifies in Hk.
      destruct Hk as [row [Hq _]]. eauto.
    + intros Hq. apply sampler_positive_total_succeeds.
      now apply qualifying_row_positive_total.
Qed.

Lemma sampler_walk_total_witness :
  let pool := [mkRow 1 "A" 1 0 5; mkRow 2 "B" 1 0 10; mkRow 3 "A" 2 0 9] in
  (forall roll, 1 <= roll <= 19 ->
     exists key, walkGroups (groupWeightsOf pool 0 []) roll 0 = Some key) /\
  fst (PickWeightedGroupFromWhitelist pool 0 [] [8]) = Some "A"%string /\
  fst (PickWeightedGroupFromWhitelist pool 0 [] [9]) = Some "B"%string /\
  ((exists key, fst (PickWeightedGroupFromWhitelist pool 0 ["A"%string; "B"%string] [])
                = Some key)
   <-> exists row, qualifies pool 0 ["A"%string; "B"%string] row).
Proof.
  intros pool.
  destruct (sampler_walk_total pool 0 []) as [Hpos _].
  destruct Hpos as [Hwalk _]; [vm_compute; reflexivity|].
  split; [exact Hwalk|].
  split; [reflexivity|]. split; [reflexivity|].
  destruct (sampler_walk_total pool 0 ["A"%string; "B"%string]) as [_ [_ Hiff]].
  apply Hiff. vm_compute. reflexivity.
Defined.

(** ** The rank picker *)

Lemma rankRows_in pool lvl key row :
  In row (rankRows pool lvl key) <->
  In row pool /\ eligible lvl row /\ GetEffectiveGroupKey row = key.
Proof.
  unfold rankRows. rewrite filter_In, andb_true_iff, negb_true_iff,
    rowSkipped_false, String.eqb_eq. tauto.
Qed.

Lemma rankRows_length pool lvl key :
  (List.length (rankRows pool lvl key) <= List.length pool)%nat.
Proof. unfold rankRows. apply filter_length_le. Qed.

Lemma countEligible_from pool lvl key : forall c,
  fold_left
    (fun eligibleCount row =>
       if rowSkipped lvl row then eligibleCount
       else if negb (GetEffectiveGroupKey row =? key)%string then eligibleCount
       else wrap32 (eligibleCount + 1))
    pool c
  = wrap32 (c + N.of_nat (List.length (rankRows pool lvl key))) \/
  (rankRows pool lvl key = [] /\
   fold_left
    (fun eligibleCount row =>
       if rowSkipped lvl row then eligibleCount
       else if negb (GetEffectiveGroupKey row =? key)%string then eligibleCount
       else wrap32 (eligibleCount + 1))
    pool c = c).
Proof.
  induction pool as [|row pool IH]; intros c; simpl.
  - right. auto.
  - unfold rankRows in *. simpl.
    destruct (rowSkipped lvl row); simpl; [apply IH|].
    destruct ((GetEffectiveGroupKey row =? key)%string); simpl; [|apply IH].
    left. destruct (IH (wrap32 (c + 1))) as [H|[Hnil H]]; rewrite H.
    + rewrite wrap32_add_l. f_equal. lia.
    + rewrite Hnil. reflexivity.
Qed.

Lemma countEligible_length pool lvl key :
  N.of_nat (List.length pool) < 4294967296 ->
  countEligible pool lvl key = N.of_nat (List.length (rankRows pool lvl key)).
Proof.
  intros Hlen. unfold countEligible.
  pose proof (rankRows_length pool lvl key) as Hle.
  destruct (countEligible_from pool lvl key 0) as [H|[Hnil H]]; rewrite H.
  - rewrite wrap32_small; lia.
  - now rewrite Hnil.
Qed.

(** The walk returns the row at the drawn ordinal position. *)
Lemma walkRanks_nth pool lvl key roll : forall seen,
  seen + N.of_nat (List.length (rankRows pool lvl key)) < 4294967296 ->
  seen < roll ->
  walkRanks pool lvl key roll seen =
  nth_error (map enchantId (rankRows pool lvl key)) (N.to_nat (roll - seen - 1)).
Proof.
  induction pool as [|row pool IH]; intros seen Hfit Hlt; simpl.
  - now destruct (N.to_nat (roll - seen - 1)).
  - unfold rankRows in *. simpl in *.
    destruct (rowSkipped lvl row); simpl in *; [now apply IH|].
    destruct ((GetEffectiveGroupKey row =? key)%string); simpl in *; [|now apply IH].
    rewrite wrap32_small by lia.
    destruct (N.leb_spec roll (seen + 1)) as [H|H].
    + replace (roll - seen - 1) with 0 by lia. reflexivity.
    + rewrite IH by lia.
      replace (N.to_nat (roll - seen - 1)) with (S (N.to_nat (roll - (seen + 1) - 1)))
        by lia.
      reflexivity.
Qed.

Lemma rank_picker_result pool lvl key g :
  N.of_nat (List.length pool) < 4294967296 ->
  fst (PickRandomEligibleRankEnchantForGroup pool lvl key g) =
  match rankRows pool lvl key with
  | [] => None
  | _ :: _ =>
      let n := N.of_nat (List.length (rankRows pool lvl key)) in
      nth_error (map enchantId (rankRows pool lvl key))
                (N.to_nat (fst (urand 1 n g) - 1))
  end.
Proof.
  intros Hlen. unfold PickRandomEligibleRankEnchantForGroup.
  rewrite countEligible_length by exact Hlen.
  pose proof (rankRows_length pool lvl key) as Hle.
  destruct (rankRows pool lvl key) as [|r rs] eqn:E; [reflexivity|].
  rewrite <- E in *.
  assert (Hn : 1 <= N.of_nat (List.length (rankRows pool lvl key)))
    by (rewrite E; simpl; lia).
  destruct (N.eqb_spec (N.of_nat (List.length (rankRows pool lvl key))) 0); [lia|].
  pose proof (urand_range 1 _ g Hn) as Hr.
  destruct (urand 1 _ g) as [roll g']. simpl in *.
  rewrite walkRanks_nth by lia. f_equal. lia.
Qed.

(** Whatever the walk returns is the id of an eligible row of the group. *)
Lemma walkRanks_sound pool lvl key roll : forall seen id,
  walkRanks pool lvl key roll seen = Some id ->
  exists row, In row pool /\ eligible lvl row /\
              GetEffectiveGroupKey row = key /\ enchantId row = id.
Proof.
  induction pool as [|row pool IH]; intros seen id; simpl; [discriminate|].
  assert (Hrec : forall seen',
            walkRanks pool lvl key roll seen' = Some id ->
            exists row0, In row0 (row :: pool) /\ eligible lvl row0 /\
                         GetEffectiveGroupKey row0 = key /\ enchantId row0 = id).
  { intros seen' H. destruct (IH _ _ H) as [r [Hin Hr]]. exists r.
    split; [now right|exact Hr]. }
  destruct (rowSkipped lvl row) eqn:Es; [apply Hrec|].
  destruct (String.eqb_spec (GetEffectiveGroupKey row) key) as [Hk|Hk];
    simpl; [|apply Hrec].
  destruct (roll <=? wrap32 (seen + 1)); [|apply Hrec].
  intros [= <-]. exists row. split; [now left|].
  split; [now apply rowSkipped_false|]. split; [exact Hk|reflexivity].
Qed.

Lemma rank_picker_sound pool lvl key g id :
  fst (PickRandomEligibleRankEnchantForGroup pool lvl key g) = Some id ->
  exists row, In row pool /\ eligible lvl row /\
              GetEffectiveGroupKey row = key /\ enchantId row = id.
Proof.
  unfold PickRandomEligibleRankEnchantForGroup.
  destruct (countEligible pool lvl key =? 0); [discriminate|].
  destruct (urand 1 _ g) as [roll g']. simpl. apply walkRanks_sound.
Qed.



(** ** The tier indexes *)

Lemma ItemTypeKey_cmp_eq a b : ItemTypeKey_cmp a b = Eq <-> a = b.
Proof.
  destruct a as [a1 a2 a3], b as [b1 b2 b3].
  unfold ItemTypeKey_cmp, ItemTypeKey_lt. simpl.
  repeat match goal with
         | |- context [N.eqb ?x ?y] => destruct (N.eqb_spec x y); simpl
         | |- context [N.ltb ?x ?y] => destruct (N.ltb_spec x y); simpl
         end;
    (split; intros HH;
     [ try discriminate; try (f_equal; lia)
     | try (injection HH; intros; lia); try reflexivity ]).
Qed.

Lemma insertByLevel_in x y l : In y (insertByLevel x l) <-> y = x \/ In y l.
Proof.
  induction l as [|z l IH]; simpl.
  - intuition.
  - destruct (fst x <? fst z); simpl; rewrite ?IH; intuition.
Qed.

Lemma sortByLevel_in y l : In y (sortByLevel l) <-> In y l.
Proof.
  induction l as [|x l IH]; simpl; [tauto|].
  rewrite insertByLevel_in, IH. intuition.
Qed.

Lemma insertByLevel_length x l :
  List.length (insertByLevel x l) = S (List.length l).
Proof.
  induction l as [|z l IH]; simpl; auto.
  destruct (fst x <? fst z); simpl; auto.
Qed.

Lemma sortByLevel_length l : List.length (sortByLevel l) = List.length l.
Proof.
  induction l as [|x l IH]; simpl; auto.
  now rewrite insertByLevel_length, IH.
Qed.

Section Index.
Context {K : Type}.
Variable cmp : K -> K -> comparison.
Variable keyfn : ItemPrototype -> K.
Hypothesis cmp_eq : forall a b, cmp a b = Eq <-> a = b.

Lemma find_sortAll key (m : @StdMap.t K (list LevelEntry)) :
  StdMap.find cmp key (sortAll m) = option_map sortByLevel (StdMap.find cmp key m).
Proof.
  induction m as [|[k v] m IH]; simpl; auto.
  destruct (cmp key k); auto.
Qed.

Lemma find_push_back key k x (m : @StdMap.t K (list LevelEntry)) :
  StdMap.find cmp key (push_back_at cmp k x m) =
  match cmp k key with
  | Eq => Some (match StdMap.find cmp key m with
                | Some vec => vec ++ [x]
                | None => [x]
                end)
  | _ => StdMap.find cmp key m
  end.
Proof.
  unfold push_back_at. destruct (cmp k key) eqn:E.
  - apply cmp_eq in E. subst. now rewrite StdMapFacts.find_assign_same.
  - apply StdMapFacts.find_assign_other; auto. intros ->.
    assert (cmp key key = Eq) by now apply cmp_eq. congruence.
  - apply StdMapFacts.find_assign_other; auto. intros ->.
    assert (cmp key key = Eq) by now apply cmp_eq. congruence.
Qed.

(** The vector filed under a key holds exactly the gear of that key. *)
Lemma index_find storage key :
  StdMap.find cmp key (buildIndex cmp keyfn storage) =
  match indexRows cmp keyfn (scannedEntries storage) key with
  | [] => None
  | rows => Some (sortByLevel rows)
  end.
Proof.
  unfold buildIndex. rewrite find_sortAll.
  generalize (scannedEntries storage) as entries. intros entries.
  assert (H : StdMap.find cmp key
                (fold_left
                   (fun index entry =>
                      match entry with
                      | None => index
                      | Some proto =>
                          if notGear proto then index
                          else push_back_at cmp (keyfn proto)
                                 (ItemLevel proto, ItemId proto) index
                      end) entries [])
              = match indexRows cmp keyfn entries key with
                | [] => None
                | rows => Some rows
                end).
  { induction entries as [|e entries IH] using rev_ind; [reflexivity|].
    rewrite fold_left_app. simpl. unfold indexRows in *.
    rewrite flat_map_app. simpl. rewrite app_nil_r.
    destruct e as [proto|]; [|rewrite app_nil_r; exact IH].
    destruct (notGear proto); [rewrite app_nil_r; exact IH|].
    rewrite find_push_back, IH.
    destruct (cmp (keyfn proto) key); [|rewrite app_nil_r; reflexivity ..].
    destruct (flat_map _ entries); reflexivity. }
  rewrite H. destruct (indexRows cmp keyfn entries key); reflexivity.
Qed.

Lemma indexRows_in entries key lvl id :
  In (lvl, id) (indexRows cmp keyfn entries key) <->
  exists proto, In (Some proto) entries /\ notGear proto = false /\
                keyfn proto = key /\ ItemLevel proto = lvl /\ ItemId proto = id.
Proof.
  unfold indexRows. rewrite in_flat_map. split.
  - intros [[proto|] [Hin Hx]]; [|destruct Hx].
    destruct (notGear proto) eqn:Eg; [destruct Hx|].
    destruct (cmp (keyfn proto) key) eqn:E; [|destruct Hx ..].
    destruct Hx as [Hx|[]].
    apply cmp_eq in E. injection Hx as <- <-. exists proto. auto.
  - intros [proto [Hin [Hg [Hk [Hl Hi]]]]]. exists (Some proto). split; auto.
    rewrite Hg. assert (E : cmp (keyfn proto) key = Eq) by now apply cmp_eq.
    rewrite E. subst. now left.
Qed.

Lemma indexRows_length entries key :
  (List.length (indexRows cmp keyfn entries key) <= List.length entries)%nat.
Proof.
  unfold indexRows. induction entries as [|e entries IH]; [simpl; lia|].
  change (e :: entries) with ([e] ++ entries).
  rewrite flat_map_app, !length_app. simpl flat_map at 1. rewrite app_nil_r.
  assert (H : (List.length
                 match e with
                 | None => []
                 | Some proto =>
                     if notGear proto then []
                     else match cmp (keyfn proto) key with
                          | Eq => [(ItemLevel proto, ItemId proto)]
                          | _ => []
                          end
                 end <= 1)%nat).
  { destruct e as [proto|]; simpl; [|lia].
    destruct (notGear proto); simpl; [lia|].
    destruct (cmp (keyfn proto) key); simpl; lia. }
  exact (Nat.add_le_mono _ _ _ _ H IH).
Qed.

(** Every pair of an index vector is a catalog item filed under its key, and
    a vector is no longer than the scan. *)
Lemma index_vec storage key vec :
  StdMap.find cmp key (buildIndex cmp keyfn storage) = Some vec ->
  (forall lvl id, In (lvl, id) vec <->
     exists proto, catalogItem storage proto /\ keyfn proto = key /\
                   ItemLevel proto = lvl /\ ItemId proto = id) /\
  (List.length vec <= List.length (scannedEntries storage))%nat.
Proof.
  rewrite index_find.
  assert (Hs : forall rows, match rows with
                            | [] => None
                            | r :: rs => Some (sortByLevel (r :: rs))
                            end = Some vec -> vec = sortByLevel rows).
  { intros [|r rows]; [discriminate|]. now intros [= <-]. }
  intros Hv. apply Hs in Hv. subst vec. split.
  - intros lvl id. rewrite sortByLevel_in, indexRows_in. unfold catalogItem.
    split; intros [proto H]; exists proto; tauto.
  - rewrite sortByLevel_length. apply indexRows_length.
Qed.
End Index.

(** ** The swap selectors *)

Lemma lowerCandidates_in vec targetProto id :
  In id (lowerCandidates vec targetProto) ->
  exists lvl, In (lvl, id) vec /\ lvl < ItemLevel targetProto /\
              id <> ItemId targetProto.
Proof.
  induction vec as [|[lvl i] vec IH]; simpl; [tauto|].
  destruct (N.leb_spec (ItemLevel targetProto) lvl); [intros []|].
  destruct (N.eqb_spec i (ItemId targetProto)).
  - intros H'. destruct (IH H') as [l [? ?]]. eauto.
  - intros [<-|H']; [eauto|]. destruct (IH H') as [l [? ?]]. eauto.
Qed.

Lemma upgradeCandidates_in vec targetIlvl maxIlvl targetId id :
  In id (upgradeCandidates vec targetIlvl maxIlvl targetId) ->
  exists lvl, In (lvl, id) vec /\ targetIlvl <= lvl <= maxIlvl /\ id <> targetId.
Proof.
  induction vec as [|[lvl i] vec IH]; simpl; [tauto|].
  destruct (N.ltb_spec lvl targetIlvl).
  { intros H'. destruct (IH H') as [l [? ?]]. eauto. }
  destruct (N.ltb_spec maxIlvl lvl); [intros []|].
  destruct (N.eqb_spec i targetId).
  - intros H'. destruct (IH H') as [l [? ?]]. eauto.
  - intros [<-|H']; [exists lvl; repeat split; auto; lia|].
    destruct (IH H') as [l [? ?]]. eauto.
Qed.

Lemma lowerCandidates_length vec targetProto :
  (List.length (lowerCandidates vec targetProto) <= List.length vec)%nat.
Proof.
  induction vec as [|[lvl i] vec IH]; simpl; auto.
  destruct (ItemLevel targetProto <=? lvl); simpl; [lia|].
  destruct (i =? ItemId targetProto); simpl; lia.
Qed.

Lemma upgradeCandidates_length vec targetIlvl maxIlvl targetId :
  (List.length (upgradeCandidates vec targetIlvl maxIlvl targetId)
   <= List.length vec)%nat.
Proof.
  induction vec as [|[lvl i] vec IH]; simpl; auto.
  destruct (lvl <? targetIlvl); simpl; [lia|].
  destruct (maxIlvl <? lvl); simpl; [lia|].
  destruct (i =? targetId); simpl; lia.
Qed.

(** The draw always lands inside the candidate list. *)
Lemma pickCandidate_in candidates g :
  candidates <> [] -> In (fst (pickCandidate candidates g)) candidates.
Proof.
  intros Hne. unfold pickCandidate.
  set (n := N.of_nat (List.length candidates)).
  assert (Hn : 0 < n) by (unfold n; destruct candidates; [congruence|simpl; lia]).
  pose proof (urand_range 0 (wrap32 (n - 1)) g (N.le_0_l _)) as Hr.
  pose proof (wrap32_le (n - 1)) as Hw.
  destruct (urand 0 (wrap32 (n - 1)) g) as [i g']. simpl in *.
  apply nth_In. unfold n in *. lia.
Qed.

(** With a candidate list that fits the 32-bit bound, the draw [i] returns
    the candidate at position [i]. *)
Lemma pickCandidate_at candidates i g :
  N.of_nat (List.length candidates) <= 4294967296 ->
  (i < List.length candidates)%nat ->
  pickCandidate candidates (N.of_nat i :: g) = (nth i candidates 0, g).
Proof.
  intros Hfit Hi. unfold pickCandidate, urand.
  rewrite wrap32_small by lia.
  replace (N.of_nat (List.length candidates) - 1 - 0 + 1)
    with (N.of_nat (List.length candidates)) by lia.
  rewrite N.mod_small by lia. simpl. now rewrite Nat2N.id.
Qed.

Lemma storage_scan_length (storage : ItemStorage) :
  (List.length (scannedEntries storage) <= List.length storage)%nat.
Proof. unfold scannedEntries. rewrite length_skipn. lia. Qed.

Lemma PickDowngradeEntry_candidates storage targetProto g :
  ItemLevel targetProto <> 0 ->
  PickDowngradeEntry storage (Some targetProto) g =
  match downgradeCandidatesOf storage targetProto with
  | [] => (0, g)
  | c :: cs => pickCandidate (c :: cs) g
  end.
Proof.
  intros Hl. unfold PickDowngradeEntry, downgradeCandidatesOf.
  destruct (N.eqb_spec (ItemLevel targetProto) 0); [congruence|].
  destruct (StdMap.find _ _ _) as [[|it vec]|]; reflexivity.
Qed.

Lemma PickUpgradeEntry_candidates storage targetProto delta g :
  PickUpgradeEntrySameClass storage (Some targetProto) delta g =
  match upgradeCandidatesOf storage targetProto delta with
  | [] => (0, g)
  | c :: cs => pickCandidate (c :: cs) g
  end.
Proof.
  unfold PickUpgradeEntrySameClass, upgradeCandidatesOf.
  destruct (StdMap.find _ _ _) as [[|it vec]|]; reflexivity.
Qed.

Lemma downgradeCandidatesOf_sound storage targetProto id :
  In id (downgradeCandidatesOf storage targetProto) ->
  exists proto, catalogItem storage proto /\ ItemId proto = id /\
                keyOf proto = keyOf targetProto /\
                ItemLevel proto < ItemLevel targetProto /\
                ItemId proto <> ItemId targetProto.
Proof.
  unfold downgradeCandidatesOf, buildByType.
  destruct (StdMap.find _ _ _) as [vec|] eqn:E; [|intros []].
  intros Hin. apply lowerCandidates_in in Hin. destruct Hin as [lvl [Hin [Hlt Hne]]].
  apply (index_vec _ _ ItemTypeKey_cmp_eq) in E. destruct E as [Hvec _].
  apply Hvec in Hin. destruct Hin as [proto [Hc [Hk [Hl Hi]]]].
  exists proto. subst. auto.
Qed.

Lemma upgradeCandidatesOf_sound storage targetProto delta id :
  In id (upgradeCandidatesOf storage targetProto delta) ->
  exists proto, catalogItem storage proto /\ ItemId proto = id /\
                Class proto = Class targetProto /\
                ItemLevel targetProto <= ItemLevel proto
                  <= ItemLevel targetProto + delta /\
                ItemId proto <> ItemId targetProto.
Proof.
  unfold upgradeCandidatesOf, buildByClass.
  destruct (StdMap.find _ _ _) as [vec|] eqn:E; [|intros []].
  intros Hin. apply upgradeCandidates_in in Hin.
  destruct Hin as [lvl [Hin [Hrange Hne]]].
  apply (index_vec _ _ N_cmp_eq) in E. destruct E as [Hvec _].
  apply Hvec in Hin. destruct Hin as [proto [Hc [Hk [Hl Hi]]]].
  exists proto. subst.
  pose proof (wrap32_le (ItemLevel targetProto + delta)).
  split; [exact Hc|]. split; [reflexivity|]. split; [exact Hk|].
  split; [lia|exact Hne].
Qed.

Lemma downgradeCandidatesOf_length storage targetProto :
  (List.length (downgradeCandidatesOf storage targetProto) <= List.length storage)%nat.
Proof.
  unfold downgradeCandidatesOf, buildByType.
  destruct (StdMap.find _ _ _) as [vec|] eqn:E; [|simpl; lia].
  apply (index_vec _ _ ItemTypeKey_cmp_eq) in E. destruct E as [_ Hlen].
  pose proof (lowerCandidates_length vec targetProto).
  pose proof (storage_scan_length storage). lia.
Qed.

Lemma upgradeCandidatesOf_length storage targetProto delta :
  (List.length (upgradeCandidatesOf storage targetProto delta)
   <= List.length storage)%nat.
Proof.
  unfold upgradeCandidatesOf, buildByClass.
  destruct (StdMap.find _ _ _) as [vec|] eqn:E; [|simpl; lia].
  apply (index_vec _ _ N_cmp_eq) in E. destruct E as [_ Hlen].
  pose proof (upgradeCandidates_length vec (ItemLevel targetProto)
                (wrap32 (ItemLevel targetProto + delta)) (ItemId targetProto)).
  pose proof (storage_scan_length storage). lia.
Qed.

(** C4 -- The downgrade selector returns none (0) when the item's tier is 0;
    any id it returns belongs to a catalog item with the same category key
    (class, subclass, equip-slot type), a strictly lower tier than the target
    and an id different from the target's; in the index
    [(10,100),(20,200),(30,300)] with target tier 20 the only candidate is 100;
    and the pick is uniform over the candidate list: the draw i returns the
    candidate at position i, one draw per position. *)
Theorem downgrade_selector storage targetProto :
  (forall g, PickDowngradeEntry storage None g = (0, g)) /\
  (ItemLevel targetProto = 0 ->
   forall g, PickDowngradeEntry storage (Some targetProto) g = (0, g)) /\
  (forall g,
     fst (PickDowngradeEntry storage (Some targetProto) g) <> 0 ->
     exists proto,
       catalogItem storage proto /\
       ItemId proto = fst (PickDowngradeEntry storage (Some targetProto) g) /\
       keyOf proto = keyOf targetProto /\
       ItemLevel proto < ItemLevel targetProto /\
       ItemId proto <> ItemId targetProto) /\
  (forall targetId c sc it, targetId <> 100 ->
     lowerCandidates [(10, 100); (20, 200); (30, 300)] (mkProto targetId c sc it 20)
     = [100]) /\
  (ItemLevel targetProto <> 0 ->
   N.of_nat (List.length storage) <= 4294967296 ->
   let candidates := downgradeCandidatesOf storage targetProto in
   (candidates = [] ->
    forall g, PickDowngradeEntry storage (Some targetProto) g = (0, g)) /\
   (candidates <> [] ->
    forall g, In (fst (PickDowngradeEntry storage (Some targetProto) g)) candidates) /\
   (forall i g, (i < List.length candidates)%nat ->
      PickDowngradeEntry storage (Some targetProto) (N.of_nat i :: g)
      = (nth i candidates 0, g))).
Proof.
  split; [reflexivity|].
  split.
  { intros Hz g. unfold PickDowngradeEntry. now rewrite Hz. }
  split.
  { intros g Hid.
    destruct (N.eq_dec (ItemLevel targetProto) 0) as [Hz|Hz].
    { exfalso. apply Hid. unfold PickDowngradeEntry. now rewrite Hz. }
    rewrite PickDowngradeEntry_candidates in * by exact Hz.
    destruct (downgradeCandidatesOf storage targetProto) as [|c cs] eqn:E;
      [now elim Hid|].
    assert (Hin : In (fst (pickCandidate (c :: cs) g))
                     (downgradeCandidatesOf storage targetProto))
      by (rewrite E; apply pickCandidate_in; discriminate).
    apply downgradeCandidatesOf_sound in Hin.
    destruct Hin as [proto Hp]. exists proto. tauto. }
  split.
  { intros targetId c sc it Hne. cbn -[N.eqb].
    destruct (N.eqb_spec 100 targetId); [congruence|reflexivity]. }
  intros Hz Hfit candidates.
  pose proof (downgradeCandidatesOf_length storage targetProto) as Hlen.
  fold candidates in Hlen.
  split; [|split].
  - intros Hnil g. rewrite PickDowngradeEntry_candidates by exact Hz.
    fold candidates. now rewrite Hnil.
  - intros Hne g. rewrite PickDowngradeEntry_candidates by exact Hz.
    fold candidates. destruct candidates as [|c cs] eqn:E; [congruence|].
    now apply pickCandidate_in.
  - intros i g Hi. rewrite PickDowngradeEntry_candidates by exact Hz.
    fold candidates. destruct candidates as [|c cs] eqn:E; [simpl in Hi; lia|].
    apply pickCandidate_at; lia.
Qed.

Lemma downgrade_selector_witness :
  downgradeCandidatesOf scenarioStorage (mkProto 200 2 7 13 20) = [100] /\
  fst (PickDowngradeEntry scenarioStorage (Some (mkProto 200 2 7 13 20)) [5; 6]) = 100 /\
  PickDowngradeEntry scenarioStorage (Some (mkProto 300 2 7 13 30)) [1; 7] = (200, [7]) /\
  PickDowngradeEntry scenarioStorage (Some (mkProto 100 2 7 13 0)) [4] = (0, [4]).
Proof.
  pose (target := mkProto 200 2 7 13 20).
  destruct (downgrade_selector scenarioStorage target) as [_ [_ [_ [_ Huni]]]].
  destruct Huni as [_ [Hin _]]; [discriminate|vm_compute; discriminate|].
  assert (Hc : downgradeCandidatesOf scenarioStorage target = [100])
    by (vm_compute; reflexivity).
  split; [exact Hc|].
  split.
  { specialize (Hin ltac:(rewrite Hc; discriminate) [5; 6]).
    rewrite Hc in Hin. destruct Hin as [Hin|[]]. symmetry. exact Hin. }
  split.
  { destruct (downgrade_selector scenarioStorage (mkProto 300 2 7 13 30))
      as [_ [_ [_ [_ Huni]]]].
    destruct Huni as [_ [_ Hat]]; [discriminate|vm_compute; discriminate|].
    apply (Hat 1%nat [7]). vm_compute. lia. }
  destruct (downgrade_selector scenarioStorage (mkProto 100 2 7 13 0))
    as [_ [Hzero _]].
  apply Hzero. reflexivity.
Defined.

(** C5 -- Any id returned by the upgrade selector belongs to a catalog item
    of the same class whose tier lies in the closed interval
    [itemDef.tier, itemDef.tier + maxTierDelta] and whose id differs from the
    original item's; with the script's delta of 5 the returned tier is never
    above itemDef.tier + 5 nor below itemDef.tier; and the pick is uniform
    over the collected candidates: the draw i returns the candidate at
    position i, one draw per position. *)
Theorem upgrade_selector storage targetProto maxIlvlDelta :
  (forall g, PickUpgradeEntrySameClass storage None maxIlvlDelta g = (0, g)) /\
  (forall g,
     fst (PickUpgradeEntrySameClass storage (Some targetProto) maxIlvlDelta g) <> 0 ->
     exists proto,
       catalogItem storage proto /\
       ItemId proto
       = fst (PickUpgradeEntrySameClass storage (Some targetProto) maxIlvlDelta g) /\
       Class proto = Class targetProto /\
       ItemLevel targetProto <= ItemLevel proto
         <= ItemLevel targetProto + maxIlvlDelta /\
       ItemId proto <> ItemId targetProto) /\
  (maxIlvlDelta = SLAMROCK_UPGRADE_MAX_ILVL_DELTA ->
   forall id, In id (upgradeCandidatesOf storage targetProto maxIlvlDelta) ->
     exists proto,
       catalogItem storage proto /\ ItemId proto = id /\
       ItemLevel targetProto <= ItemLevel proto <= ItemLevel targetProto + 5) /\
  (N.of_nat (List.length storage) <= 4294967296 ->
   let candidates := upgradeCandidatesOf storage targetProto maxIlvlDelta in
   (candidates = [] ->
    forall g, PickUpgradeEntrySameClass storage (Some targetProto) maxIlvlDelta g
              = (0, g)) /\
   (candidates <> [] ->
    forall g, In (fst (PickUpgradeEntrySameClass storage (Some targetProto)
                         maxIlvlDelta g)) candidates) /\
   (forall i g, (i < List.length candidates)%nat ->
      PickUpgradeEntrySameClass storage (Some targetProto) maxIlvlDelta
        (N.of_nat i :: g)
      = (nth i candidates 0, g))).
Proof.
  split; [reflexivity|].
  split.
  { intros g Hid. rewrite PickUpgradeEntry_candidates in *.
    destruct (upgradeCandidatesOf storage targetProto maxIlvlDelta) as [|c cs] eqn:E;
      [now elim Hid|].
    assert (Hin : In (fst (pickCandidate (c :: cs) g))
                     (upgradeCandidatesOf storage targetProto maxIlvlDelta))
      by (rewrite E; apply pickCandidate_in; discriminate).
    apply upgradeCandidatesOf_sound in Hin.
    destruct Hin as [proto Hp]. exists proto. tauto. }
  split.
  { intros -> id Hin. apply upgradeCandidatesOf_sound in Hin.
    destruct Hin as [proto [Hc [Hi [_ [Hr _]]]]]. exists proto.
    unfold SLAMROCK_UPGRADE_MAX_ILVL_DELTA in Hr. auto. }
  intros Hfit candidates.
  pose proof (upgradeCandidatesOf_length storage targetProto maxIlvlDelta) as Hlen.
  fold candidates in Hlen.
  split; [|split].
  - intros Hnil g. rewrite PickUpgradeEntry_candidates.
    fold candidates. now rewrite Hnil.
  - intros Hne g. rewrite PickUpgradeEntry_candidates.
    fold candidates. destruct candidates as [|c cs] eqn:E; [congruence|].
    now apply pickCandidate_in.
  - intros i g Hi. rewrite PickUpgradeEntry_candidates.
    fold candidates. destruct candidates as [|c cs] eqn:E; [simpl in Hi; lia|].
    apply pickCandidate_at; lia.
Qed.

Lemma upgrade_selector_witness :
  let storage :=
    storageOf [mkProto 1 2 7 13 18; mkProto 2 2 7 13 20; mkProto 3 2 8 17 25;
               mkProto 4 2 7 13 26; mkProto 5 4 1 5 22; mkProto 6 2 4 21 20] 7 in
  let target := mkProto 2 2 7 13 20 in
  upgradeCandidatesOf storage target SLAMROCK_UPGRADE_MAX_ILVL_DELTA = [6; 3] /\
  PickUpgradeEntrySameClass storage (Some target) 5 [0; 9] = (6, [9]) /\
  PickUpgradeEntrySameClass storage (Some target) 5 [1; 9] = (3, [9]) /\
  (exists proto, catalogItem storage proto /\ ItemId proto = 3 /\
                 20 <= ItemLevel proto <= 25).
Proof.
  intros storage target.
  destruct (upgrade_selector storage target 5) as [_ [_ [Hfive Huni]]].
  destruct Huni as [_ [_ Hat]]; [vm_compute; discriminate|].
  assert (Hc : upgradeCandidatesOf storage target 5 = [6; 3])
    by (vm_compute; reflexivity).
  split; [exact Hc|].
  split; [apply (Hat 0%nat [9]); rewrite Hc; simpl; lia|].
  split; [apply (Hat 1%nat [9]); rewrite Hc; simpl; lia|].
  apply (Hfive eq_refl 3). rewrite Hc. simpl. auto.
Defined.

(** ** The in-place swap *)

Section SwapFacts.
Context {Inv : Type}.
Variable svc : InventoryService Inv.

(** The runs of [TryDowngradeItemInPlace], by the calls they make. *)
Lemma TryDowngradeItemInPlace_runs player targetItem newEntry (w : World Inv) :
  let run := TryDowngradeItemInPlace svc (Some player) (Some targetItem) newEntry w in
  let bag := bagSlot targetItem in
  let slot := slot targetItem in
  exists tr,
    events (snd run) = events w ++ tr /\
    enchants (snd run) = enchants w /\ live (snd run) = live w /\
    cache (snd run) = cache w /\
    ((tr = [] /\ fst run = false /\ inv (snd run) = inv w /\ rng (snd run) = rng w /\
      (newEntry = 0 \/ precheck svc targetItem newEntry (inv w) = None))
     \/
     (exists msg, msg <> EQUIP_ERR_OK /\
        precheck svc targetItem newEntry (inv w) = Some msg /\
        fst run = false /\ inv (snd run) = inv w /\ rng (snd run) = rng w /\
        (tr = [EvCanEquipNewItem slot newEntry msg] \/
         tr = [EvCanStoreNewItem NULL_BAG NULL_SLOT newEntry msg]))
     \/
     (exists dest placed,
        IsEquipmentPos svc bag slot = true /\
        CanEquipNewItem svc (inv w) slot newEntry true = (EQUIP_ERR_OK, dest) /\
        EquipNewItem svc (DestroyItem svc (inv w) bag slot) dest newEntry
          = (placed, inv (snd run)) /\
        fst run = placed /\
        tr = [EvCanEquipNewItem slot newEntry EQUIP_ERR_OK; EvDestroyItem bag slot;
              EvEquipNewItem dest newEntry placed])
     \/
     (exists destAny msg' destSame dest prop placed,
        IsEquipmentPos svc bag slot = false /\
        CanStoreNewItem svc (inv w) NULL_BAG NULL_SLOT newEntry 1
          = (EQUIP_ERR_OK, destAny) /\
        CanStoreNewItem svc (DestroyItem svc (inv w) bag slot) bag slot newEntry 1
          = (msg', destSame) /\
        dest = (if msg' =? EQUIP_ERR_OK then destSame else destAny) /\
        StoreNewItem svc (DestroyItem svc (inv w) bag slot) dest newEntry prop
          = (placed, inv (snd run)) /\
        fst run = placed /\
        tr = [EvCanStoreNewItem NULL_BAG NULL_SLOT newEntry EQUIP_ERR_OK;
              EvDestroyItem bag slot;
              EvCanStoreNewItem bag slot newEntry msg';
              EvStoreNewItem dest newEntry placed])).
Proof.
  intros run bag slot0. subst run. unfold TryDowngradeItemInPlace, precheck.
  fold bag. fold slot0.
  destruct (N.eqb_spec newEntry 0) as [Hz|Hz].
  { exists []. simpl. rewrite app_nil_r. do 4 (split; [reflexivity|]).
    left. repeat split; auto. }
  destruct (IsEquipmentPos svc bag slot0) eqn:Eq.
  - unfold bind, canEquipNewItem, destroyItem, equipNewItem, emit, setInv, ret, bind.
    simpl.
    destruct (CanEquipNewItem svc (inv w) slot0 newEntry true) as [msg dest] eqn:Ec.
    simpl. destruct (N.eqb_spec msg EQUIP_ERR_OK) as [->|Hm]; simpl.
    + destruct (EquipNewItem svc (DestroyItem svc (inv w) bag slot0) dest newEntry)
        as [placed i'] eqn:Ee. simpl.
      eexists. split; [rewrite <- !app_assoc; simpl; reflexivity|].
      do 3 (split; [reflexivity|]).
      right. right. left. exists dest, placed. repeat split; auto.
    + eexists. split; [reflexivity|]. do 3 (split; [reflexivity|]).
      right. left. exists msg. repeat split; auto.
  - destruct (IsInventoryPos svc bag slot0) eqn:Ei.
    + unfold bind, canStoreNewItem, destroyItem, storeNewItem, withRng, emit,
        setInv, ret, bind. simpl.
      destruct (CanStoreNewItem svc (inv w) NULL_BAG NULL_SLOT newEntry 1)
        as [msg destAny] eqn:Ec.
      simpl. destruct (N.eqb_spec msg EQUIP_ERR_OK) as [->|Hm]; simpl.
      * destruct (CanStoreNewItem svc (DestroyItem svc (inv w) bag slot0) bag slot0
                    newEntry 1) as [msg' destSame] eqn:Ec'.
        simpl.
        destruct (GenerateItemRandomPropertyId svc newEntry (rng w)) as [prop g'] eqn:Eg.
        destruct (N.eqb_spec msg' EQUIP_ERR_OK) as [->|Hm']; simpl; rewrite Eg; simpl.
        -- destruct (StoreNewItem svc (DestroyItem svc (inv w) bag slot0) destSame
                       newEntry prop) as [placed i'] eqn:Es. simpl.
           eexists. split; [rewrite <- !app_assoc; simpl; reflexivity|].
           do 3 (split; [reflexivity|]).
           right. right. right.
           exists destAny, EQUIP_ERR_OK, destSame, destSame, prop, placed.
           repeat split; auto.
        -- destruct (StoreNewItem svc (DestroyItem svc (inv w) bag slot0) destAny
                       newEntry prop) as [placed i'] eqn:Es. simpl.
           eexists. split; [rewrite <- !app_assoc; simpl; reflexivity|].
           do 3 (split; [reflexivity|]).
           right. right. right.
           exists destAny, msg', destSame, destAny, prop, placed.
           repeat split; auto.
           destruct (N.eqb_spec msg' EQUIP_ERR_OK); [contradiction|reflexivity].
      * eexists. split; [reflexivity|]. do 3 (split; [reflexivity|]).
        right. left. exists msg. repeat split; auto.
    + exists []. simpl. rewrite app_nil_r. do 4 (split; [reflexivity|]).
      left. repeat split; auto.
Qed.
End SwapFacts.

Lemma toyInventory_places : placesWhatItValidates toyInventory.
Proof.
  unfold placesWhatItValidates. simpl. split; [|split].
  - reflexivity.
  - intros i bag slot0 e dest prop0.
    destruct (e <? 2000); simpl; [|discriminate].
    destruct ((bag =? NULL_BAG) && (slot0 =? NULL_SLOT)).
    + intros [= <-]. reflexivity.
    + destruct (toyOccupied i bag slot0); [discriminate|]. intros [= <-]. reflexivity.
  - intros i bag slot0 e dest prop0.
    destruct (e <? 2000); simpl; [|discriminate]. intros [= <-]. reflexivity.
Qed.

Ltac split_trace H :=
  repeat match type of H with
         | _ :: _ = ?pre ++ _ :: _ =>
             destruct pre; simpl in H; injection H as ? H; subst
         | [] = ?pre ++ _ :: _ => destruct pre; discriminate H
         end;
  try discriminate.

Section SwapTheorem.
Context {Inv : Type}.
Variable svc : InventoryService Inv.

(** A validated swap returns what the host answers to the placement, and
    leaves the inventory the host hands back. *)
Lemma TryDowngradeItemInPlace_validated player targetItem newEntry (w : World Inv) :
  newEntry <> 0 ->
  precheck svc targetItem newEntry (inv w) = Some EQUIP_ERR_OK ->
  TryDowngradeItemInPlace svc (Some player) (Some targetItem) newEntry w
  = (fst (placementAfterDestroy svc targetItem newEntry w),
     snd (TryDowngradeItemInPlace svc (Some player) (Some targetItem) newEntry w)) /\
  inv (snd (TryDowngradeItemInPlace svc (Some player) (Some targetItem) newEntry w))
  = snd (placementAfterDestroy svc targetItem newEntry w).
Proof.
  intros Hnz.
  unfold TryDowngradeItemInPlace, precheck, placementAfterDestroy.
  destruct (N.eqb_spec newEntry 0) as [Hz|_]; [contradiction|].
  destruct (IsEquipmentPos svc (bagSlot targetItem) (slot targetItem)) eqn:Eq.
  - unfold bind, canEquipNewItem, destroyItem, equipNewItem, emit, setInv, ret, bind.
    simpl.
    destruct (CanEquipNewItem svc (inv w) (slot targetItem) newEntry true)
      as [msg dest] eqn:Ec.
    simpl. intros [= ->]. simpl.
    destruct (EquipNewItem svc
                (DestroyItem svc (inv w) (bagSlot targetItem) (slot targetItem))
                dest newEntry) as [placed i'] eqn:Ee.
    simpl. split; reflexivity.
  - destruct (IsInventoryPos svc (bagSlot targetItem) (slot targetItem)) eqn:Ei;
      [|discriminate].
    unfold bind, canStoreNewItem, destroyItem, storeNewItem, withRng, emit,
      setInv, ret, bind. simpl.
    destruct (CanStoreNewItem svc (inv w) NULL_BAG NULL_SLOT newEntry 1)
      as [msg destAny] eqn:Ec.
    simpl. intros [= ->]. simpl.
    destruct (CanStoreNewItem svc
                (DestroyItem svc (inv w) (bagSlot targetItem) (slot targetItem))
                (bagSlot targetItem) (slot targetItem) newEntry 1)
      as [msg' destSame] eqn:Ec'.
    simpl.
    destruct (GenerateItemRandomPropertyId svc newEntry (rng w)) as [prop g'] eqn:Eg.
    destruct (N.eqb_spec msg' EQUIP_ERR_OK) as [->|Hm']; simpl; rewrite Eg; simpl.
    + destruct (StoreNewItem svc
                  (DestroyItem svc (inv w) (bagSlot targetItem) (slot targetItem))
                  destSame newEntry prop) as [placed i'] eqn:Es.
      simpl. split; reflexivity.
    + destruct (StoreNewItem svc
                  (DestroyItem svc (inv w) (bagSlot targetItem) (slot targetItem))
                  destAny newEntry prop) as [placed i'] eqn:Es.
      simpl. split; reflexivity.
Qed.

(** C2 (the code, with the case in which it departs from the claim) -- For
    every player, target item and replacement entry, the swap routine
    destroys the original item only after its validation call
    (CanEquipNewItem for an equipped target, CanStoreNewItem for a carried
    one) has returned success, and when the validation fails it returns
    failure with the inventory untouched.  But once the validation has
    passed, the old item is always destroyed, and the routine returns what
    the host answers to the one placement it then attempts, leaving the
    inventory the host hands back.  So a run has one of three outcomes:
    nothing destroyed and failure; old item destroyed, new item placed and
    success; or, when the host hands back no item, old item destroyed,
    nothing placed and failure: neither a full success nor an untouched
    item.  Only on a host that places whatever it has validated is the third
    outcome excluded. *)
Theorem swap_validates_before_destroying player targetItem newEntry (w : World Inv) :
  let run := TryDowngradeItemInPlace svc (Some player) (Some targetItem) newEntry w in
  let placement := placementAfterDestroy svc targetItem newEntry w in
  exists tr,
    events (snd run) = events w ++ tr /\
    (forall pre post b s,
       tr = pre ++ EvDestroyItem b s :: post ->
       b = bagSlot targetItem /\ s = slot targetItem /\
       precheck svc targetItem newEntry (inv w) = Some EQUIP_ERR_OK /\
       exists v, In v pre /\ validatedOk svc targetItem newEntry v) /\
    (forall msg,
       precheck svc targetItem newEntry (inv w) = Some msg ->
       msg <> EQUIP_ERR_OK ->
       fst run = false /\ inv (snd run) = inv w /\
       existsb isDestroyItem tr = false /\ existsb isPlacement tr = false) /\
    (newEntry <> 0 ->
     precheck svc targetItem newEntry (inv w) = Some EQUIP_ERR_OK ->
     existsb isDestroyItem tr = true /\
     fst run = fst placement /\ inv (snd run) = snd placement /\
     existsb isPlacement tr = fst placement) /\
    ((fst run = false /\ inv (snd run) = inv w /\
      existsb isDestroyItem tr = false /\ existsb isPlacement tr = false)
     \/
     (fst run = true /\ placement = (true, inv (snd run)) /\
      existsb isDestroyItem tr = true /\ existsb isPlacement tr = true)
     \/
     (fst run = false /\ placement = (false, inv (snd run)) /\
      precheck svc targetItem newEntry (inv w) = Some EQUIP_ERR_OK /\
      existsb isDestroyItem tr = true /\ existsb isPlacement tr = false)) /\
    (placesWhatItValidates svc ->
     (fst run = true /\ existsb isDestroyItem tr = true /\
      existsb isPlacement tr = true)
     \/
     (fst run = false /\ inv (snd run) = inv w /\
      existsb isDestroyItem tr = false /\ existsb isPlacement tr = false)).
Proof.
  intros run placement. subst run placement.
  pose proof (TryDowngradeItemInPlace_validated player targetItem newEntry w) as Hval.
  destruct (TryDowngradeItemInPlace_runs svc player targetItem newEntry w)
    as [tr [Hev [_ [_ [_ Hcases]]]]].
  exists tr. split; [exact Hev|].
  destruct Hcases as
    [[-> [Hr [Hi [_ Hwhy]]]]
    |[[msg [Hmsg [Hpre [Hr [Hi [_ Htr]]]]]]
    |[[dest [placed [Heq [Hc [He [Hr ->]]]]]]
    |[destAny [msg' [destSame [dest [prop0 [placed [Heq [Hc [Hc' [Hd [Hs [Hr ->]]]]]]]]]]]]]]].
  - (* nothing attempted *)
    split; [intros pre post bag slot0 H; split_trace H|].
    split; [intros msg Hp Hm; destruct Hwhy as [Hz|Hn];
            [|rewrite Hn in Hp; discriminate]; repeat split; auto|].
    split.
    { intros Hnz Hp. destruct Hwhy as [Hz|Hn]; [contradiction|congruence]. }
    split; [left; repeat split; auto|].
    intros _. right. repeat split; auto.
  - (* the pre-check failed *)
    assert (Hnd : existsb isDestroyItem tr = false /\ existsb isPlacement tr = false)
      by (destruct Htr as [-> | ->]; split; reflexivity).
    split; [intros pre post bag slot0 H; destruct Htr as [-> | ->]; split_trace H|].
    split; [intros msg0 _ _; tauto|].
    split; [intros _ Hp; congruence|].
    split; [left; tauto|].
    intros _. right. tauto.
  - (* equipped target, pre-check passed *)
    assert (Hp : precheck svc targetItem newEntry (inv w) = Some EQUIP_ERR_OK)
      by (unfold precheck; rewrite Heq, Hc; reflexivity).
    assert (Hnz : newEntry <> 0).
    { intros ->. clear - Hev. unfold TryDowngradeItemInPlace in Hev. simpl in Hev.
      apply (f_equal (@List.length Event)) in Hev.
      rewrite length_app in Hev. simpl in Hev. lia. }
    destruct (Hval Hnz Hp) as [Hrun Hinv].
    assert (Hfst : placed = fst (placementAfterDestroy svc targetItem newEntry w)).
    { rewrite <- Hr. now rewrite Hrun at 1. }
    split.
    { intros pre post bag slot0 H. split_trace H.
      repeat split; auto. eexists. split; [left; reflexivity|].
      unfold validatedOk. now rewrite Heq. }
    split; [intros msg Hp' Hm; rewrite Hp in Hp'; congruence|].
    split.
    { intros _ _. split; [reflexivity|]. split; [now rewrite Hr|].
      split; [exact Hinv|]. cbn [existsb isDestroyItem isPlacement orb].
      now rewrite orb_false_r. }
    split.
    { right. rewrite Hr.
      assert (Hpl : placementAfterDestroy svc targetItem newEntry w
                    = (placed, inv (snd (TryDowngradeItemInPlace svc (Some player)
                                           (Some targetItem) newEntry w)))).
      { rewrite Hinv, Hfst. now destruct (placementAfterDestroy _ _ _ _). }
      destruct placed; [left|right]; repeat split; auto. }
    intros [Hplace _]. left.
    specialize (Hplace (inv w) (bagSlot targetItem) _ _ _ Hc).
    rewrite He in Hplace. simpl in Hplace. rewrite Hr, Hplace. repeat split; auto.
  - (* carried target, pre-check passed *)
    assert (Hp : precheck svc targetItem newEntry (inv w) = Some EQUIP_ERR_OK).
    { unfold precheck. rewrite Heq.
      destruct (IsInventoryPos svc (bagSlot targetItem) (slot targetItem)) eqn:Ei.
      - now rewrite Hc.
      - exfalso. clear - Hev Heq Ei.
        unfold TryDowngradeItemInPlace in Hev. rewrite Heq, Ei in Hev.
        destruct (newEntry =? 0); simpl in Hev;
          apply (f_equal (@List.length Event)) in Hev;
          rewrite length_app in Hev; simpl in Hev; lia. }
    assert (Hnz : newEntry <> 0).
    { intros ->. clear - Hev. unfold TryDowngradeItemInPlace in Hev. simpl in Hev.
      apply (f_equal (@List.length Event)) in Hev.
      rewrite length_app in Hev. simpl in Hev. lia. }
    destruct (Hval Hnz Hp) as [Hrun Hinv].
    assert (Hfst : placed = fst (placementAfterDestroy svc targetItem newEntry w)).
    { rewrite <- Hr. now rewrite Hrun at 1. }
    split.
    { intros pre post bag slot0 H. split_trace H.
      repeat split; auto. eexists. split; [left; reflexivity|].
      unfold validatedOk. now rewrite Heq. }
    split; [intros msg Hp' Hm; rewrite Hp in Hp'; congruence|].
    split.
    { intros _ _. split; [reflexivity|]. split; [now rewrite Hr|].
      split; [exact Hinv|]. cbn [existsb isDestroyItem isPlacement orb].
      now rewrite orb_false_r. }
    split.
    { right. rewrite Hr.
      assert (Hpl : placementAfterDestroy svc targetItem newEntry w
                    = (placed, inv (snd (TryDowngradeItemInPlace svc (Some player)
                                           (Some targetItem) newEntry w)))).
      { rewrite Hinv, Hfst. now destruct (placementAfterDestroy _ _ _ _). }
      destruct placed; [left|right]; repeat split; auto. }
    intros [_ [Hsame Hany]]. left.
    assert (Hpl : placed = true).
    { destruct (N.eqb_spec msg' EQUIP_ERR_OK) as [->|Hm]; subst dest.
      - specialize (Hsame _ _ _ _ _ prop0 Hc'). rewrite Hs in Hsame. exact Hsame.
      - specialize (Hany (inv w) (bagSlot targetItem) (slot targetItem) _ _ prop0 Hc).
        rewrite Hs in Hany. exact Hany. }
    rewrite Hr, Hpl. repeat split; auto.
Qed.
End SwapTheorem.

Lemma swap_validates_before_destroying_witness :
  (* an equipped sword, a replacement that cannot be equipped: untouched *)
  (fst (TryDowngradeItemInPlace toyInventory (Some 7) (Some wornSword) 1500 toyWorld)
   = false /\
   inv (snd (TryDowngradeItemInPlace toyInventory (Some 7) (Some wornSword) 1500
               toyWorld)) = inv toyWorld) /\
  (* a carried sword, a replacement that is stored: old gone, new present *)
  (fst (TryDowngradeItemInPlace toyInventory (Some 7) (Some carriedSword) 1500
          toyWorld) = true /\
   inv (snd (TryDowngradeItemInPlace toyInventory (Some 7) (Some carriedSword) 1500
               toyWorld))
   = [(255, 24, 1500); (255, 15, 200)]) /\
  (* a host that validates and then hands back no item: failure, old gone *)
  (inv toyWorld = [(255, 15, 200); (255, 24, 300)] /\
   fst (TryDowngradeItemInPlace refusingInventory (Some 7) (Some wornSword) 100
          toyWorld) = false /\
   inv (snd (TryDowngradeItemInPlace refusingInventory (Some 7) (Some wornSword) 100
               toyWorld))
   = [(255, 24, 300)]) /\
  (* on the host that places what it validates the third outcome is excluded *)
  (fst (TryDowngradeItemInPlace toyInventory (Some 7) (Some wornSword) 100 toyWorld)
   = true).
Proof.
  split; [|split; [|split]].
  - destruct (swap_validates_before_destroying toyInventory 7 wornSword 1500 toyWorld)
      as [tr [_ [_ [Hfail _]]]].
    destruct (Hfail 21) as [Hr [Hi _]]; [reflexivity|discriminate|].
    split; assumption.
  - destruct (swap_validates_before_destroying toyInventory 7 carriedSword 1500
                toyWorld) as [tr [_ [_ [_ [Hok _]]]]].
    destruct Hok as [_ [Hr [Hi _]]]; [discriminate|reflexivity|].
    split; [exact Hr|exact Hi].
  - destruct (swap_validates_before_destroying refusingInventory 7 wornSword 100
                toyWorld) as [tr [_ [_ [_ [Hok _]]]]].
    destruct Hok as [_ [Hr [Hi _]]]; [discriminate|reflexivity|].
    split; [reflexivity|]. split; [exact Hr|exact Hi].
  - destruct (swap_validates_before_destroying toyInventory 7 wornSword 100 toyWorld)
      as [tr [_ [_ [_ [_ [_ Hall]]]]]].
    destruct (Hall toyInventory_places) as [[Hr _]|[_ [Hi _]]];
      [exact Hr|discriminate Hi].
Defined.

(** After a swap that has lost the item the hook goes on as if the target
    were untouched: on the host that validates and then hands back no item, a
    use whose downgrade gate opens destroys the equipped sword, is refused the
    replacement, and then rolls, writes the marker and a modifier to the
    destroyed target, consumes the Slamrock and reports the roll. *)
Lemma lost_swap_falls_through_to_modifiers :
  let run := ItemUse_item_slamrock refusingInventory scenarioEnv (Some 7) (Some 9000)
               (Some wornSword) (withRandom [50; 0; 0; 0; 0; 0; 0] toyWorld) in
  inv (snd run) = [(255, 24, 300)] /\
  enchants (snd run) = mkSlots SLAMROCK_MARKER_ENCHANT_ID 0 0 1 0 0 /\
  events (snd run)
  = [EvNotification (TargetingItem 200); EvCanEquipNewItem 15 100 EQUIP_ERR_OK;
     EvDestroyItem 255 15; EvEquipNewItem 15 100 false;
     EvApplyEnchantment PROP_ENCHANTMENT_SLOT_0 false;
     EvApplyEnchantment PROP_ENCHANTMENT_SLOT_1 false;
     EvApplyEnchantment PROP_ENCHANTMENT_SLOT_2 false;
     EvApplyEnchantment PROP_ENCHANTMENT_SLOT_3 false;
     EvUpdateDamagePhysical BASE_ATTACK; EvSetVisibleItemSlot 15;
     EvSetStateChanged; EvApplyEnchantment PROP_ENCHANTMENT_SLOT_0 true;
     EvApplyEnchantment PROP_ENCHANTMENT_SLOT_1 true;
     EvUpdateDamagePhysical BASE_ATTACK; EvSetVisibleItemSlot 15;
     EvDestroyItemCount 9000 1; EvNotification (EmpoweredWith 1 1 0 0)].
Proof.
  vm_compute. split; [reflexivity|]. split; reflexivity.
Qed.

(** ** The slot reconciler *)

Ltac run_script :=
  unfold bind, ret, emit, ClearEnchantment, SetEnchantment, GetEnchantmentId,
    ApplyEnchantment, withRng, setInv, setCache, getCache,
    SLAMROCK_ALL_PROP_SLOTS, SLAMROCK_MODIFIER_SLOTS, SLAMROCK_MARKER_SLOT;
  cbn [bind ret emit ClearEnchantment SetEnchantment GetEnchantmentId forM_
       withRng setInv setCache getCache
       SLAMROCK_ALL_PROP_SLOTS SLAMROCK_MODIFIER_SLOTS SLAMROCK_MARKER_SLOT
       fst snd inv enchants live cache rng events getSlot setSlot
       perm temp prop0 prop1 prop2 prop3 fold_left combine map app negb].

Section ReconcilerFacts.
Context {Inv : Type}.

Lemma ApplyEnchantment_eq item slot0 apply (w : World Inv) :
  ApplyEnchantment item slot0 apply w =
  (tt, mkWorld (inv w) (enchants w)
               (effectAfter item (enchants w) apply (live w) slot0)
               (cache w) (rng w) (events w ++ [EvApplyEnchantment slot0 apply])).
Proof. reflexivity. Qed.

Lemma refreshWeaponDamage_eq item (w : World Inv) :
  exists tr, refreshWeaponDamage item w =
             (tt, mkWorld (inv w) (enchants w) (live w) (cache w) (rng w)
                          (events w ++ tr)) /\
             forallb isReconcilerEvent tr = true.
Proof.
  unfold refreshWeaponDamage, emit, ret.
  destruct (slot item =? EQUIPMENT_SLOT_MAINHAND); [eexists; split; reflexivity|].
  destruct (slot item =? EQUIPMENT_SLOT_OFFHAND); [eexists; split; reflexivity|].
  destruct (slot item =? EQUIPMENT_SLOT_RANGED); [eexists; split; reflexivity|].
  exists []. rewrite app_nil_r. split; [now destruct w|reflexivity].
Qed.

Lemma bind_eq {A B} (c : M Inv A) (k : A -> M Inv B) w :
  bind c k w = k (fst (c w)) (snd (c w)).
Proof. unfold bind. now destruct (c w). Qed.

Lemma removeEffects_eq item (w : World Inv) :
  forM_ SLAMROCK_ALL_PROP_SLOTS (fun s => ApplyEnchantment item s false) w =
  (tt, mkWorld (inv w) (enchants w)
               (fold_left (effectAfter item (enchants w) false)
                          SLAMROCK_ALL_PROP_SLOTS (live w))
               (cache w) (rng w)
               (events w ++ map (fun s => EvApplyEnchantment s false)
                                SLAMROCK_ALL_PROP_SLOTS)).
Proof. cbn. rewrite <- !app_assoc. reflexivity. Qed.

(** [ClearSlamrockEnchants] as a state change. *)
Lemma ClearSlamrockEnchants_eq player item (w : World Inv) :
  exists tr,
    ClearSlamrockEnchants (Some player) (Some item) w =
    (tt, mkWorld (inv w) (clearedSlots (enchants w))
                 (if slot item <? EQUIPMENT_SLOT_END
                  then fold_left (effectAfter item (enchants w) false)
                                 SLAMROCK_ALL_PROP_SLOTS (live w)
                  else live w)
                 (cache w) (rng w) (events w ++ tr)) /\
    forallb isReconcilerEvent tr = true.
Proof.
  unfold ClearSlamrockEnchants.
  destruct (slot item <? EQUIPMENT_SLOT_END) eqn:Eslot.
  - rewrite bind_eq.
    rewrite (bind_eq (forM_ SLAMROCK_ALL_PROP_SLOTS _) (fun _ => refreshWeaponDamage item)).
    rewrite removeEffects_eq. cbn [fst snd].
    match goal with
    | |- context [refreshWeaponDamage item ?w0] =>
        destruct (refreshWeaponDamage_eq item w0) as [tr [Htr Hf]]; rewrite Htr
    end.
    unfold clearedSlots.
    destruct (perm (enchants w) =? SLAMROCK_MARKER_ENCHANT_ID) eqn:Ep;
      run_script; rewrite Ep; run_script;
      eexists; (split; [rewrite <- !app_assoc; reflexivity|]);
      rewrite ?forallb_app, Hf; reflexivity.
  - unfold clearedSlots.
    destruct (perm (enchants w) =? SLAMROCK_MARKER_ENCHANT_ID) eqn:Ep;
      run_script; rewrite Ep; run_script;
      exists []; rewrite app_nil_r; split; reflexivity.
Qed.
End ReconcilerFacts.

Section ReconcilerTheorems.
Context {Inv : Type}.

(** "Apply marker + modifiers" as a state change. *)
Lemma ApplyMarkerAndModifiers_eq item rolled (w : World Inv) :
  exists tr,
    ApplyMarkerAndModifiers item rolled w =
    (tt, mkWorld (inv w) (appliedSlots rolled (enchants w))
                 (if slot item <? EQUIPMENT_SLOT_END
                  then fold_left
                         (effectAfter item (appliedSlots rolled (enchants w)) true)
                         (SLAMROCK_MARKER_SLOT
                            :: map fst (combine SLAMROCK_MODIFIER_SLOTS rolled))
                         (live w)
                  else live w)
                 (cache w) (rng w) (events w ++ tr)) /\
    forallb isReconcilerEvent tr = true.
Proof.
  unfold ApplyMarkerAndModifiers, appliedSlots.
  destruct (slot item <? EQUIPMENT_SLOT_END) eqn:Eslot;
    destruct (perm (enchants w) =? 0) eqn:Ep;
    destruct rolled as [|a [|b [|c rest]]];
    run_script; rewrite ?Ep; run_script; rewrite ?Eslot; run_script;
    try (match goal with
         | |- context [refreshWeaponDamage item ?w0] =>
             destruct (refreshWeaponDamage_eq item w0) as [tr [Htr Hf]]; rewrite Htr
         end; run_script);
    eexists; (split; [rewrite <- ?app_assoc; reflexivity|]);
    rewrite ?forallb_app, ?Hf; reflexivity.
Qed.

(** Clear then apply, as a change of the slots. *)
Lemma clearThenApply_enchants player item rolled (w : World Inv) :
  enchants (snd (clearThenApply player item rolled w)) =
  appliedSlots rolled (clearedSlots (enchants w)).
Proof.
  unfold clearThenApply. rewrite bind_eq.
  destruct (ClearSlamrockEnchants_eq player item w) as [tr1 [H1 _]]. rewrite H1.
  cbn [fst snd].
  match goal with
  | |- context [ApplyMarkerAndModifiers item rolled ?w0] =>
      destruct (ApplyMarkerAndModifiers_eq item rolled w0) as [tr2 [H2 _]]; rewrite H2
  end.
  reflexivity.
Qed.
End ReconcilerTheorems.

(** ** Slot occupancy after clearing and applying *)

Lemma marker_nonzero : SLAMROCK_MARKER_ENCHANT_ID <> 0.
Proof. discriminate. Qed.

Lemma clearedSlots_perm e :
  perm (clearedSlots e) <> SLAMROCK_MARKER_ENCHANT_ID /\
  (perm e <> SLAMROCK_MARKER_ENCHANT_ID -> perm (clearedSlots e) = perm e) /\
  (perm e = SLAMROCK_MARKER_ENCHANT_ID -> perm (clearedSlots e) = 0).
Proof.
  unfold clearedSlots. cbn [perm].
  destruct (N.eqb_spec (perm e) SLAMROCK_MARKER_ENCHANT_ID) as [H|H].
  - split; [discriminate|]. split; [congruence|reflexivity].
  - split; [exact H|]. split; [reflexivity|congruence].
Qed.

(** The modifiers only touch the three modifier slots. *)
Lemma appliedSlots_marker rolled e :
  let e' := appliedSlots rolled e in
  temp e' = temp e /\
  (perm e = 0 -> perm e' = SLAMROCK_MARKER_ENCHANT_ID /\ prop0 e' = prop0 e) /\
  (perm e <> 0 -> perm e' = perm e /\ prop0 e' = SLAMROCK_MARKER_ENCHANT_ID).
Proof.
  unfold appliedSlots.
  destruct (N.eqb_spec (perm e) 0) as [H|H];
    destruct rolled as [|a [|b [|c rest]]];
    cbn [SLAMROCK_MODIFIER_SLOTS SLAMROCK_MARKER_SLOT combine fold_left setSlot
         fst snd perm temp prop0];
    (split; [reflexivity|]); split; intros H'; try congruence; split; reflexivity.
Qed.

Lemma cleared_applied rolled e :
  clearedSlots (appliedSlots rolled (clearedSlots e)) = clearedSlots e.
Proof.
  destruct (clearedSlots_perm e) as [Hnm _].
  destruct (appliedSlots_marker rolled (clearedSlots e)) as [Ht [Hz Hnz]].
  unfold clearedSlots at 1. rewrite Ht.
  destruct (N.eq_dec (perm (clearedSlots e)) 0) as [H0|H0].
  - destruct (Hz H0) as [Hp _]. rewrite Hp, N.eqb_refl.
    unfold clearedSlots in *. cbn [perm temp] in *. now rewrite H0.
  - destruct (Hnz H0) as [Hp _]. rewrite Hp.
    destruct (N.eqb_spec (perm (clearedSlots e)) SLAMROCK_MARKER_ENCHANT_ID);
      [contradiction|].
    unfold clearedSlots. reflexivity.
Qed.

Lemma appliedSlots_from_empty rolled e :
  (perm e = 0 \/ perm e = SLAMROCK_MARKER_ENCHANT_ID) -> temp e = 0 ->
  appliedSlots rolled (clearedSlots e) = appliedSlots rolled emptySlots.
Proof.
  intros Hp Ht. f_equal. unfold clearedSlots, emptySlots. rewrite Ht.
  destruct Hp as [-> | ->]; reflexivity.
Qed.

(** *** Live effects, slot by slot *)

Lemma slot_eqb_eq s s' : slot_eqb s s' = true <-> s = s'.
Proof. destruct s, s'; simpl; split; intros H; congruence. Qed.

Lemma getSlot_setSlot {A} s s' (a : A) x :
  getSlot (setSlot s a x) s' = if slot_eqb s s' then a else getSlot x s'.
Proof. destruct s, s'; reflexivity. Qed.

Lemma effectAfter_get item e b l s s' :
  getSlot (effectAfter item e b l s) s' =
  if slot_eqb s s' then effectValue item e b (getSlot l s) s else getSlot l s'.
Proof.
  unfold effectAfter, effectValue.
  destruct (IsEquipped item && negb (getSlot e s =? 0)).
  - apply getSlot_setSlot.
  - destruct (slot_eqb s s') eqn:E; [apply slot_eqb_eq in E; now subst|reflexivity].
Qed.

Lemma fold_effect_get item e b slots : forall l s',
  NoDup slots ->
  getSlot (fold_left (effectAfter item e b) slots l) s' =
  if existsb (fun s => slot_eqb s s') slots
  then effectValue item e b (getSlot l s') s'
  else getSlot l s'.
Proof.
  induction slots as [|s slots IH]; intros l s' Hnd; [reflexivity|].
  inversion Hnd as [|? ? Hnotin Hnd']; subst.
  cbn [fold_left existsb]. rewrite IH by exact Hnd'.
  rewrite effectAfter_get.
  destruct (slot_eqb s s') eqn:E.
  - apply slot_eqb_eq in E. subst s'. cbn [orb].
    destruct (existsb (fun s0 => slot_eqb s0 s) slots) eqn:Ex; [|reflexivity].
    exfalso. apply Hnotin. apply existsb_exists in Ex.
    destruct Ex as [x [Hin Hx]]. apply slot_eqb_eq in Hx. now subst.
  - cbn [orb]. reflexivity.
Qed.

Lemma IsEquipped_slot item :
  IsEquipped item = true -> (slot item <? EQUIPMENT_SLOT_END) = true.
Proof. unfold IsEquipped. intros H. now apply andb_true_iff in H. Qed.

Lemma effectValue_not_equipped item e b cur s :
  IsEquipped item = false -> effectValue item e b cur s = cur.
Proof. unfold effectValue. now intros ->. Qed.

Lemma modifier_slots_NoDup (rolled : list N) :
  NoDup (SLAMROCK_MARKER_SLOT :: map fst (combine SLAMROCK_MODIFIER_SLOTS rolled)).
Proof.
  destruct rolled as [|a [|b [|c rest]]]; simpl;
    repeat (constructor; [simpl; intuition discriminate|]); constructor.
Qed.

(** A modifier slot that receives no rolled id stays empty. *)
Lemma appliedSlots_unused (rolled : list N) e s :
  In s SLAMROCK_ALL_PROP_SLOTS ->
  existsb (fun s0 => slot_eqb s0 s)
          (SLAMROCK_MARKER_SLOT :: map fst (combine SLAMROCK_MODIFIER_SLOTS rolled))
  = false ->
  getSlot (appliedSlots rolled (clearedSlots e)) s = 0.
Proof.
  intros Hs Hex. unfold appliedSlots, clearedSlots.
  cbn [perm].
  destruct (if perm e =? SLAMROCK_MARKER_ENCHANT_ID then 0 else perm e) as [|p];
    cbn [N.eqb];
    destruct rolled as [|a [|b [|c rest]]];
    cbn [In SLAMROCK_ALL_PROP_SLOTS] in Hs;
    repeat (destruct Hs as [<-|Hs]; [|]); try contradiction;
    try discriminate Hex; reflexivity.
Qed.

(** Clearing removes every live effect of the property slots; applying puts
    back one effect per occupied slot. *)
Lemma clear_apply_live item rolled e l :
  liveConsistent item e l ->
  let l1 := if slot item <? EQUIPMENT_SLOT_END
            then fold_left (effectAfter item e false) SLAMROCK_ALL_PROP_SLOTS l
            else l in
  let e2 := appliedSlots rolled (clearedSlots e) in
  let l2 := if slot item <? EQUIPMENT_SLOT_END
            then fold_left (effectAfter item e2 true)
                           (SLAMROCK_MARKER_SLOT
                              :: map fst (combine SLAMROCK_MODIFIER_SLOTS rolled)) l1
            else l1 in
  liveConsistent item e2 l2 /\ perm l2 = perm l /\ temp l2 = temp l.
Proof.
  intros Hc l1 e2 l2.
  assert (Hnd4 : NoDup SLAMROCK_ALL_PROP_SLOTS)
    by (repeat (constructor; [simpl; intuition discriminate|]); constructor).
  pose proof (modifier_slots_NoDup rolled) as Hnd2.
  (* after clearing, no property slot carries an effect *)
  assert (Hl1 : forall s, In s SLAMROCK_ALL_PROP_SLOTS -> getSlot l1 s = []).
  { intros s Hs. specialize (Hc s Hs). unfold l1.
    destruct (IsEquipped item) eqn:Eq.
    - rewrite (IsEquipped_slot _ Eq), fold_effect_get by exact Hnd4.
      assert (Hex : existsb (fun s0 => slot_eqb s0 s) SLAMROCK_ALL_PROP_SLOTS = true).
      { apply existsb_exists. exists s. split; [exact Hs|now apply slot_eqb_eq]. }
      rewrite Hex, Hc. unfold effectValue. rewrite Eq. cbn [andb].
      destruct (getSlot e s =? 0); cbn [negb]; [reflexivity|].
      cbn [removeOne]. now rewrite N.eqb_refl.
    - cbn [andb] in Hc.
      destruct (slot item <? EQUIPMENT_SLOT_END); [|exact Hc].
      rewrite fold_effect_get by exact Hnd4.
      rewrite effectValue_not_equipped by exact Eq.
      now destruct (existsb _ _). }
  assert (Hother1 : forall s, ~ In s SLAMROCK_ALL_PROP_SLOTS -> getSlot l1 s = getSlot l s).
  { intros s Hs. unfold l1.
    destruct (slot item <? EQUIPMENT_SLOT_END); [|reflexivity].
    rewrite fold_effect_get by exact Hnd4.
    destruct (existsb (fun s0 => slot_eqb s0 s) SLAMROCK_ALL_PROP_SLOTS) eqn:Ex;
      [|reflexivity].
    exfalso. apply Hs. apply existsb_exists in Ex. destruct Ex as [x [Hin Hx]].
    apply slot_eqb_eq in Hx. now subst. }
  assert (Hother2 : forall s, ~ In s SLAMROCK_ALL_PROP_SLOTS -> getSlot l2 s = getSlot l1 s).
  { intros s Hs. unfold l2.
    destruct (slot item <? EQUIPMENT_SLOT_END); [|reflexivity].
    rewrite fold_effect_get by exact Hnd2.
    destruct (existsb _ _) eqn:Ex; [|reflexivity].
    exfalso. apply Hs. apply existsb_exists in Ex. destruct Ex as [x [Hin Hx]].
    apply slot_eqb_eq in Hx. subst x.
    destruct rolled as [|a [|b [|c rest]]]; simpl in Hin |- *; intuition. }
  split; [|split].
  - intros s Hs. unfold l2.
    destruct (IsEquipped item) eqn:Eq.
    + rewrite (IsEquipped_slot _ Eq), fold_effect_get by exact Hnd2.
      rewrite (Hl1 s Hs). cbn [andb].
      destruct (existsb (fun s0 => slot_eqb s0 s)
                  (SLAMROCK_MARKER_SLOT
                     :: map fst (combine SLAMROCK_MODIFIER_SLOTS rolled))) eqn:Ex.
      * unfold effectValue. rewrite Eq. reflexivity.
      * unfold e2. rewrite (appliedSlots_unused rolled e s Hs Ex). reflexivity.
    + cbn [andb]. destruct (slot item <? EQUIPMENT_SLOT_END); [|now apply Hl1].
      rewrite fold_effect_get by exact Hnd2.
      rewrite effectValue_not_equipped by exact Eq.
      rewrite (Hl1 s Hs). now destruct (existsb _ _).
  - change (getSlot l2 PERM_ENCHANTMENT_SLOT = getSlot l PERM_ENCHANTMENT_SLOT).
    rewrite Hother2, Hother1; [reflexivity| |]; simpl; intuition discriminate.
  - change (getSlot l2 TEMP_ENCHANTMENT_SLOT = getSlot l TEMP_ENCHANTMENT_SLOT).
    rewrite Hother2, Hother1; [reflexivity| |]; simpl; intuition discriminate.
Qed.

Section RoundTrip.
Context {Inv : Type}.

Lemma clearThenApply_eq player item rolled (w : World Inv) :
  exists tr,
    clearThenApply player item rolled w =
    (tt, mkWorld (inv w) (appliedSlots rolled (clearedSlots (enchants w)))
           (let l1 := if slot item <? EQUIPMENT_SLOT_END
                      then fold_left (effectAfter item (enchants w) false)
                                     SLAMROCK_ALL_PROP_SLOTS (live w)
                      else live w in
            if slot item <? EQUIPMENT_SLOT_END
            then fold_left
                   (effectAfter item
                      (appliedSlots rolled (clearedSlots (enchants w))) true)
                   (SLAMROCK_MARKER_SLOT
                      :: map fst (combine SLAMROCK_MODIFIER_SLOTS rolled)) l1
            else l1)
           (cache w) (rng w) (events w ++ tr)) /\
    forallb isReconcilerEvent tr = true.
Proof.
  unfold clearThenApply. rewrite bind_eq.
  destruct (ClearSlamrockEnchants_eq player item w) as [tr1 [H1 Hf1]]. rewrite H1.
  cbn [fst snd].
  match goal with
  | |- context [ApplyMarkerAndModifiers item rolled ?w0] =>
      destruct (ApplyMarkerAndModifiers_eq item rolled w0) as [tr2 [H2 Hf2]];
        rewrite H2
  end.
  cbn [inv enchants live cache rng events].
  exists (tr1 ++ tr2). rewrite app_assoc. split; [reflexivity|].
  now rewrite forallb_app, Hf1, Hf2.
Qed.

(** C7 (as amended) -- For every item instance and every modifier selection,
    clear followed immediately by apply yields the slot occupancy of a single
    apply on the item with its four property slots emptied and its permanent
    slot emptied only if it held the marker (a permanent enchantment of
    another system and the temporary slot are kept), hence the occupancy of a
    single apply from empty slots whenever the item carries no such foreign
    enchantment, and in the three modifier slots always; this holds for
    equipped and bagged items alike; repeating
    clear-then-apply gives the same occupancy again, and live effects that
    agreed with the property slots before agree with them after: no effect is
    applied twice and no stale slot or effect is left. *)
Theorem clear_then_apply_round_trip player item rolled (w : World Inv) :
  let after := snd (clearThenApply player item rolled w) in
  enchants after =
  enchants (snd (ApplyMarkerAndModifiers item rolled
                   (withEnchants (clearedSlots (enchants w)) w))) /\
  (perm (enchants w) = 0 \/ perm (enchants w) = SLAMROCK_MARKER_ENCHANT_ID ->
   temp (enchants w) = 0 ->
   enchants after =
   enchants (snd (ApplyMarkerAndModifiers item rolled (withEnchants emptySlots w)))) /\
  enchants (snd (clearThenApply player item rolled after)) = enchants after /\
  (forall s, In s SLAMROCK_MODIFIER_SLOTS ->
     getSlot (enchants after) s =
     getSlot (appliedSlots rolled emptySlots) s) /\
  (liveConsistent item (enchants w) (live w) ->
   liveConsistent item (enchants after) (live after) /\
   perm (live after) = perm (live w) /\ temp (live after) = temp (live w)).
Proof.
  intros after.
  assert (Ha : enchants after = appliedSlots rolled (clearedSlots (enchants w)))
    by apply clearThenApply_enchants.
  assert (Happly : forall e,
            enchants (snd (ApplyMarkerAndModifiers item rolled (withEnchants e w)))
            = appliedSlots rolled e).
  { intros e. destruct (ApplyMarkerAndModifiers_eq item rolled (withEnchants e w))
      as [tr [H _]]. rewrite H. reflexivity. }
  split; [now rewrite Ha, Happly|].
  split; [intros Hp Ht; rewrite Ha, Happly; now apply appliedSlots_from_empty|].
  split; [rewrite clearThenApply_enchants, Ha; now rewrite cleared_applied|].
  split.
  { intros s Hs. rewrite Ha. unfold appliedSlots, clearedSlots, emptySlots.
    cbn [perm].
    destruct (if perm (enchants w) =? SLAMROCK_MARKER_ENCHANT_ID
              then 0 else perm (enchants w)) as [|p];
      cbn [N.eqb];
      destruct rolled as [|a [|b [|c rest]]];
      cbn [In SLAMROCK_MODIFIER_SLOTS] in Hs;
      repeat (destruct Hs as [<-|Hs]; [|]); try contradiction; reflexivity. }
  intros Hc. subst after.
  destruct (clearThenApply_eq player item rolled w) as [tr [H _]]. rewrite H.
  cbn [snd enchants live].
  now apply clear_apply_live.
Qed.
End RoundTrip.

Lemma clear_then_apply_round_trip_witness :
  let equipped := mkWorld tt (mkSlots SLAMROCK_MARKER_ENCHANT_ID 0 0 11 12 13)
                    (mkSlots [] [] [] [11] [12] [13]) emptyCache [] [] in
  let bagged := mkWorld tt (mkSlots 0 0 0 0 0 0) noEffects emptyCache [] [] in
  (enchants (snd (clearThenApply 7 wornSword [21; 22] equipped))
   = mkSlots SLAMROCK_MARKER_ENCHANT_ID 0 0 21 22 0 /\
   enchants (snd (clearThenApply 7 wornSword [21; 22] equipped))
   = enchants (snd (ApplyMarkerAndModifiers wornSword [21; 22]
                      (withEnchants emptySlots equipped)))) /\
  liveConsistent wornSword
    (enchants (snd (clearThenApply 7 wornSword [21; 22] equipped)))
    (live (snd (clearThenApply 7 wornSword [21; 22] equipped))) /\
  enchants (snd (clearThenApply 7 carriedSword [21] bagged))
  = enchants (snd (ApplyMarkerAndModifiers carriedSword [21]
                     (withEnchants emptySlots bagged))).
Proof.
  intros equipped bagged.
  destruct (clear_then_apply_round_trip 7 wornSword [21; 22] equipped)
    as [_ [Hempty [_ [_ Hlive]]]].
  destruct (clear_then_apply_round_trip 7 carriedSword [21] bagged)
    as [_ [Hempty' _]].
  split; [split|split].
  - reflexivity.
  - apply Hempty; [right|]; reflexivity.
  - apply Hlive. intros s Hs. simpl in Hs.
    repeat (destruct Hs as [<-|Hs]; [reflexivity|]). destruct Hs.
  - apply Hempty'; [left|]; reflexivity.
Defined.

(** C7 (the claim as stated fails) -- an item that carries a permanent
    enchantment of another system (id 1900) ends, after clear and apply of the
    selection [5], with that enchantment in the permanent slot and the marker
    in property slot 0, whereas a single apply on empty slots puts the marker
    in the permanent slot and leaves property slot 0 empty. *)
Lemma round_trip_fails_with_foreign_permanent : ~ roundTripFromEmpty.
Proof.
  intros H.
  specialize (H 7 wornSword [5]
                (mkWorld tt (mkSlots 1900 0 0 0 0 0) noEffects emptyCache [] [])).
  vm_compute in H. discriminate H.
Qed.

(** ** The item-use hook *)

Section HookFacts.
Context {Inv : Type}.
Variable svc : InventoryService Inv.
Variable env : Env.

Lemma world_eta (w : World Inv) :
  mkWorld (inv w) (enchants w) (live w) (cache w) (rng w) (events w) = w.
Proof. now destruct w. Qed.

Lemma replyFailure_eq result (w : World Inv) :
  replyFailure env result w =
  (tt, mkWorld (inv w) (enchants w) (live w) (cache w) (rng w)
               (events w ++ replyEvents env result)).
Proof.
  unfold replyFailure, replyEvents.
  destruct (targetingSpell env); run_script; rewrite <- ?app_assoc; reflexivity.
Qed.

Lemma ensureWhitelistLoaded_eq (w : World Inv) :
  ensureWhitelistLoaded env w =
  (tt, mkWorld (inv w) (enchants w) (live w) (cacheAfterLoad env (cache w))
               (rng w) (events w)).
Proof.
  unfold ensureWhitelistLoaded, LoadWhitelistFromDB, cacheAfterLoad. run_script.
  destruct (negb (loaded (cache w)) && negb (attemptedLoad (cache w)));
    run_script; [reflexivity|now rewrite world_eta].
Qed.

Lemma withRng_eq {A} (f : Rng -> A * Rng) (w : World Inv) :
  withRng f w =
  (fst (f (rng w)),
   mkWorld (inv w) (enchants w) (live w) (cache w) (snd (f (rng w))) (events w)).
Proof. unfold withRng. now destruct (f (rng w)). Qed.

(** The roll only consumes randomness; it yields at most [remaining] new
    ids, each the id of a tier-eligible row of the pool. *)
Lemma rollModifiers_runs remaining pool lvl : forall rolled (w : World Inv),
  exists g' picked,
    rollModifiers remaining pool lvl rolled w =
    (rolled ++ picked,
     mkWorld (inv w) (enchants w) (live w) (cache w) g' (events w)) /\
    (List.length picked <= remaining)%nat /\
    (forall id, In id picked ->
       exists row, In row pool /\ eligible lvl row /\ enchantId row = id).
Proof.
  induction remaining as [|n IH]; intros rolled w.
  - exists (rng w), []. rewrite app_nil_r. cbn. rewrite world_eta.
    split; [reflexivity|]. split; [lia|]. intros id [].
  - cbn [rollModifiers]. rewrite bind_eq, withRng_eq. cbn [fst snd].
    destruct (PickWeightedGroupFromWhitelist pool lvl noExclusions (rng w))
      as [[groupKey|] g1] eqn:Eg; cbn [fst snd].
    + rewrite bind_eq, withRng_eq. cbn [fst snd inv enchants live cache rng events].
      pose proof (rank_picker_sound pool lvl groupKey g1) as Hrank.
      destruct (PickRandomEligibleRankEnchantForGroup pool lvl groupKey g1)
        as [[picked|] g2] eqn:Er; cbn [fst snd].
      * destruct (IH (rolled ++ [picked])
                     (mkWorld (inv w) (enchants w) (live w) (cache w) g2 (events w)))
          as [g' [more [Heq [Hlen Hin]]]].
        exists g', (picked :: more). cbn [inv enchants live cache events] in Heq.
        rewrite Heq, <- app_assoc. split; [reflexivity|].
        split; [simpl; lia|].
        intros id [<-|Hid]; [|now apply Hin].
        destruct (Hrank picked eq_refl) as [row [H1 [H2 [_ H4]]]]. eauto.
      * exists g2, []. rewrite app_nil_r. split; [reflexivity|].
        split; [simpl; lia|]. intros id [].
    + exists g1, []. rewrite app_nil_r. split; [reflexivity|].
      split; [simpl; lia|]. intros id [].
Qed.

Lemma swap_events_only player targetItem newEntry (w : World Inv) :
  exists tr,
    events (snd (TryDowngradeItemInPlace svc (Some player) (Some targetItem)
                   newEntry w)) = events w ++ tr /\
    forallb isSwapEvent tr = true.
Proof.
  destruct (TryDowngradeItemInPlace_runs svc player targetItem newEntry w)
    as [tr [Hev [_ [_ [_ Hcases]]]]].
  exists tr. split; [exact Hev|].
  destruct Hcases as
    [[-> _]
    |[[msg [_ [_ [_ [_ [_ [-> | ->]]]]]]]
    |[[dest [placed [_ [_ [_ [_ ->]]]]]]
    |[destAny [msg' [destSame [dest [prop0 [placed [_ [_ [_ [_ [_ [_ ->]]]]]]]]]]]]]]];
    reflexivity.
Qed.

(** A swap gate leaves the target's slots, the live effects and the cache
    alone, sends no failure reply, and consumes the Slamrock exactly when it
    reports the swap. *)
Lemma swapGate_runs chancePct pick player slamrock targetItem msg (w : World Inv) :
  let run := swapGate svc chancePct pick player slamrock targetItem msg w in
  exists tr,
    events (snd run) = events w ++ tr /\
    enchants (snd run) = enchants w /\ live (snd run) = live w /\
    cache (snd run) = cache w /\
    ~ In EvSendEquipError tr /\
    (forall n, In (EvNotification n) tr -> exists newEntry, n = msg newEntry) /\
    (fst run = false -> ~ consumedIn tr /\ forall n, ~ In (EvNotification n) tr) /\
    (fst run = true -> In (EvDestroyItemCount slamrock 1) tr).
Proof.
  intros run. subst run. unfold swapGate.
  rewrite bind_eq, withRng_eq. cbn [fst snd].
  destruct (urand 1 100 (rng w)) as [roll g1]. cbn [fst snd].
  assert (Hnone : forall w0 : World Inv,
            events w0 = events w -> enchants w0 = enchants w ->
            live w0 = live w -> cache w0 = cache w ->
            exists tr,
              events (snd (ret (Inv := Inv) false w0)) = events w ++ tr /\
              enchants (snd (ret (Inv := Inv) false w0)) = enchants w /\
              live (snd (ret (Inv := Inv) false w0)) = live w /\
              cache (snd (ret (Inv := Inv) false w0)) = cache w /\
              ~ In EvSendEquipError tr /\
              (forall n, In (EvNotification n) tr -> exists newEntry, n = msg newEntry) /\
              (fst (ret (Inv := Inv) false w0) = false ->
               ~ consumedIn tr /\ forall n, ~ In (EvNotification n) tr) /\
              (fst (ret (Inv := Inv) false w0) = true ->
               In (EvDestroyItemCount slamrock 1) tr)).
  { intros w0 H1 H2 H3 H4. exists []. cbn. rewrite app_nil_r.
    do 4 (split; [assumption|]).
    split; [intros []|]. split; [intros n []|].
    split; [|discriminate]. intros _. split; [intros [e [c []]]|intros n []]. }
  destruct (roll <=? chancePct); [|now apply Hnone].
  rewrite bind_eq, withRng_eq. cbn [fst snd inv enchants live cache rng events].
  destruct (pick g1) as [newEntry g2]. cbn [fst snd].
  destruct (negb (newEntry =? 0)); [|now apply Hnone].
  rewrite bind_eq.
  set (w1 := mkWorld (inv w) (enchants w) (live w) (cache w) g2 (events w)).
  destruct (TryDowngradeItemInPlace_runs svc player targetItem newEntry w1)
    as [tr0 [Hev [Hen [Hli [Hca _]]]]].
  destruct (swap_events_only player targetItem newEntry w1) as [tr1 [Hev1 Hsw]].
  rewrite Hev in Hev1. apply app_inv_head in Hev1. subst tr1.
  assert (Hnot : forall e, isSwapEvent e = false -> ~ In e tr0).
  { intros e He Hin. rewrite forallb_forall in Hsw. apply Hsw in Hin. congruence. }
  destruct (TryDowngradeItemInPlace svc (Some player) (Some targetItem) newEntry w1)
    as [swapped w2]. cbn [fst snd] in *.
  destruct swapped.
  - exists (tr0 ++ [EvDestroyItemCount slamrock 1; EvNotification (msg newEntry)]).
    unfold destroyItemCount. run_script. rewrite Hev, Hen, Hli, Hca.
    rewrite <- !app_assoc.
    split; [reflexivity|]. do 3 (split; [reflexivity|]).
    split.
    { intros Hin. apply in_app_or in Hin. destruct Hin as [Hin|Hin].
      - now apply (Hnot EvSendEquipError).
      - simpl in Hin. intuition discriminate. }
    split.
    { intros n Hin. apply in_app_or in Hin. destruct Hin as [Hin|Hin].
      - now apply (Hnot (EvNotification n)) in Hin.
      - simpl in Hin. destruct Hin as [Hin|[Hin|[]]]; [discriminate|].
        injection Hin as <-. eauto. }
    split; [discriminate|].
    intros _. apply in_or_app. right. now left.
  - exists tr0. cbn. rewrite Hev, Hen, Hli, Hca.
    do 4 (split; [reflexivity|]).
    split; [now apply (Hnot EvSendEquipError)|].
    split; [intros n Hin; now apply (Hnot (EvNotification n)) in Hin|].
    split; [|discriminate].
    intros _. split.
    + intros [e [c Hin]]. now apply (Hnot (EvDestroyItemCount e c)) in Hin.
    + intros n Hin. now apply (Hnot (EvNotification n)) in Hin.
Qed.
End HookFacts.

Section EmpowerFacts.
Context {Inv : Type}.
Variable svc : InventoryService Inv.
Variable env : Env.

Lemma eligibleGroups_nil pool lvl :
  eligibleGroups pool lvl = [] <-> forall row, In row pool -> rowSkipped lvl row = true.
Proof.
  unfold eligibleGroups.
  assert (Hgen : forall groups,
    fold_left
      (fun groups row =>
         if rowSkipped lvl row then groups
         else StdMap.assign String.compare (GetEffectiveGroupKey row) true groups)
      pool groups = [] <->
    groups = [] /\ forall row, In row pool -> rowSkipped lvl row = true).
  { induction pool as [|r pool IH]; intros groups; simpl.
    - intuition.
    - rewrite IH. destruct (rowSkipped lvl r) eqn:Es.
      + split; intros [H1 H2]; split; auto.
        intros row [<-|Hin]; auto.
      + split.
        * intros [H1 _]. now apply StdMapFacts.assign_not_nil in H1.
        * intros [_ H2]. specialize (H2 r (or_introl eq_refl)). congruence. }
  rewrite Hgen. intuition.
Qed.

(** The runs of the modifier stage: the two reports of failure, which leave
    the target and the inventory alone, or a committed application. *)
Lemma empower_runs player slamrock item (w : World Inv) :
  let run := empower svc env player slamrock item w in
  let pool := poolFor env (cache w) item in
  let lvl := itemLevelOf item in
  let c' := cacheAfterLoad env (cache w) in
  (pool = [] /\
   run = (true, mkWorld (inv w) (enchants w) (live w) c' (rng w)
                  (events w ++ EvNotification WhitelistEmptyCannotRoll
                             :: replyEvents env SPELL_FAILED_ERROR)))
  \/
  (pool <> [] /\
   exists g',
     run = (true, mkWorld (inv w) (enchants w) (live w) c' g'
                    (events w ++ EvNotification NoEligibleEnchantments
                               :: replyEvents env SPELL_FAILED_ERROR)))
  \/
  (pool <> [] /\ eligibleGroups pool lvl <> [] /\
   exists rolled g' tr,
     rolled <> [] /\ (List.length rolled <= 3)%nat /\
     (forall id, In id rolled ->
        exists row, In row pool /\ eligible lvl row /\ enchantId row = id) /\
     fst run = true /\
     snd run = mkWorld (DestroyItemCount svc (inv w) slamrock 1)
                 (enchants (snd (clearThenApply player item rolled w)))
                 (live (snd (clearThenApply player item rolled w)))
                 c' g' (events w ++ tr) /\
     ~ In EvSendEquipError tr /\
     In (EvDestroyItemCount slamrock 1) tr /\
     In (EvNotification (EmpoweredWith (N.of_nat (List.length rolled))
                           (nth 0 rolled 0) (nth 1 rolled 0) (nth 2 rolled 0))) tr /\
     (forall n, In (EvNotification n) tr ->
        n = EmpoweredWith (N.of_nat (List.length rolled))
              (nth 0 rolled 0) (nth 1 rolled 0) (nth 2 rolled 0))).
Proof.
  intros run pool lvl c'. subst run. unfold empower.
  rewrite bind_eq, ensureWhitelistLoaded_eq. cbn [fst snd].
  rewrite bind_eq. unfold getCache. cbn [fst snd cache].
  fold c'. fold (itemLevelOf item). fold lvl.
  change (if IsWeaponTarget (Some item) then weapon c' else armor c') with pool.
  clearbody pool lvl c'.
  destruct pool as [|r0 pool0] eqn:Epool.
  { left. split; [reflexivity|]. cbv iota beta.
    rewrite bind_eq. unfold emit at 1. cbn [fst snd].
    rewrite bind_eq, replyFailure_eq. cbn. rewrite <- app_assoc. reflexivity. }
  right. cbv iota beta. rewrite <- Epool.
  assert (Hne : pool <> []) by (rewrite Epool; discriminate).
  rewrite bind_eq, withRng_eq. cbn [fst snd inv enchants live cache rng events].
  assert (Hfail : forall g',
    (emit (EvNotification NoEligibleEnchantments) ;;
     replyFailure env SPELL_FAILED_ERROR ;; ret true)
      (mkWorld (inv w) (enchants w) (live w) c' g' (events w))
    = (true, mkWorld (inv w) (enchants w) (live w) c' g'
               (events w ++ EvNotification NoEligibleEnchantments
                          :: replyEvents env SPELL_FAILED_ERROR))).
  { intros g'. rewrite bind_eq. unfold emit at 1. cbn [fst snd].
    rewrite bind_eq, replyFailure_eq. cbn. rewrite <- app_assoc. reflexivity. }
  pose proof (urand_range 1 SLAMROCK_MAX_MODIFIERS (rng w) ltac:(discriminate)) as Hcount.
  destruct (urand 1 SLAMROCK_MAX_MODIFIERS (rng w)) as [modifierCount g1].
  cbn [fst snd] in *.
  destruct (eligibleGroups pool lvl) as [|grp groups] eqn:Egroups.
  { left. split; [exact Hne|]. exists g1. cbn [N.eqb]. apply Hfail. }
  destruct (N.eqb_spec modifierCount 0) as [Hz|Hz]; [lia|].
  rewrite bind_eq.
  destruct (rollModifiers_runs (N.to_nat modifierCount) pool lvl []
              (mkWorld (inv w) (enchants w) (live w) c' g1 (events w)))
    as [g2 [rolled [Hroll [Hlen Hin]]]].
  cbn [inv enchants live cache events app] in Hroll. rewrite Hroll. cbn [fst snd].
  destruct rolled as [|id0 rolled'].
  { left. split; [exact Hne|]. exists g2. apply Hfail. }
  right. split; [exact Hne|]. split; [discriminate|].
  cbv iota.
  remember (id0 :: rolled') as rolled eqn:Erolled.
  set (w2 := mkWorld (inv w) (enchants w) (live w) c' g2 (events w)).
  destruct (clearThenApply_eq player item rolled w2) as [tr [Hca Hrec]].
  destruct (clearThenApply_eq player item rolled w) as [tr' [Hca' _]].
  set (report := EvNotification
                   (EmpoweredWith (N.of_nat (List.length rolled))
                      (nth 0 rolled 0) (nth 1 rolled 0) (nth 2 rolled 0))).
  assert (Hrun :
    (clearThenApply player item rolled ;;
     destroyItemCount svc slamrock 1 ;; emit report ;; ret true) w2
    = (true,
       mkWorld (DestroyItemCount svc (inv w) slamrock 1)
         (enchants (snd (clearThenApply player item rolled w)))
         (live (snd (clearThenApply player item rolled w)))
         c' g2
         (events w ++ tr ++ [EvDestroyItemCount slamrock 1; report]))).
  { rewrite bind_eq, Hca, Hca'. unfold destroyItemCount. run_script.
    unfold w2. cbn [live enchants inv events cache rng].
    rewrite <- !app_assoc. reflexivity. }
  assert (Hassoc :
    (ClearSlamrockEnchants (Some player) (Some item) ;;
     ApplyMarkerAndModifiers item rolled ;;
     destroyItemCount svc slamrock 1 ;; emit report ;; ret true) w2
    = (clearThenApply player item rolled ;;
       destroyItemCount svc slamrock 1 ;; emit report ;; ret true) w2).
  { unfold clearThenApply. rewrite !bind_eq. reflexivity. }
  exists rolled, g2, (tr ++ [EvDestroyItemCount slamrock 1; report]).
  split; [rewrite Erolled; discriminate|].
  split; [unfold SLAMROCK_MAX_MODIFIERS in Hcount; lia|].
  split; [exact Hin|].
  rewrite Hassoc, Hrun. cbn [fst snd].
  split; [reflexivity|]. split; [reflexivity|].
  assert (Hnot : forall e, isReconcilerEvent e = false -> ~ In e tr).
  { intros e He Hi. rewrite forallb_forall in Hrec. apply Hrec in Hi. congruence. }
  split.
  { intros Hi. apply in_app_or in Hi. destruct Hi as [Hi|Hi].
    - now apply (Hnot EvSendEquipError).
    - simpl in Hi. unfold report in Hi. intuition discriminate. }
  split; [apply in_or_app; right; simpl; auto|].
  split; [apply in_or_app; right; simpl; auto|].
  intros n Hi. apply in_app_or in Hi. destruct Hi as [Hi|Hi].
  - now apply (Hnot (EvNotification n)) in Hi.
  - simpl in Hi. destruct Hi as [Hi|[Hi|[]]]; [discriminate|].
    unfold report in Hi. now injection Hi as <-.
Qed.
End EmpowerFacts.

Section HookRuns.
Context {Inv : Type}.
Variable svc : InventoryService Inv.
Variable env : Env.

Lemma emit_eq e (w : World Inv) :
  emit e w =
  (tt, mkWorld (inv w) (enchants w) (live w) (cache w) (rng w) (events w ++ [e])).
Proof. reflexivity. Qed.

Lemma forM_emit_eq pre (w : World Inv) :
  forM_ pre emit w =
  (tt, mkWorld (inv w) (enchants w) (live w) (cache w) (rng w) (events w ++ pre)).
Proof.
  revert w. induction pre as [|e pre IH]; intros w.
  - cbn. now rewrite app_nil_r, world_eta.
  - cbn [forM_]. rewrite bind_eq, IH. unfold emit.
    cbn [fst snd inv enchants live cache rng events].
    now rewrite <- app_assoc.
Qed.

(** The runs of the hook: the target is rejected; or a swap gate replaces the
    item and consumes the Slamrock; or the modifier stage runs, from a world
    whose target slots, live effects and cache are those of the start. *)
Lemma ItemUse_runs player slamrock target (w : World Inv) :
  let run := ItemUse_item_slamrock svc env (Some player) (Some slamrock) target w in
  (targetRejected player target /\
   exists more,
     run = (true, mkWorld (inv w) (enchants w) (live w) (cache w) (rng w)
                    (events w ++ EvNotification (targetNotification target) :: more
                       ++ replyEvents env SPELL_FAILED_BAD_TARGETS)) /\
     (more = [] \/ more = [EvNotification CannotEmpowerRandomProperties]))
  \/
  (exists item,
     target = Some item /\ ~ targetRejected player target /\
     ((exists tr,
         fst run = true /\
         events (snd run) = events w ++ EvNotification (TargetingItem (entry item)) :: tr /\
         enchants (snd run) = enchants w /\ live (snd run) = live w /\
         cache (snd run) = cache w /\
         ~ In EvSendEquipError tr /\ onlySwapNotifications tr /\
         In (EvDestroyItemCount slamrock 1) tr)
      \/
      (exists w0 tr0,
         events w0 = events w ++ EvNotification (TargetingItem (entry item)) :: tr0 /\
         enchants w0 = enchants w /\ live w0 = live w /\ cache w0 = cache w /\
         ~ In EvSendEquipError tr0 /\ ~ consumedIn tr0 /\
         (forall n, ~ In (EvNotification n) tr0) /\
         run = empower svc env player slamrock item w0))).
Proof.
  intros run. subst run. unfold ItemUse_item_slamrock.
  rewrite bind_eq, emit_eq. cbn [fst snd].
  assert (Hreject : forall n pre,
    (forM_ pre emit ;; replyFailure env SPELL_FAILED_BAD_TARGETS ;; ret true)
      (mkWorld (inv w) (enchants w) (live w) (cache w) (rng w)
               (events w ++ [EvNotification n]))
    = (true, mkWorld (inv w) (enchants w) (live w) (cache w) (rng w)
               (events w ++ EvNotification n :: pre
                  ++ replyEvents env SPELL_FAILED_BAD_TARGETS))).
  { intros n pre. rewrite bind_eq, forM_emit_eq. cbn [fst snd].
    rewrite bind_eq, replyFailure_eq. unfold ret.
    cbn [fst snd inv enchants live cache rng events].
    rewrite <- !app_assoc. reflexivity. }
  destruct target as [item|].
  2:{ left. split; [exact I|]. exists [].
      split; [|now left]. cbn [targetNotification].
      rewrite <- (Hreject NoItemTargetReceived []).
      cbn [forM_]. rewrite (bind_eq (ret tt)). reflexivity. }
  destruct (IsReasonableGearTarget (Some item)) eqn:Egear; cbn [negb].
  2:{ left. split; [left; exact Egear|]. exists [].
      split; [|now left]. cbn [targetNotification].
      rewrite <- (Hreject (TargetingItem (entry item)) []).
      cbn [forM_]. rewrite (bind_eq (ret tt)). reflexivity. }
  destruct (match owner item with Some guid => guid =? player | None => false end)
    eqn:Eowner; cbn [negb].
  2:{ left. split.
      { right. left. intros Ho. rewrite Ho in Eowner.
        now rewrite N.eqb_refl in Eowner. }
      exists []. split; [|now left]. cbn [targetNotification].
      rewrite <- (Hreject (TargetingItem (entry item)) []).
      cbn [forM_]. rewrite (bind_eq (ret tt)). reflexivity. }
  destruct (N.eqb_spec (randomPropertyId item) 0) as [Hrp|Hrp]; cbn [negb].
  2:{ left. split; [right; right; exact Hrp|].
      exists [EvNotification CannotEmpowerRandomProperties].
      split; [|now right]. cbn [targetNotification].
      rewrite <- (Hreject (TargetingItem (entry item))
                    [EvNotification CannotEmpowerRandomProperties]).
      cbn [forM_]. rewrite !bind_eq. reflexivity. }
  right. exists item. split; [reflexivity|].
  split.
  { intros [H|[H|H]]; [congruence| |contradiction].
    destruct (owner item) as [guid|]; [|discriminate].
    apply N.eqb_eq in Eowner. subst. now apply H. }
  rewrite bind_eq.
  set (wT := mkWorld (inv w) (enchants w) (live w) (cache w) (rng w)
               (events w ++ [EvNotification (TargetingItem (entry item))])).
  pose proof (swapGate_runs svc SLAMROCK_UPGRADE_CHANCE_PCT
                (PickUpgradeEntrySameClass (sItemStorage env) (proto item)
                   SLAMROCK_UPGRADE_MAX_ILVL_DELTA)
                player slamrock item ItemUpgradesInto wT) as Hup.
  cbv zeta in Hup.
  destruct Hup as [tr1 [Hev1 [Hen1 [Hli1 [Hca1 [Hne1 [Hn1 [Hf1 Ht1]]]]]]]].
  destruct (swapGate svc SLAMROCK_UPGRADE_CHANCE_PCT _ player slamrock item
              ItemUpgradesInto wT) as [upgraded wU].
  cbn [fst snd] in *.
  destruct upgraded.
  { left. exists tr1. unfold ret. cbn [fst snd].
    rewrite Hev1, Hen1, Hli1, Hca1. unfold wT.
    cbn [events enchants live cache]. rewrite <- app_assoc.
    split; [reflexivity|]. do 4 (split; [reflexivity|]).
    split; [exact Hne1|]. split; [|now apply Ht1].
    intros n Hin. destruct (Hn1 n Hin) as [e He]. exists e. now left. }
  destruct (Hf1 eq_refl) as [Hnc1 Hnn1].
  rewrite bind_eq.
  pose proof (swapGate_runs svc SLAMROCK_DOWNGRADE_CHANCE_PCT
                (PickDowngradeEntry (sItemStorage env) (proto item))
                player slamrock item ItemTransformsInto wU) as Hdn.
  cbv zeta in Hdn.
  destruct Hdn as [tr2 [Hev2 [Hen2 [Hli2 [Hca2 [Hne2 [Hn2 [Hf2 Ht2]]]]]]]].
  destruct (swapGate svc SLAMROCK_DOWNGRADE_CHANCE_PCT _ player slamrock item
              ItemTransformsInto wU) as [downgraded wD].
  cbn [fst snd] in *.
  assert (HevD : events wD
                 = events w ++ EvNotification (TargetingItem (entry item))
                     :: (tr1 ++ tr2)).
  { rewrite Hev2, Hev1. unfold wT. cbn [events].
    rewrite <- !app_assoc. reflexivity. }
  assert (Hne12 : ~ In EvSendEquipError (tr1 ++ tr2)).
  { intros Hin. apply in_app_or in Hin. tauto. }
  destruct downgraded.
  { left. exists (tr1 ++ tr2). unfold ret. cbn [fst snd].
    split; [reflexivity|]. split; [exact HevD|].
    split; [now rewrite Hen2, Hen1|]. split; [now rewrite Hli2, Hli1|].
    split; [now rewrite Hca2, Hca1|]. split; [exact Hne12|].
    split; [|apply in_or_app; right; now apply Ht2].
    intros n Hin. apply in_app_or in Hin. destruct Hin as [Hin|Hin].
    - now apply Hnn1 in Hin.
    - destruct (Hn2 n Hin) as [e He]. exists e. now right. }
  destruct (Hf2 eq_refl) as [Hnc2 Hnn2].
  right. exists wD, (tr1 ++ tr2).
  split; [exact HevD|].
  split; [now rewrite Hen2, Hen1|]. split; [now rewrite Hli2, Hli1|].
  split; [now rewrite Hca2, Hca1|]. split; [exact Hne12|].
  split.
  { intros [e [c Hin]]. apply in_app_or in Hin. destruct Hin as [Hin|Hin].
    - apply Hnc1. now exists e, c.
    - apply Hnc2. now exists e, c. }
  split; [|reflexivity].
  intros n Hin. apply in_app_or in Hin. destruct Hin as [Hin|Hin].
  - now apply Hnn1 in Hin.
  - now apply Hnn2 in Hin.
Qed.
End HookRuns.

Section HookOutcomes.
Context {Inv : Type}.
Variable svc : InventoryService Inv.
Variable env : Env.

Lemma replyEvents_reply result : In EvSendEquipError (replyEvents env result).
Proof. now left. Qed.

Lemma replyEvents_only result e :
  In e (replyEvents env result) ->
  e = EvSendEquipError \/ e = EvSendCastResult result.
Proof.
  unfold replyEvents. intros [<-|H]; [now left|].
  destruct (targetingSpell env); simpl in H; intuition.
Qed.

Lemma clearThenApply_same_slots player item rolled (w w0 : World Inv) :
  enchants w0 = enchants w -> live w0 = live w ->
  enchants (snd (clearThenApply player item rolled w0))
  = enchants (snd (clearThenApply player item rolled w)) /\
  live (snd (clearThenApply player item rolled w0))
  = live (snd (clearThenApply player item rolled w)).
Proof.
  intros He Hl.
  destruct (clearThenApply_eq player item rolled w0) as [t0 [H0 _]].
  destruct (clearThenApply_eq player item rolled w) as [t1 [H1 _]].
  rewrite H0, H1. cbn [snd enchants live]. rewrite He, Hl. split; reflexivity.
Qed.

(** The three outcomes of the hook. *)
Lemma ItemUse_outcomes player slamrock target (w : World Inv) :
  let run := ItemUse_item_slamrock svc env (Some player) (Some slamrock) target w in
  exists tr,
    fst run = true /\ events (snd run) = events w ++ tr /\
    ((* a failure path *)
     (In EvSendEquipError tr /\
      enchants (snd run) = enchants w /\ live (snd run) = live w /\
      ~ consumedIn tr /\
      (forall n, In (EvNotification n) tr -> reportsCommit n = false) /\
      ((targetRejected player target /\ inv (snd run) = inv w /\
        rng (snd run) = rng w /\ cache (snd run) = cache w /\
        ~ In (EvNotification WhitelistEmptyCannotRoll) tr /\
        ~ In (EvNotification NoEligibleEnchantments) tr)
       \/
       (exists item, target = Some item /\ ~ targetRejected player target /\
          ((poolFor env (cache w) item = [] /\
            In (EvNotification WhitelistEmptyCannotRoll) tr)
           \/
           (poolFor env (cache w) item <> [] /\
            In (EvNotification NoEligibleEnchantments) tr)))))
     \/
     (* a committed swap *)
     (~ In EvSendEquipError tr /\
      enchants (snd run) = enchants w /\ live (snd run) = live w /\
      In (EvDestroyItemCount slamrock 1) tr /\
      ~ targetRejected player target /\
      (forall n, In (EvNotification n) tr ->
         n = targetNotification target \/
         exists newEntry,
           n = ItemUpgradesInto newEntry \/ n = ItemTransformsInto newEntry))
     \/
     (* a committed application of modifiers *)
     (~ In EvSendEquipError tr /\
      In (EvDestroyItemCount slamrock 1) tr /\
      exists item rolled,
        target = Some item /\ ~ targetRejected player target /\
        rolled <> [] /\ (List.length rolled <= 3)%nat /\
        poolFor env (cache w) item <> [] /\
        eligibleGroups (poolFor env (cache w) item) (itemLevelOf item) <> [] /\
        (forall id, In id rolled ->
           exists row, In row (poolFor env (cache w) item) /\
                       eligible (itemLevelOf item) row /\ enchantId row = id) /\
        enchants (snd run) = enchants (snd (clearThenApply player item rolled w)) /\
        live (snd run) = live (snd (clearThenApply player item rolled w)) /\
        In (EvNotification (EmpoweredWith (N.of_nat (List.length rolled))
                              (nth 0 rolled 0) (nth 1 rolled 0) (nth 2 rolled 0))) tr /\
        (forall n, In (EvNotification n) tr ->
           n = targetNotification target \/
           n = EmpoweredWith (N.of_nat (List.length rolled))
                 (nth 0 rolled 0) (nth 1 rolled 0) (nth 2 rolled 0)))).
Proof.
  intros run.
  destruct (ItemUse_runs svc env player slamrock target w)
    as [[Hrej [more [Hrun Hmore]]]
       |[item [Ht [Hacc [[tr [Hr [Hev [Hen [Hli [Hca [Hne [Hsw Hcon]]]]]]]]
                        |[w0 [tr0 [Hev0 [Hen0 [Hli0 [Hca0 [Hne0 [Hnc0 [Hnn0 Hrun]]]]]]]]]]]]]].
  - (* rejected *)
    fold run in Hrun.
    exists (EvNotification (targetNotification target) :: more
              ++ replyEvents env SPELL_FAILED_BAD_TARGETS).
    rewrite Hrun. cbn [fst snd events enchants live inv rng cache].
    split; [reflexivity|]. split; [reflexivity|]. left.
    assert (Hin : forall e,
              In e (EvNotification (targetNotification target) :: more
                      ++ replyEvents env SPELL_FAILED_BAD_TARGETS) ->
              e = EvNotification (targetNotification target) \/
              e = EvNotification CannotEmpowerRandomProperties \/
              e = EvSendEquipError \/ e = EvSendCastResult SPELL_FAILED_BAD_TARGETS).
    { intros e [<-|Hin]; [now left|]. apply in_app_or in Hin.
      destruct Hin as [Hin|Hin].
      - destruct Hmore as [-> | ->]; simpl in Hin; intuition.
      - apply replyEvents_only in Hin. intuition. }
    assert (Htn : reportsCommit (targetNotification target) = false
                  /\ targetNotification target <> WhitelistEmptyCannotRoll
                  /\ targetNotification target <> NoEligibleEnchantments)
      by (destruct target; repeat split; discriminate).
    destruct Htn as [Htn1 [Htn2 Htn3]].
    split; [right; apply in_or_app; right; apply replyEvents_reply|].
    do 2 (split; [reflexivity|]).
    split.
    { intros [e [c Hc]]. apply Hin in Hc.
      destruct Hc as [Hc|[Hc|[Hc|Hc]]]; discriminate. }
    split.
    { intros n Hn. apply Hin in Hn.
      destruct Hn as [Hn|[Hn|[Hn|Hn]]]; try discriminate;
        injection Hn as ->; [exact Htn1|reflexivity]. }
    left. split; [exact Hrej|]. do 3 (split; [reflexivity|]).
    split; intros Hn; apply Hin in Hn;
      destruct Hn as [Hn|[Hn|[Hn|Hn]]]; try discriminate;
      injection Hn as Hn; congruence.
  - (* a gate swapped the item *)
    fold run in Hr, Hev, Hen, Hli, Hca.
    exists (EvNotification (TargetingItem (entry item)) :: tr).
    split; [exact Hr|]. split; [exact Hev|]. right. left.
    split; [intros [H|H]; [discriminate|contradiction]|].
    do 2 (split; [assumption|]).
    split; [now right|]. split; [exact Hacc|].
    intros n [Hn|Hn].
    + left. injection Hn as Hn. subst n target. reflexivity.
    + right. exact (Hsw n Hn).
  - (* the modifier stage ran *)
    fold run in Hrun.
    assert (Hpool : poolFor env (cache w0) item = poolFor env (cache w) item)
      by (unfold poolFor; now rewrite Hca0).
    assert (Hhead : forall e rest,
              In e (EvNotification (TargetingItem (entry item)) :: tr0 ++ rest) ->
              e = EvNotification (TargetingItem (entry item)) \/ In e tr0 \/ In e rest).
    { intros e rest [<-|Hin]; [now left|]. apply in_app_or in Hin. tauto. }
    destruct (empower_runs svc env player slamrock item w0)
      as [[Hnil Hemp]|[[Hne [g' Hemp]]|[Hne [Hgr [rolled [g' [trE Hemp]]]]]]];
      rewrite <- Hrun in Hemp.
    + (* the whitelist is empty *)
      exists (EvNotification (TargetingItem (entry item))
                :: tr0 ++ EvNotification WhitelistEmptyCannotRoll
                :: replyEvents env SPELL_FAILED_ERROR).
      rewrite Hemp. cbn [fst snd events enchants live inv rng cache].
      split; [reflexivity|].
      split; [rewrite Hev0, <- app_assoc; reflexivity|]. left.
      split; [right; apply in_or_app; right; right; apply replyEvents_reply|].
      split; [exact Hen0|]. split; [exact Hli0|].
      split.
      { intros [e [c Hc]]. apply Hhead in Hc. destruct Hc as [Hc|[Hc|Hc]].
        - discriminate.
        - apply Hnc0. now exists e, c.
        - destruct Hc as [Hc|Hc]; [discriminate|].
          apply replyEvents_only in Hc. destruct Hc; discriminate. }
      split.
      { intros n Hn. apply Hhead in Hn. destruct Hn as [Hn|[Hn|Hn]].
        - now injection Hn as ->.
        - now apply Hnn0 in Hn.
        - destruct Hn as [Hn|Hn]; [now injection Hn as <-|].
          apply replyEvents_only in Hn. destruct Hn; discriminate. }
      right. exists item. split; [exact Ht|]. split; [exact Hacc|].
      left. split; [now rewrite <- Hpool|].
      right. apply in_or_app. right. now left.
    + (* nothing eligible, or nothing rolled *)
      exists (EvNotification (TargetingItem (entry item))
                :: tr0 ++ EvNotification NoEligibleEnchantments
                :: replyEvents env SPELL_FAILED_ERROR).
      rewrite Hemp. cbn [fst snd events enchants live inv rng cache].
      split; [reflexivity|].
      split; [rewrite Hev0, <- app_assoc; reflexivity|]. left.
      split; [right; apply in_or_app; right; right; apply replyEvents_reply|].
      split; [exact Hen0|]. split; [exact Hli0|].
      split.
      { intros [e [c Hc]]. apply Hhead in Hc. destruct Hc as [Hc|[Hc|Hc]].
        - discriminate.
        - apply Hnc0. now exists e, c.
        - destruct Hc as [Hc|Hc]; [discriminate|].
          apply replyEvents_only in Hc. destruct Hc; discriminate. }
      split.
      { intros n Hn. apply Hhead in Hn. destruct Hn as [Hn|[Hn|Hn]].
        - now injection Hn as ->.
        - now apply Hnn0 in Hn.
        - destruct Hn as [Hn|Hn]; [now injection Hn as <-|].
          apply replyEvents_only in Hn. destruct Hn; discriminate. }
      right. exists item. split; [exact Ht|]. split; [exact Hacc|].
      right. split; [now rewrite <- Hpool|].
      right. apply in_or_app. right. now left.
    + (* modifiers were applied *)
      destruct Hemp as [Hnn [Hlen [Hrows [Hfst [Hsnd [HneE [HconE [HrepE HonlyE]]]]]]]].
      exists (EvNotification (TargetingItem (entry item)) :: tr0 ++ trE).
      split; [exact Hfst|].
      split; [rewrite Hsnd; cbn [events]; rewrite Hev0, <- app_assoc; reflexivity|].
      right. right.
      split.
      { intros Hin. apply Hhead in Hin. destruct Hin as [Hin|[Hin|Hin]];
          [discriminate|contradiction|contradiction]. }
      split; [right; apply in_or_app; now right|].
      exists item, rolled.
      destruct (clearThenApply_same_slots player item rolled w w0 Hen0 Hli0)
        as [Hsame1 Hsame2].
      split; [exact Ht|]. split; [exact Hacc|]. split; [exact Hnn|].
      split; [exact Hlen|]. split; [now rewrite <- Hpool|].
      split; [now rewrite <- Hpool|]. split; [now rewrite <- Hpool|].
      rewrite Hsnd. cbn [enchants live].
      split; [exact Hsame1|]. split; [exact Hsame2|].
      split; [right; apply in_or_app; now right|].
      intros n Hn. apply Hhead in Hn. destruct Hn as [Hn|[Hn|Hn]].
      * left. injection Hn as Hn. subst n target. reflexivity.
      * now apply Hnn0 in Hn.
      * right. now apply HonlyE.
Qed.
End HookOutcomes.

Section HookTheorems.
Context {Inv : Type}.
Variable svc : InventoryService Inv.
Variable env : Env.

(** C9 -- On every failure path of the item-use flow (target missing, of the
    wrong category, not owned, or with a random property id; empty whitelist
    pool; no tier-eligible group; nothing rolled) the hook returns with the
    target's enchantment slots and live effects as they were and the Slamrock
    not consumed.  A rejected target changes nothing but the messages sent;
    with an empty pool, or a pool without tier-eligible rows, no slot is ever
    written and, unless a swap gate has replaced the item, the hook reports
    that it cannot roll or found no eligible enchantment; and the slots
    change only when at least one enchantment was rolled. *)
Theorem failure_paths_mutate_nothing player slamrock target (w : World Inv) :
  let run := ItemUse_item_slamrock svc env (Some player) (Some slamrock) target w in
  exists tr,
    fst run = true /\ events (snd run) = events w ++ tr /\
    (In EvSendEquipError tr ->
       enchants (snd run) = enchants w /\ live (snd run) = live w /\
       ~ consumedIn tr /\
       forall n, In (EvNotification n) tr -> reportsCommit n = false) /\
    (targetRejected player target ->
       In EvSendEquipError tr /\ inv (snd run) = inv w /\
       rng (snd run) = rng w /\ cache (snd run) = cache w) /\
    (forall item, target = Some item -> ~ targetRejected player target ->
       let pool := poolFor env (cache w) item in
       (forall row, In row pool -> ~ eligible (itemLevelOf item) row) ->
       enchants (snd run) = enchants w /\ live (snd run) = live w /\
       (In (EvDestroyItemCount slamrock 1) tr
        \/
        (In EvSendEquipError tr /\
         (pool = [] -> In (EvNotification WhitelistEmptyCannotRoll) tr) /\
         (pool <> [] -> In (EvNotification NoEligibleEnchantments) tr)))) /\
    (In (EvNotification WhitelistEmptyCannotRoll) tr \/
     In (EvNotification NoEligibleEnchantments) tr ->
       In EvSendEquipError tr) /\
    (enchants (snd run) <> enchants w ->
       exists item rolled,
         target = Some item /\ rolled <> [] /\
         enchants (snd run) = enchants (snd (clearThenApply player item rolled w)) /\
         In (EvDestroyItemCount slamrock 1) tr).
Proof.
  intros run.
  destruct (ItemUse_outcomes svc env player slamrock target w)
    as [tr [Hfst [Hev Hout]]]. fold run in Hfst, Hev, Hout.
  exists tr. split; [exact Hfst|]. split; [exact Hev|].
  destruct Hout as
    [[Hrep [Hen [Hli [Hnc [Hnn Hwhy]]]]]
    |[[Hnrep [Hen [Hli [Hcon [Hacc Hnn]]]]]
    |[Hnrep [Hcon [item [rolled [Ht [Hacc [Hnz [Hlen [Hpool [Hgr [Hrows [Hen [Hli [Hrepd Hnn]]]]]]]]]]]]]]]].
  - (* failure *)
    split; [intros _; repeat split; assumption|].
    split.
    { intros Hrej. destruct Hwhy as [[_ [Hi [Hr [Hc _]]]]|[it [_ [Hacc _]]]];
        [repeat split; assumption|contradiction]. }
    split.
    { intros it Hit Hacc pool Hnone. split; [exact Hen|]. split; [exact Hli|].
      right. split; [exact Hrep|].
      destruct Hwhy as [[Hrej _]|[it' [Hit' [_ Hcase]]]]; [contradiction|].
      rewrite Hit in Hit'. injection Hit' as <-. fold pool in Hcase.
      destruct Hcase as [[Hp Hin]|[Hp Hin]]; split; intros Hq;
        try assumption; contradiction. }
    split; [intros _; exact Hrep|].
    intros Hne. contradiction.
  - (* swap *)
    split; [intros Hin; contradiction|].
    split; [intros Hrej; contradiction|].
    split.
    { intros it Hit _ pool Hnone. split; [exact Hen|]. split; [exact Hli|].
      now left. }
    split.
    { intros [Hin|Hin]; apply Hnn in Hin;
        destruct Hin as [Hin|[e [Hin|Hin]]]; try discriminate;
        destruct target; discriminate. }
    intros Hne. contradiction.
  - (* applied *)
    split; [intros Hin; contradiction|].
    split; [intros Hrej; contradiction|].
    split.
    { intros it Hit _ pool Hnone. exfalso.
      rewrite Hit in Ht. injection Ht as <-. apply Hgr.
      apply eligibleGroups_nil. intros row Hin.
      specialize (Hnone row Hin).
      destruct (rowSkipped (itemLevelOf it) row) eqn:Es; [reflexivity|].
      apply rowSkipped_false in Es. contradiction. }
    split.
    { intros [Hin|Hin]; apply Hnn in Hin; destruct Hin as [Hin|Hin];
        try discriminate; destruct target; discriminate. }
    intros _. exists item, rolled. repeat split; assumption.
Qed.
End HookTheorems.

Lemma failure_paths_mutate_nothing_witness :
  let run1 := ItemUse_item_slamrock toyInventory emptyEnv (Some 7) (Some 9000)
                None toyWorld in
  let run2 := ItemUse_item_slamrock toyInventory emptyEnv (Some 7) (Some 9000)
                (Some wornSword) (withRandom [50; 50] toyWorld) in
  (inv (snd run1) = inv toyWorld /\
   events (snd run1)
   = [EvNotification NoItemTargetReceived; EvSendEquipError;
      EvSendCastResult SPELL_FAILED_BAD_TARGETS]) /\
  (enchants (snd run2) = emptySlots /\
   events (snd run2)
   = [EvNotification (TargetingItem 200); EvNotification WhitelistEmptyCannotRoll;
      EvSendEquipError; EvSendCastResult SPELL_FAILED_ERROR]).
Proof.
  intros run1 run2. split.
  - destruct (failure_paths_mutate_nothing toyInventory emptyEnv 7 9000 None toyWorld)
      as [tr [_ [_ [_ [Hrej _]]]]].
    destruct (Hrej I) as [_ [Hinv _]].
    split; [exact Hinv|reflexivity].
  - destruct (failure_paths_mutate_nothing toyInventory emptyEnv 7 9000
                (Some wornSword) (withRandom [50; 50] toyWorld))
      as [tr [_ [_ [_ [_ [Hpool _]]]]]].
    destruct (Hpool wornSword eq_refl) as [Hen _].
    + intros [H|[H|H]]; [discriminate H|now apply H|now apply H].
    + intros row [].
    + split; [exact Hen|reflexivity].
Defined.

Section MarkerTheorem.
Context {Inv : Type}.
Variable svc : InventoryService Inv.
Variable env : Env.

Lemma markerInOneSlot_applied rolled e :
  markerInOneSlot (appliedSlots rolled (clearedSlots e)).
Proof.
  destruct (clearedSlots_perm e) as [Hnm _].
  destruct (appliedSlots_marker rolled (clearedSlots e)) as [_ [Hz Hnz]].
  destruct (N.eq_dec (perm (clearedSlots e)) 0) as [H0|H0].
  - destruct (Hz H0) as [Hp Hq]. left. split; [exact Hp|].
    rewrite Hq. discriminate.
  - destruct (Hnz H0) as [Hp Hq]. right. split; [now rewrite Hp|exact Hq].
Qed.

(** C8 -- After every successful modifier application the marker id occupies
    exactly one of the two marker slots: the permanent slot when that slot was
    free at application time (that is, after the clear), otherwise property
    slot 0, never both and never neither; and clear never removes a
    permanent-slot enchantment whose id is not the marker id. *)
Theorem marker_in_exactly_one_slot player slamrock target item rolled (w : World Inv) :
  let cleared := snd (ClearSlamrockEnchants (Some player) (Some item) w) in
  let after := snd (clearThenApply player item rolled w) in
  (perm (enchants cleared) = 0 ->
   perm (enchants after) = SLAMROCK_MARKER_ENCHANT_ID /\
   prop0 (enchants after) <> SLAMROCK_MARKER_ENCHANT_ID) /\
  (perm (enchants cleared) <> 0 ->
   prop0 (enchants after) = SLAMROCK_MARKER_ENCHANT_ID /\
   perm (enchants after) = perm (enchants cleared) /\
   perm (enchants after) <> SLAMROCK_MARKER_ENCHANT_ID) /\
  markerInOneSlot (enchants after) /\
  (perm (enchants w) <> SLAMROCK_MARKER_ENCHANT_ID ->
   perm (enchants cleared) = perm (enchants w)) /\
  (let run := ItemUse_item_slamrock svc env (Some player) (Some slamrock) target w in
   exists tr,
     events (snd run) = events w ++ tr /\
     forall count e0 e1 e2,
       In (EvNotification (EmpoweredWith count e0 e1 e2)) tr ->
       markerInOneSlot (enchants (snd run)) /\
       (perm (enchants w) = 0 \/ perm (enchants w) = SLAMROCK_MARKER_ENCHANT_ID ->
        perm (enchants (snd run)) = SLAMROCK_MARKER_ENCHANT_ID) /\
       (perm (enchants w) <> 0 /\ perm (enchants w) <> SLAMROCK_MARKER_ENCHANT_ID ->
        perm (enchants (snd run)) = perm (enchants w) /\
        prop0 (enchants (snd run)) = SLAMROCK_MARKER_ENCHANT_ID)).
Proof.
  intros cleared after.
  assert (Hc : enchants cleared = clearedSlots (enchants w)).
  { subst cleared. destruct (ClearSlamrockEnchants_eq player item w) as [t [H _]].
    now rewrite H. }
  assert (Ha : enchants after = appliedSlots rolled (clearedSlots (enchants w)))
    by apply clearThenApply_enchants.
  destruct (clearedSlots_perm (enchants w)) as [Hnm [Hkeep Hdrop]].
  destruct (appliedSlots_marker rolled (clearedSlots (enchants w))) as [_ [Hz Hnz]].
  rewrite Hc, Ha.
  split.
  { intros H0. destruct (Hz H0) as [Hp Hq]. split; [exact Hp|].
    rewrite Hq. discriminate. }
  split.
  { intros H0. destruct (Hnz H0) as [Hp Hq]. split; [exact Hq|].
    split; [exact Hp|]. now rewrite Hp. }
  split; [apply markerInOneSlot_applied|].
  split; [exact Hkeep|].
  intros run.
  destruct (ItemUse_outcomes svc env player slamrock target w)
    as [tr [_ [Hev Hout]]]. fold run in Hev, Hout.
  exists tr. split; [exact Hev|].
  intros count e0 e1 e2 Hin.
  destruct Hout as
    [[_ [_ [_ [_ [Hnn _]]]]]
    |[[_ [_ [_ [_ [_ Hnn]]]]]
    |[_ [_ [it [r [_ [_ [_ [_ [_ [_ [_ [Hen _]]]]]]]]]]]]]].
  - apply Hnn in Hin. discriminate.
  - apply Hnn in Hin. destruct Hin as [Hin|[e [Hin|Hin]]]; try discriminate.
    destruct target; discriminate.
  - rewrite Hen, clearThenApply_enchants. clear Hz Hnz.
    destruct (appliedSlots_marker r (clearedSlots (enchants w))) as [_ [Hz Hnz]].
    split; [apply markerInOneSlot_applied|].
    split.
    + intros [H0|Hm].
      * assert (H1 : perm (enchants w) <> SLAMROCK_MARKER_ENCHANT_ID)
          by (rewrite H0; discriminate).
        apply Hz. now rewrite Hkeep.
      * apply Hz. now apply Hdrop.
    + intros [H0 Hm]. rewrite <- (Hkeep Hm). apply Hnz. now rewrite Hkeep.
Qed.
End MarkerTheorem.

Lemma marker_in_exactly_one_slot_witness :
  let enchanted := mkWorld [(255, 15, 200)] (mkSlots 1900 0 0 0 0 0)
                     noEffects emptyCache [50; 50; 1; 0; 0; 3; 0] [] in
  let plain := withRandom [50; 50; 0; 15; 0] toyWorld in
  (prop0 (enchants (snd (clearThenApply 7 wornSword [2; 1] enchanted)))
   = SLAMROCK_MARKER_ENCHANT_ID /\
   perm (enchants (snd (clearThenApply 7 wornSword [2; 1] enchanted))) = 1900) /\
  markerInOneSlot
    (enchants (snd (ItemUse_item_slamrock toyInventory scenarioEnv (Some 7) (Some 9000)
                      (Some wornSword) plain))) /\
  perm (enchants (snd (ItemUse_item_slamrock toyInventory scenarioEnv (Some 7)
                         (Some 9000) (Some wornSword) plain)))
  = SLAMROCK_MARKER_ENCHANT_ID.
Proof.
  intros enchanted plain.
  destruct (marker_in_exactly_one_slot toyInventory scenarioEnv 7 9000
              (Some wornSword) wornSword [2; 1] enchanted)
    as [_ [Hocc _]].
  destruct (marker_in_exactly_one_slot toyInventory scenarioEnv 7 9000
              (Some wornSword) wornSword [2; 1] plain)
    as [_ [_ [_ [_ [tr [Hev Hhook]]]]]].
  split.
  { destruct Hocc as [Hp0 [Hp _]]; [discriminate|].
    split; [exact Hp0|]. rewrite Hp. reflexivity. }
  assert (Hin : In (EvNotification (EmpoweredWith 1 2 0 0)) tr).
  { vm_compute in Hev. subst tr. simpl. tauto. }
  destruct (Hhook _ _ _ _ Hin) as [Hone [Hperm _]].
  split; [exact Hone|]. apply Hperm. left. reflexivity.
Defined.

(** C1 (the code at the failing input) -- with the two groups A and B of the
    specification's scenario, item level 0 and a modifier count of 3, a run
    whose group draws all land on group A rolls the enchantment of group A
    three times: the sampler is always handed the never-written empty
    exclusion list, so no group is ever excluded, and the three modifier slots
    end up holding the same id. *)
Theorem roll_repeats_group :
  fst (rollModifiers 3 scenarioPool 0 [] (withRandom [0; 0; 0; 0; 0; 0] toyWorld))
  = [1; 1; 1] /\
  map (fun id => map GetEffectiveGroupKey
                     (filter (fun row => enchantId row =? id) scenarioPool))
      [1; 1; 1]
  = [["A"%string]; ["A"%string]; ["A"%string]] /\
  enchants (snd (ItemUse_item_slamrock toyInventory scenarioEnv (Some 7) (Some 9000)
                   (Some wornSword)
                   (withRandom [50; 50; 2; 0; 0; 0; 0; 0; 0] toyWorld)))
  = mkSlots SLAMROCK_MARKER_ENCHANT_ID 0 0 1 1 1.
Proof. vm_compute. repeat split; reflexivity. Qed.

(** ** The scans over the enchantment store *)

Lemma findStatEffect_iff effects statIndex statValue :
  findStatEffect effects statIndex statValue = true <->
  In (SPELL_AURA_MOD_STAT, statIndex, statValue) effects.
Proof.
  induction effects as [|[[aura misc] value] rest IH]; cbn [findStatEffect In].
  - split; [discriminate|tauto].
  - destruct (N.eqb_spec aura SPELL_AURA_MOD_STAT) as [Ha|Ha]; cbn [negb].
    + destruct (Z.eqb_spec misc statIndex) as [Hm|Hm]; cbn [negb].
      * destruct (Z.eqb_spec value statValue) as [Hv|Hv]; cbn [negb].
        -- subst. tauto.
        -- rewrite IH. split; [tauto|]. intros [H|H]; [congruence|exact H].
      * rewrite IH. split; [tauto|]. intros [H|H]; [congruence|exact H].
    + rewrite IH. split; [tauto|]. intros [H|H]; [congruence|exact H].
Qed.

Lemma findStatSlot_iff spells statType statValue slots :
  findStatSlot spells statType (ItemModToStatIndex statType) statValue slots = true <->
  exists slot, In slot slots /\ givesStat spells statType statValue slot.
Proof.
  induction slots as [|[[ty am] sp] rest IH]; cbn [findStatSlot].
  - split; [discriminate|]. intros [slot [[] _]].
  - assert (Hrest : (exists slot, In slot rest /\ givesStat spells statType statValue slot)
                    -> exists slot, In slot ((ty, am, sp) :: rest)
                                    /\ givesStat spells statType statValue slot).
    { intros [slot [Hin Hg]]. exists slot. split; [now right|exact Hg]. }
    assert (Hhere : givesStat spells statType statValue (ty, am, sp)
                    -> exists slot, In slot ((ty, am, sp) :: rest)
                                    /\ givesStat spells statType statValue slot).
    { intros Hg. exists (ty, am, sp). split; [now left|exact Hg]. }
    assert (Hsplit : (exists slot, In slot ((ty, am, sp) :: rest)
                                   /\ givesStat spells statType statValue slot)
                     -> givesStat spells statType statValue (ty, am, sp)
                        \/ findStatSlot spells statType (ItemModToStatIndex statType)
                                        statValue rest = true).
    { intros [slot [[<-|Hin] Hg]]; [now left|]. right. apply IH. now exists slot. }
    destruct (N.eqb_spec ty ITEM_ENCHANTMENT_TYPE_STAT) as [Hty|Hty].
    + destruct (N.eqb_spec sp statType) as [Hsp|Hsp];
        [destruct (Z.eqb_spec (int32 am) statValue) as [Hv|Hv]|]; cbn [andb].
      * split; [intros _|reflexivity]. apply Hhere. left. auto.
      * split; [intros H; apply Hrest, IH, H|].
        intros H. destruct (Hsplit H) as [[[_ [_ Hv']]|[Hty' _]]|Hr];
          [contradiction|subst ty; discriminate|exact Hr].
      * split; [intros H; apply Hrest, IH, H|].
        intros H. destruct (Hsplit H) as [[[_ [Hsp' _]]|[Hty' _]]|Hr];
          [contradiction|subst ty; discriminate|exact Hr].
    + destruct (N.eqb_spec ty ITEM_ENCHANTMENT_TYPE_EQUIP_SPELL) as [Hte|Hte];
        [destruct (Z.leb_spec 0 (ItemModToStatIndex statType)) as [Hix|Hix]|];
        cbn [andb].
      * destruct (N.eqb_spec sp 0) as [Hsp|Hsp].
        { split; [intros H; apply Hrest, IH, H|].
          intros H. destruct (Hsplit H) as [[[Hty' _]|[_ [Hsp' _]]]|Hr];
            [contradiction|contradiction|exact Hr]. }
        destruct (LookupSpell spells sp) as [spellInfo|] eqn:Hlook.
        { destruct (findStatEffect (spellEffects spellInfo)
                      (ItemModToStatIndex statType) statValue) eqn:Heff.
          - split; [intros _|reflexivity]. apply Hhere. right.
            repeat split; auto. exists spellInfo. split; [exact Hlook|].
            now apply findStatEffect_iff.
          - split; [intros H; apply Hrest, IH, H|].
            intros H. destruct (Hsplit H) as [[[Hty' _]|[_ [_ [_ [si [Hl Hi]]]]]]|Hr];
              [contradiction| |exact Hr].
            rewrite Hlook in Hl. injection Hl as <-.
            apply findStatEffect_iff in Hi. congruence. }
        split; [intros H; apply Hrest, IH, H|].
        intros H. destruct (Hsplit H) as [[[Hty' _]|[_ [_ [_ [si [Hl _]]]]]]|Hr];
          [contradiction|congruence|exact Hr].
      * split; [intros H; apply Hrest, IH, H|].
        intros H. destruct (Hsplit H) as [[[Hty' _]|[_ [_ [Hix' _]]]]|Hr];
          [contradiction|lia|exact Hr].
      * split; [intros H; apply Hrest, IH, H|].
        intros H. destruct (Hsplit H) as [[[Hty' _]|[Hte' _]]|Hr];
          [contradiction|contradiction|exact Hr].
Qed.

Lemma findStatEntry_first spells statType statValue pre ench post :
  (forall e, In (Some e) pre -> ~ enchantGivesStat spells statType statValue e) ->
  enchantGivesStat spells statType statValue ench ->
  findStatEntry spells statType (ItemModToStatIndex statType) statValue
                (pre ++ Some ench :: post) = ID ench.
Proof.
  intros Hpre Hench. induction pre as [|[e|] pre IH]; cbn [app findStatEntry].
  - apply findStatSlot_iff in Hench. now rewrite Hench.
  - destruct (findStatSlot spells statType (ItemModToStatIndex statType) statValue
                (enchantSlots e)) eqn:He.
    + apply findStatSlot_iff in He. elim (Hpre e); [now left|exact He].
    + apply IH. intros e' Hin. apply Hpre. now right.
  - apply IH. intros e' Hin. apply Hpre. now right.
Qed.

Lemma findStatEntry_none spells statType statValue store :
  (forall e, In (Some e) store -> ~ enchantGivesStat spells statType statValue e) ->
  findStatEntry spells statType (ItemModToStatIndex statType) statValue store = 0.
Proof.
  intros Hnone. induction store as [|[e|] store IH]; cbn [findStatEntry].
  - reflexivity.
  - destruct (findStatSlot spells statType (ItemModToStatIndex statType) statValue
                (enchantSlots e)) eqn:He.
    + apply findStatSlot_iff in He. elim (Hnone e); [now left|exact He].
    + apply IH. intros e' Hin. apply Hnone. now right.
  - apply IH. intros e' Hin. apply Hnone. now right.
Qed.

(** The store splits at the first enchantment that gives the stat. *)
Lemma findStatEntry_split spells statType statValue store :
  (forall e, In (Some e) store -> ~ enchantGivesStat spells statType statValue e) \/
  (exists pre ench post,
     store = pre ++ Some ench :: post /\
     (forall e, In (Some e) pre -> ~ enchantGivesStat spells statType statValue e) /\
     enchantGivesStat spells statType statValue ench).
Proof.
  induction store as [|[e|] store IH].
  - left. intros e [].
  - destruct (findStatSlot spells statType (ItemModToStatIndex statType) statValue
                (enchantSlots e)) eqn:He.
    + right. exists [], e, store. split; [reflexivity|].
      split; [intros e' []|]. now apply findStatSlot_iff.
    + assert (Hno : ~ enchantGivesStat spells statType statValue e).
      { intros H. apply findStatSlot_iff in H. congruence. }
      destruct IH as [IH|[pre [ench [post [-> [Hpre Hench]]]]]].
      * left. intros e' [Heq|Hin]; [injection Heq as <-; exact Hno|now apply IH].
      * right. exists (Some e :: pre), ench, post. split; [reflexivity|].
        split; [|exact Hench].
        intros e' [Heq|Hin]; [injection Heq as <-; exact Hno|now apply Hpre].
  - destruct IH as [IH|[pre [ench [post [-> [Hpre Hench]]]]]].
    + left. intros e' [Heq|Hin]; [discriminate|now apply IH].
    + right. exists (None :: pre), ench, post. split; [reflexivity|].
      split; [|exact Hench].
      intros e' [Heq|Hin]; [discriminate|now apply Hpre].
Qed.

(** X1 -- [FindStatEnchantmentId] returns 0 for a stat value that is not
    positive; for a positive one it returns the id of the first store entry
    one of whose three slots gives the stat with exactly that value (directly,
    or through an equip spell with a matching stat aura), and 0 when no entry
    has such a slot; so a result other than 0 is always the id of a stored
    enchantment that gives the stat. *)
Theorem find_stat_enchantment_first_match store spells statType statValue :
  ((statValue <= 0)%Z -> FindStatEnchantmentId store spells statType statValue = 0) /\
  ((0 < statValue)%Z ->
   (forall pre ench post,
      store = pre ++ Some ench :: post ->
      (forall e, In (Some e) pre -> ~ enchantGivesStat spells statType statValue e) ->
      enchantGivesStat spells statType statValue ench ->
      FindStatEnchantmentId store spells statType statValue = ID ench) /\
   ((forall e, In (Some e) store -> ~ enchantGivesStat spells statType statValue e) ->
    FindStatEnchantmentId store spells statType statValue = 0)) /\
  (FindStatEnchantmentId store spells statType statValue <> 0 ->
   (0 < statValue)%Z /\
   exists ench,
     In (Some ench) store /\
     ID ench = FindStatEnchantmentId store spells statType statValue /\
     enchantGivesStat spells statType statValue ench).
Proof.
  unfold FindStatEnchantmentId.
  destruct (Z.leb_spec statValue 0) as [Hle|Hlt].
  - split; [reflexivity|]. split; [lia|]. intros H. now elim H.
  - split; [lia|]. split.
    + intros _. split.
      * intros pre ench post -> Hpre Hench. now apply findStatEntry_first.
      * apply findStatEntry_none.
    + intros Hnz. split; [exact Hlt|].
      destruct (findStatEntry_split spells statType statValue store)
        as [Hnone|[pre [ench [post [-> [Hpre Hench]]]]]].
      * elim Hnz. now apply findStatEntry_none.
      * exists ench. split; [apply in_or_app; right; now left|].
        split; [|exact Hench]. symmetry. now apply findStatEntry_first.
Qed.

Lemma find_stat_enchantment_first_match_witness :
  FindStatEnchantmentId toyEnchantments toySpells ITEM_MOD_STRENGTH 0 = 0 /\
  FindStatEnchantmentId toyEnchantments toySpells ITEM_MOD_STRENGTH 3 = 1 /\
  FindStatEnchantmentId (skipn 2 toyEnchantments) toySpells ITEM_MOD_STRENGTH 3 = 2 /\
  FindStatEnchantmentId toyEnchantments toySpells ITEM_MOD_AGILITY 3 = 0.
Proof.
  split.
  { destruct (find_stat_enchantment_first_match toyEnchantments toySpells
                ITEM_MOD_STRENGTH 0) as [H _]. apply H. lia. }
  split.
  { destruct (find_stat_enchantment_first_match toyEnchantments toySpells
                ITEM_MOD_STRENGTH 3) as [_ [H _]].
    destruct (H ltac:(lia)) as [Hfirst _].
    apply (Hfirst [None]
             (mkEnchantment 1 (mkArray3 5 0 0) (mkArray3 3 0 0) (mkArray3 4 0 0))
             (skipn 2 toyEnchantments)); [reflexivity| |].
    - intros e [Heq|[]]. discriminate Heq.
    - exists (5, 3, 4). split; [now left|]. left. repeat split. }
  split.
  { destruct (find_stat_enchantment_first_match (skipn 2 toyEnchantments) toySpells
                ITEM_MOD_STRENGTH 3) as [_ [_ H]].
    destruct H as [_ [ench [Hin [Hid _]]]]; [vm_compute; discriminate|].
    reflexivity. }
  destruct (find_stat_enchantment_first_match toyEnchantments toySpells
              ITEM_MOD_AGILITY 3) as [_ [H _]].
  destruct (H ltac:(lia)) as [_ Hnone]. apply Hnone.
  intros e Hin [slot [Hslot Hg]].
  simpl in Hin.
  destruct Hin as [Hin|[Hin|[Hin|[Hin|[Hin|[Hin|[]]]]]]]; try discriminate Hin;
    injection Hin as <-; simpl in Hslot;
    destruct Hslot as [<-|[<-|[<-|[]]]];
    destruct Hg as [[Ht [Hs _]]|[Ht [Hs [_ [si [Hl Hi]]]]]];
    try discriminate Ht; try discriminate Hs; try (now elim Hs).
  vm_compute in Hl. injection Hl as <-. simpl in Hi.
  destruct Hi as [Hi|[Hi|[Hi|[]]]]; discriminate Hi.
Defined.

(** ** [CollectStatEnchantCandidates] *)

Lemma fold_left_push {A B} (f : list A -> B -> list A) :
  (forall out x, f out x = out ++ f [] x) ->
  forall l out, fold_left f l out = out ++ flat_map (f []) l.
Proof.
  intros Hf. induction l as [|x l IH]; intros out; cbn [fold_left flat_map].
  - now rewrite app_nil_r.
  - rewrite IH, (Hf out x), <- app_assoc. reflexivity.
Qed.

Lemma collectStatEffect_app effects statIndex lo hi id out :
  collectStatEffect effects statIndex lo hi id out =
  out ++ collectStatEffect effects statIndex lo hi id [].
Proof.
  induction effects as [|[[aura misc] value] rest IH]; cbn [collectStatEffect].
  - now rewrite app_nil_r.
  - destruct (negb (aura =? SPELL_AURA_MOD_STAT)); [exact IH|].
    destruct (negb (misc =? statIndex)%Z); [exact IH|].
    destruct ((lo <=? value)%Z && (value <=? hi)%Z);
      [reflexivity|now rewrite app_nil_r].
Qed.

Lemma collectStatSlot_app spells statType statIndex lo hi id out slot :
  collectStatSlot spells statType statIndex lo hi id out slot =
  out ++ collectStatSlot spells statType statIndex lo hi id [] slot.
Proof.
  destruct slot as [[ty am] sp]. unfold collectStatSlot.
  destruct ((ty =? ITEM_ENCHANTMENT_TYPE_STAT) && (sp =? statType)).
  { destruct ((lo <=? int32 am)%Z && (int32 am <=? hi)%Z);
      [reflexivity|now rewrite app_nil_r]. }
  destruct ((ty =? ITEM_ENCHANTMENT_TYPE_EQUIP_SPELL) && (0 <=? statIndex)%Z);
    [|now rewrite app_nil_r].
  destruct (sp =? 0); [now rewrite app_nil_r|].
  destruct (LookupSpell spells sp); [|now rewrite app_nil_r].
  apply collectStatEffect_app.
Qed.

Lemma collectStatEffect_in effects statIndex lo hi id c :
  In c (collectStatEffect effects statIndex lo hi id []) ->
  candidateEnchantId c = id /\
  (lo <= candidateStatValue c <= hi)%Z /\
  In (SPELL_AURA_MOD_STAT, statIndex, candidateStatValue c) effects.
Proof.
  induction effects as [|[[aura misc] value] rest IH]; cbn [collectStatEffect].
  - intros [].
  - destruct (N.eqb_spec aura SPELL_AURA_MOD_STAT) as [Ha|Ha]; cbn [negb].
    + destruct (Z.eqb_spec misc statIndex) as [Hm|Hm]; cbn [negb].
      * destruct (Z.leb_spec lo value); destruct (Z.leb_spec value hi);
          cbn [andb app In]; try tauto.
        intros [<-|[]]. cbn. subst. split; [reflexivity|]. split; [lia|now left].
      * intros H. destruct (IH H) as [H1 [H2 H3]].
        split; [exact H1|]. split; [exact H2|now right].
    + intros H. destruct (IH H) as [H1 [H2 H3]].
        split; [exact H1|]. split; [exact H2|now right].
Qed.

Lemma collectStatSlot_in spells statType lo hi id slot c :
  In c (collectStatSlot spells statType (ItemModToStatIndex statType) lo hi id [] slot) ->
  candidateEnchantId c = id /\
  (lo <= candidateStatValue c <= hi)%Z /\
  givesStat spells statType (candidateStatValue c) slot.
Proof.
  destruct slot as [[ty am] sp]. unfold collectStatSlot.
  destruct (N.eqb_spec ty ITEM_ENCHANTMENT_TYPE_STAT) as [Hty|Hty];
    [destruct (N.eqb_spec sp statType) as [Hsp|Hsp]|]; cbn [andb].
  - destruct (Z.leb_spec lo (int32 am)); destruct (Z.leb_spec (int32 am) hi);
      cbn [andb app In]; try tauto.
    intros [<-|[]]. cbn. split; [reflexivity|]. split; [lia|]. left. auto.
  - destruct (N.eqb_spec ty ITEM_ENCHANTMENT_TYPE_EQUIP_SPELL) as [Hte|Hte];
      [subst ty; discriminate|]. cbn [andb]. intros [].
  - destruct (N.eqb_spec ty ITEM_ENCHANTMENT_TYPE_EQUIP_SPELL) as [Hte|Hte];
      [|intros []].
    destruct (Z.leb_spec 0 (ItemModToStatIndex statType)) as [Hix|Hix];
      cbn [andb]; [|intros []].
    destruct (N.eqb_spec sp 0) as [Hsp|Hsp]; [intros []|].
    destruct (LookupSpell spells sp) as [spellInfo|] eqn:Hlook; [|intros []].
    intros H. apply collectStatEffect_in in H. destruct H as [H1 [H2 H3]].
    split; [exact H1|]. split; [exact H2|]. right.
    repeat split; auto. now exists spellInfo.
Qed.

Lemma CollectStatEnchantCandidates_eq store spells statType lo hi out :
  CollectStatEnchantCandidates store spells statType lo hi out =
  out ++
  if (hi <? lo)%Z then []
  else flat_map
         (fun row =>
            match row with
            | None => []
            | Some ench =>
                flat_map (collectStatSlot spells statType (ItemModToStatIndex statType)
                                          lo hi (ID ench) [])
                         (enchantSlots ench)
            end) store.
Proof.
  unfold CollectStatEnchantCandidates.
  destruct (hi <? lo)%Z; [now rewrite app_nil_r|].
  rewrite fold_left_push.
  - f_equal. apply flat_map_ext. intros [ench|]; [|reflexivity].
    rewrite fold_left_push; [reflexivity|]. intros. apply collectStatSlot_app.
  - intros out' [ench|]; [|now rewrite app_nil_r].
    rewrite !fold_left_push by (intros; apply collectStatSlot_app). reflexivity.
Qed.

Lemma CollectStatEnchantCandidates_in store spells statType lo hi c :
  In c (CollectStatEnchantCandidates store spells statType lo hi []) ->
  (lo <= candidateStatValue c <= hi)%Z /\
  exists ench,
    In (Some ench) store /\ ID ench = candidateEnchantId c /\
    enchantGivesStat spells statType (candidateStatValue c) ench.
Proof.
  rewrite CollectStatEnchantCandidates_eq. cbn [app].
  destruct (hi <? lo)%Z; [intros []|].
  intros H. apply in_flat_map in H. destruct H as [[ench|] [Hrow H]]; [|destruct H].
  apply in_flat_map in H. destruct H as [slot [Hslot H]].
  apply collectStatSlot_in in H. destruct H as [H1 [H2 H3]].
  split; [exact H2|]. exists ench. split; [exact Hrow|]. split; [now symmetry|].
  now exists slot.
Qed.

(** X2 -- [CollectStatEnchantCandidates] only appends to the vector handed in;
    it appends nothing when the range is empty; and every appended candidate
    carries a value inside the closed range and the id of a stored
    enchantment that gives the stat with that value. *)
Theorem collect_stat_candidates_in_range store spells statType minValue maxValue out :
  let result :=
    CollectStatEnchantCandidates store spells statType minValue maxValue out in
  let added :=
    CollectStatEnchantCandidates store spells statType minValue maxValue [] in
  result = out ++ added /\
  ((maxValue < minValue)%Z -> result = out) /\
  (forall c, In c added ->
     (minValue <= candidateStatValue c <= maxValue)%Z /\
     exists ench,
       In (Some ench) store /\ ID ench = candidateEnchantId c /\
       enchantGivesStat spells statType (candidateStatValue c) ench).
Proof.
  intros result added. subst result added.
  split.
  { rewrite (CollectStatEnchantCandidates_eq _ _ _ _ _ out),
            (CollectStatEnchantCandidates_eq _ _ _ _ _ []). reflexivity. }
  split.
  { intros Hlt. unfold CollectStatEnchantCandidates.
    destruct (Z.ltb_spec maxValue minValue); [reflexivity|lia]. }
  apply CollectStatEnchantCandidates_in.
Qed.

Lemma collect_stat_candidates_in_range_witness :
  CollectStatEnchantCandidates toyEnchantments toySpells ITEM_MOD_STRENGTH 5 1
    [mkCandidate 77 9] = [mkCandidate 77 9] /\
  CollectStatEnchantCandidates toyEnchantments toySpells ITEM_MOD_STRENGTH 1 5
    [mkCandidate 77 9] = [mkCandidate 77 9; mkCandidate 1 3; mkCandidate 2 3] /\
  (1 <= 3 <= 5)%Z.
Proof.
  destruct (collect_stat_candidates_in_range toyEnchantments toySpells
              ITEM_MOD_STRENGTH 5 1 [mkCandidate 77 9]) as [_ [Hempty _]].
  destruct (collect_stat_candidates_in_range toyEnchantments toySpells
              ITEM_MOD_STRENGTH 1 5 [mkCandidate 77 9]) as [Happ [_ Hin]].
  split; [apply Hempty; lia|]. split; [rewrite Happ; reflexivity|].
  apply (Hin (mkCandidate 1 3)). vm_compute. tauto.
Defined.

(** X3 -- Whatever [CollectStatEnchantCandidates] collects for the one-value
    range [v, v] with v positive, [FindStatEnchantmentId] finds for v: once
    the collection is not empty, the lookup returns the id of a stored
    enchantment that gives the stat (a non-zero id when the store holds no
    entry with id 0). *)
Theorem collected_value_is_found store spells statType statValue :
  (0 < statValue)%Z ->
  CollectStatEnchantCandidates store spells statType statValue statValue [] <> [] ->
  (exists ench,
     In (Some ench) store /\
     FindStatEnchantmentId store spells statType statValue = ID ench /\
     enchantGivesStat spells statType statValue ench) /\
  ((forall e, In (Some e) store -> ID e <> 0) ->
   FindStatEnchantmentId store spells statType statValue <> 0).
Proof.
  intros Hpos Hne.
  assert (Hex : exists ench,
             In (Some ench) store /\
             FindStatEnchantmentId store spells statType statValue = ID ench /\
             enchantGivesStat spells statType statValue ench).
  { destruct (CollectStatEnchantCandidates store spells statType statValue statValue [])
      as [|c cs] eqn:Hc; [now elim Hne|].
    assert (Hin : In c (CollectStatEnchantCandidates store spells statType
                          statValue statValue [])) by (rewrite Hc; now left).
    apply CollectStatEnchantCandidates_in in Hin.
    destruct Hin as [Hrange [e0 [He0 [_ Hg0]]]].
    replace (candidateStatValue c) with statValue in Hg0 by lia.
    unfold FindStatEnchantmentId.
    destruct (Z.leb_spec statValue 0); [lia|].
    destruct (findStatEntry_split spells statType statValue store)
      as [Hnone|[pre [ench [post [-> [Hpre Hench]]]]]].
    - elim (Hnone e0 He0 Hg0).
    - exists ench. split; [apply in_or_app; right; now left|].
      split; [now apply findStatEntry_first|exact Hench]. }
  split; [exact Hex|].
  intros Hids. destruct Hex as [ench [Hin [-> _]]]. now apply Hids.
Qed.

Lemma collected_value_is_found_witness :
  FindStatEnchantmentId toyEnchantments toySpells ITEM_MOD_STRENGTH 3 <> 0.
Proof.
  apply (collected_value_is_found toyEnchantments toySpells ITEM_MOD_STRENGTH 3).
  - lia.
  - vm_compute. discriminate.
  - intros e Hin. simpl in Hin.
    destruct Hin as [Hin|[Hin|[Hin|[Hin|[Hin|[Hin|[]]]]]]]; try discriminate Hin;
      injection Hin as <-; discriminate.
Defined.

(** ** [EnchantHasUsableEffectForTarget] and the candidate lists *)

Lemma usableSlot_weapon spells slots :
  usableSlot spells false slots = true -> usableSlot spells true slots = true.
Proof.
  induction slots as [|[[ty am] arg] rest IH]; cbn [usableSlot]; [discriminate|].
  destruct (ty =? ITEM_ENCHANTMENT_TYPE_NONE); [exact IH|].
  destruct ((ty =? ITEM_ENCHANTMENT_TYPE_STAT)
            || (ty =? ITEM_ENCHANTMENT_TYPE_RESISTANCE)); [reflexivity|].
  destruct ((ty =? ITEM_ENCHANTMENT_TYPE_DAMAGE)
            || (ty =? ITEM_ENCHANTMENT_TYPE_TOTEM)); [reflexivity|].
  destruct ((ty =? ITEM_ENCHANTMENT_TYPE_EQUIP_SPELL)
            || (ty =? ITEM_ENCHANTMENT_TYPE_COMBAT_SPELL)); [|exact IH].
  destruct (negb (arg =? 0)
            && match LookupSpell spells arg with Some _ => true | None => false end);
    [reflexivity|exact IH].
Qed.

Lemma buildEnchantCandidates_from spells store : forall weaponEnchants armorEnchants,
  fold_left
    (fun lists row =>
       match row with
       | None => lists
       | Some ench =>
           if ID ench =? SLAMROCK_MARKER_ENCHANT_ID then lists
           else
             (if EnchantHasUsableEffectForTarget spells (Some ench) true
              then fst lists ++ [ID ench] else fst lists,
              if EnchantHasUsableEffectForTarget spells (Some ench) false
              then snd lists ++ [ID ench] else snd lists)
       end)
    store (weaponEnchants, armorEnchants)
  = (weaponEnchants ++ flat_map (candidateOf spells true) store,
     armorEnchants ++ flat_map (candidateOf spells false) store).
Proof.
  induction store as [|[ench|] store IH]; intros we ae; cbn [fold_left flat_map].
  - now rewrite !app_nil_r.
  - unfold candidateOf at 1 3.
    destruct (ID ench =? SLAMROCK_MARKER_ENCHANT_ID); [apply IH|].
    rewrite IH. cbn [fst snd].
    destruct (EnchantHasUsableEffectForTarget spells (Some ench) true);
      destruct (EnchantHasUsableEffectForTarget spells (Some ench) false);
      rewrite <- ?app_assoc; reflexivity.
  - apply IH.
Qed.

Lemma buildEnchantCandidates_eq store spells :
  buildEnchantCandidates store spells =
  (flat_map (candidateOf spells true) store,
   flat_map (candidateOf spells false) store).
Proof. unfold buildEnchantCandidates. now rewrite buildEnchantCandidates_from. Qed.

Lemma candidateOf_in spells isWeaponTarget store id :
  In id (flat_map (candidateOf spells isWeaponTarget) store) <->
  exists ench,
    In (Some ench) store /\ ID ench = id /\ id <> SLAMROCK_MARKER_ENCHANT_ID /\
    EnchantHasUsableEffectForTarget spells (Some ench) isWeaponTarget = true.
Proof.
  rewrite in_flat_map. split.
  - intros [[ench|] [Hrow Hin]]; [|destruct Hin]. unfold candidateOf in Hin.
    destruct (N.eqb_spec (ID ench) SLAMROCK_MARKER_ENCHANT_ID) as [Hm|Hm];
      [destruct Hin|].
    destruct (EnchantHasUsableEffectForTarget spells (Some ench) isWeaponTarget)
      eqn:Hu; [|destruct Hin].
    destruct Hin as [<-|[]]. exists ench. auto.
  - intros [ench [Hrow [<- [Hm Hu]]]]. exists (Some ench). split; [exact Hrow|].
    unfold candidateOf.
    destruct (N.eqb_spec (ID ench) SLAMROCK_MARKER_ENCHANT_ID) as [Hm'|_];
      [contradiction|].
    rewrite Hu. now left.
Qed.

(** X4 -- An enchantment usable on armor is usable on a weapon, so the armor
    list of [GetAllEnchantCandidatesForTarget] is included in the weapon list;
    each list holds, in store order, exactly the ids of the stored
    enchantments usable for its kind of target, the marker id left out; a
    missing target is served the armor list. *)
Theorem armor_candidates_among_weapon_candidates store spells :
  let weaponEnchants := fst (buildEnchantCandidates store spells) in
  let armorEnchants := snd (buildEnchantCandidates store spells) in
  (forall ench,
     EnchantHasUsableEffectForTarget spells ench false = true ->
     EnchantHasUsableEffectForTarget spells ench true = true) /\
  (forall isWeaponTarget id,
     In id (if isWeaponTarget : bool then weaponEnchants else armorEnchants) <->
     exists ench,
       In (Some ench) store /\ ID ench = id /\ id <> SLAMROCK_MARKER_ENCHANT_ID /\
       EnchantHasUsableEffectForTarget spells (Some ench) isWeaponTarget = true) /\
  incl armorEnchants weaponEnchants /\
  weaponEnchants = flat_map (candidateOf spells true) store /\
  armorEnchants = flat_map (candidateOf spells false) store /\
  ~ In SLAMROCK_MARKER_ENCHANT_ID weaponEnchants /\
  GetAllEnchantCandidatesForTarget store spells None = armorEnchants.
Proof.
  intros weaponEnchants armorEnchants. subst weaponEnchants armorEnchants.
  unfold GetAllEnchantCandidatesForTarget.
  rewrite buildEnchantCandidates_eq. cbn [fst snd IsWeaponTarget].
  assert (Hmono : forall ench,
            EnchantHasUsableEffectForTarget spells ench false = true ->
            EnchantHasUsableEffectForTarget spells ench true = true).
  { intros [ench|]; [apply usableSlot_weapon|discriminate]. }
  split; [exact Hmono|].
  split; [intros [|] id; apply candidateOf_in|].
  split.
  { intros id Hin. apply candidateOf_in in Hin. apply candidateOf_in.
    destruct Hin as [ench [H1 [H2 [H3 H4]]]]. exists ench. auto. }
  split; [reflexivity|]. split; [reflexivity|]. split; [|reflexivity].
  intros Hin. apply candidateOf_in in Hin.
  destruct Hin as [ench [_ [_ [Hm _]]]]. now apply Hm.
Qed.

Lemma armor_candidates_among_weapon_candidates_witness :
  buildEnchantCandidates toyEnchantments toySpells = ([1; 2; 3], [1; 2]) /\
  In 2 (fst (buildEnchantCandidates toyEnchantments toySpells)).
Proof.
  split; [reflexivity|].
  destruct (armor_candidates_among_weapon_candidates toyEnchantments toySpells)
    as [_ [Hin _]].
  apply (Hin true 2).
  exists (mkEnchantment 2 (mkArray3 3 0 0) noSlot (mkArray3 1 0 0)).
  split; [simpl; tauto|]. split; [reflexivity|]. split; [discriminate|reflexivity].
Defined.

(** ** The effective group key *)

Lemma to_uint_nonnil n : N.to_uint n <> Decimal.Nil.
Proof.
  destruct n as [|p]; [discriminate|]. apply DecimalPos.Unsigned.to_uint_nonnil.
Qed.

Lemma to_string_inj a b : to_string a = to_string b -> a = b.
Proof.
  unfold to_string. intros H.
  apply (f_equal NilZero.uint_of_string) in H.
  rewrite !NilZero.usu in H by apply to_uint_nonnil.
  injection H as H. now apply DecimalN.Unsigned.to_uint_inj.
Qed.

Lemma to_string_not_empty n : empty (to_string n) = false.
Proof.
  unfold to_string, NilZero.string_of_uint.
  destruct (N.to_uint n); reflexivity.
Qed.

(** X5 -- The effective group key of a row is never the empty string: a row
    with a group key keeps it, a row with a blank key forms the group named
    by the decimal digits of its enchantment id.  Hence two blank-key rows
    share a group exactly when they carry the same enchantment id, and a
    blank-key row joins the group of any row whose key spells out its id. *)
Theorem blank_key_rows_group_by_id (r1 r2 : SlamrockWhitelistRow) :
  empty (GetEffectiveGroupKey r1) = false /\
  (empty (groupKey r1) = false -> GetEffectiveGroupKey r1 = groupKey r1) /\
  (empty (groupKey r1) = true -> empty (groupKey r2) = true ->
   (GetEffectiveGroupKey r1 = GetEffectiveGroupKey r2 <-> enchantId r1 = enchantId r2)) /\
  (empty (groupKey r1) = true -> groupKey r2 = to_string (enchantId r1) ->
   GetEffectiveGroupKey r1 = GetEffectiveGroupKey r2).
Proof.
  unfold GetEffectiveGroupKey.
  split.
  { destruct (empty (groupKey r1)) eqn:He; cbn [negb];
      [apply to_string_not_empty|exact He]. }
  split; [now intros ->|].
  split.
  { intros -> ->. cbn [negb]. split; [apply to_string_inj|now intros ->]. }
  intros -> ->. rewrite to_string_not_empty. reflexivity.
Qed.

Lemma blank_key_rows_group_by_id_witness :
  GetEffectiveGroupKey (mkRow 41 "" 1 0 5) <> GetEffectiveGroupKey (mkRow 42 "" 1 0 5) /\
  GetEffectiveGroupKey (mkRow 41 "" 1 0 5) = GetEffectiveGroupKey (mkRow 9 "41" 2 0 5).
Proof.
  destruct (blank_key_rows_group_by_id (mkRow 41 "" 1 0 5) (mkRow 42 "" 1 0 5))
    as [_ [_ [Hiff _]]].
  destruct (blank_key_rows_group_by_id (mkRow 41 "" 1 0 5) (mkRow 9 "41" 2 0 5))
    as [_ [_ [_ Hjoin]]].
  split.
  - intros H. apply (Hiff eq_refl eq_refl) in H. discriminate H.
  - apply Hjoin; reflexivity.
Defined.

(** ** The sampler and the order of the pool *)

Lemma lmax_ge ws w : In w ws -> w <= lmax ws.
Proof.
  induction ws as [|x ws IH]; cbn [lmax fold_right In]; [tauto|].
  fold (lmax ws). intros [->|H]; [lia|]. specialize (IH H). lia.
Qed.

Lemma lmax_in ws : ws <> [] -> In (lmax ws) ws.
Proof.
  induction ws as [|x ws IH]; [congruence|]. intros _.
  cbn [lmax fold_right]. fold (lmax ws).
  destruct ws as [|y ws'].
  - cbn. left. lia.
  - destruct (N.max_spec x (lmax (y :: ws'))) as [[_ ->]|[_ ->]].
    + right. apply IH. discriminate.
    + now left.
Qed.

Lemma lmax_same_elements ws ws' :
  (forall w, In w ws <-> In w ws') -> lmax ws = lmax ws'.
Proof.
  intros Hsame. destruct ws as [|x ws0].
  - destruct ws' as [|y ws0']; [reflexivity|]. elim (proj2 (Hsame y)). now left.
  - destruct ws' as [|y ws0']; [elim (proj1 (Hsame x)); now left|].
    apply N.le_antisymm.
    + apply lmax_ge, Hsame, lmax_in. discriminate.
    + apply lmax_ge, Hsame, lmax_in. discriminate.
Qed.

Lemma groupRows_in pool lvl excl key row :
  In row (groupRows pool lvl excl key) <->
  In row pool /\
  negb (rowSkipped lvl row)
  && negb (isExcluded excl (GetEffectiveGroupKey row))
  && (GetEffectiveGroupKey row =? key)%string = true.
Proof. unfold groupRows. apply filter_In. Qed.

Lemma maxWeight_same_elements rows rows' :
  (forall row, In row rows <-> In row rows') -> maxWeight rows = maxWeight rows'.
Proof.
  intros Hsame.
  destruct rows as [|r rows0]; destruct rows' as [|r' rows0'].
  - reflexivity.
  - elim (proj2 (Hsame r')). now left.
  - elim (proj1 (Hsame r)). now left.
  - cbn [maxWeight]. f_equal. apply lmax_same_elements. intros w.
    rewrite !in_map_iff. split; intros [row [Hw Hin]]; exists row;
      (split; [exact Hw|now apply Hsame]).
Qed.

Lemma groupWeightsOf_same_rows pool pool' lvl excl :
  (forall row, In row pool <-> In row pool') ->
  groupWeightsOf pool lvl excl = groupWeightsOf pool' lvl excl.
Proof.
  intros Hsame.
  apply (StdMapFacts.sorted_ext String.compare);
    try first [apply string_cmp_eq | apply String.compare_antisym
              | exact string_klt_trans | apply groupWeights_sorted].
  intros key.
  change (gfind key (groupWeightsOf pool lvl excl)
          = gfind key (groupWeightsOf pool' lvl excl)).
  rewrite !groupWeights_find. apply maxWeight_same_elements.
  intros row. rewrite !groupRows_in, Hsame. reflexivity.
Qed.

(** X6 -- The weighted group sampler depends on the pool only through the set
    of its rows: two pools that hold the same rows, in any order and with any
    repetition, give the same per-group weights and, for every random source,
    the same draw. *)
Theorem sampler_ignores_row_order pool pool' lvl excl :
  (forall row, In row pool <-> In row pool') ->
  groupWeightsOf pool lvl excl = groupWeightsOf pool' lvl excl /\
  forall g, PickWeightedGroupFromWhitelist pool lvl excl g
            = PickWeightedGroupFromWhitelist pool' lvl excl g.
Proof.
  intros Hsame.
  assert (H : groupWeightsOf pool lvl excl = groupWeightsOf pool' lvl excl)
    by now apply groupWeightsOf_same_rows.
  split; [exact H|]. intros g. unfold PickWeightedGroupFromWhitelist.
  now rewrite H.
Qed.

Lemma sampler_ignores_row_order_witness :
  let pool := [mkRow 1 "B" 1 0 5; mkRow 2 "A" 1 0 10; mkRow 3 "B" 2 0 9] in
  let pool' := [mkRow 3 "B" 2 0 9; mkRow 2 "A" 1 0 10; mkRow 1 "B" 1 0 5;
                mkRow 2 "A" 1 0 10] in
  PickWeightedGroupFromWhitelist pool 0 [] [14]
  = PickWeightedGroupFromWhitelist pool' 0 [] [14].
Proof.
  intros pool pool'.
  apply (sampler_ignores_row_order pool pool' 0 []).
  intros row. subst pool pool'. simpl. tauto.
Defined.

(** ** The shape of a run of the hook *)

Section HookShape.
Context {Inv : Type}.
Variable svc : InventoryService Inv.
Variable env : Env.

(** A gate whose draw is above its chance does nothing but consume the draw. *)
Lemma swapGate_closed chancePct pick player slamrock targetItem msg (w : World Inv) :
  chancePct < fst (urand 1 100 (rng w)) ->
  swapGate svc chancePct pick player slamrock targetItem msg w
  = (false, withRandom (snd (urand 1 100 (rng w))) w).
Proof.
  intros Hroll. unfold swapGate. rewrite bind_eq, withRng_eq. cbn [fst snd].
  destruct (N.leb_spec (fst (urand 1 100 (rng w))) chancePct) as [Hle|_]; [lia|].
  reflexivity.
Qed.

Lemma swapGate_shape chancePct pick player slamrock targetItem msg (w : World Inv) :
  let run := swapGate svc chancePct pick player slamrock targetItem msg w in
  exists sw,
    forallb isSwapEvent sw = true /\
    enchants (snd run) = enchants w /\ live (snd run) = live w /\
    cache (snd run) = cache w /\
    ((fst run = false /\ events (snd run) = events w ++ sw)
     \/
     (fst run = true /\
      exists newEntry,
        newEntry <> 0 /\
        events (snd run)
        = events w ++ sw ++ [EvDestroyItemCount slamrock 1;
                             EvNotification (msg newEntry)])).
Proof.
  intros run. subst run. unfold swapGate.
  rewrite bind_eq, withRng_eq. cbn [fst snd].
  destruct (urand 1 100 (rng w)) as [roll g1]. cbn [fst snd].
  assert (Hnone : forall w0 : World Inv,
            events w0 = events w -> enchants w0 = enchants w ->
            live w0 = live w -> cache w0 = cache w ->
            exists sw,
              forallb isSwapEvent sw = true /\
              enchants (snd (ret (Inv := Inv) false w0)) = enchants w /\
              live (snd (ret (Inv := Inv) false w0)) = live w /\
              cache (snd (ret (Inv := Inv) false w0)) = cache w /\
              ((fst (ret (Inv := Inv) false w0) = false /\
                events (snd (ret (Inv := Inv) false w0)) = events w ++ sw)
               \/
               (fst (ret (Inv := Inv) false w0) = true /\
                exists newEntry,
                  newEntry <> 0 /\
                  events (snd (ret (Inv := Inv) false w0))
                  = events w ++ sw ++ [EvDestroyItemCount slamrock 1;
                                       EvNotification (msg newEntry)]))).
  { intros w0 H1 H2 H3 H4. exists []. cbn. rewrite app_nil_r.
    split; [reflexivity|]. do 3 (split; [assumption|]). left. auto. }
  destruct (roll <=? chancePct); [|now apply Hnone].
  rewrite bind_eq, withRng_eq. cbn [fst snd inv enchants live cache rng events].
  destruct (pick g1) as [newEntry g2]. cbn [fst snd].
  destruct (N.eqb_spec newEntry 0) as [Hz|Hnz]; cbn [negb]; [now apply Hnone|].
  rewrite bind_eq.
  set (w1 := mkWorld (inv w) (enchants w) (live w) (cache w) g2 (events w)).
  destruct (TryDowngradeItemInPlace_runs svc player targetItem newEntry w1)
    as [tr0 [Hev [Hen [Hli [Hca _]]]]].
  destruct (swap_events_only svc player targetItem newEntry w1) as [tr1 [Hev1 Hsw]].
  rewrite Hev in Hev1. apply app_inv_head in Hev1. subst tr1.
  destruct (TryDowngradeItemInPlace svc (Some player) (Some targetItem) newEntry w1)
    as [swapped w2]. cbn [fst snd] in *.
  exists tr0. split; [exact Hsw|].
  destruct swapped.
  - unfold destroyItemCount. run_script. rewrite Hev, Hen, Hli, Hca.
    do 3 (split; [reflexivity|]). right. split; [reflexivity|].
    exists newEntry. split; [exact Hnz|]. unfold w1. cbn [events].
    rewrite <- !app_assoc. reflexivity.
  - cbn. rewrite Hev, Hen, Hli, Hca. do 3 (split; [reflexivity|]). left. auto.
Qed.

Lemma empower_shape player slamrock item (w : World Inv) :
  let run := empower svc env player slamrock item w in
  let pool := poolFor env (cache w) item in
  let lvl := itemLevelOf item in
  let c' := cacheAfterLoad env (cache w) in
  let drawn := urand 1 SLAMROCK_MAX_MODIFIERS (rng w) in
  let roll := rollModifiers (N.to_nat (fst drawn)) pool lvl []
                (mkWorld (inv w) (enchants w) (live w) c' (snd drawn) (events w)) in
  (pool = [] /\
   run = (true, mkWorld (inv w) (enchants w) (live w) c' (rng w)
                  (events w ++ EvNotification WhitelistEmptyCannotRoll
                             :: replyEvents env SPELL_FAILED_ERROR)))
  \/
  (pool <> [] /\ eligibleGroups pool lvl = [] /\
   run = (true, mkWorld (inv w) (enchants w) (live w) c' (snd drawn)
                  (events w ++ EvNotification NoEligibleEnchantments
                             :: replyEvents env SPELL_FAILED_ERROR)))
  \/
  (pool <> [] /\ eligibleGroups pool lvl <> [] /\ fst roll = [] /\
   run = (true, mkWorld (inv w) (enchants w) (live w) c' (rng (snd roll))
                  (events w ++ EvNotification NoEligibleEnchantments
                             :: replyEvents env SPELL_FAILED_ERROR)))
  \/
  (pool <> [] /\ eligibleGroups pool lvl <> [] /\ fst roll <> [] /\
   exists tr,
     forallb isReconcilerEvent tr = true /\
     run = (true,
            mkWorld (DestroyItemCount svc (inv w) slamrock 1)
              (enchants (snd (clearThenApply player item (fst roll) w)))
              (live (snd (clearThenApply player item (fst roll) w)))
              c' (rng (snd roll))
              (events w ++ tr ++ [EvDestroyItemCount slamrock 1;
                                  empoweredReport (fst roll)]))).
Proof.
  intros run pool lvl c' drawn roll. subst run. unfold empower.
  rewrite bind_eq, ensureWhitelistLoaded_eq. cbn [fst snd].
  rewrite bind_eq. unfold getCache. cbn [fst snd cache].
  fold c'. fold (itemLevelOf item). fold lvl.
  change (if IsWeaponTarget (Some item) then weapon c' else armor c') with pool.
  subst roll. clearbody pool lvl c'.
  destruct pool as [|r0 pool0] eqn:Epool.
  { left. split; [reflexivity|]. cbv iota beta.
    rewrite bind_eq. unfold emit at 1. cbn [fst snd].
    rewrite bind_eq, replyFailure_eq. cbn. rewrite <- app_assoc. reflexivity. }
  right. cbv iota beta. rewrite <- Epool.
  assert (Hne : pool <> []) by (rewrite Epool; discriminate).
  rewrite bind_eq, withRng_eq. cbn [fst snd inv enchants live cache rng events].
  assert (Hfail : forall g',
    (emit (EvNotification NoEligibleEnchantments) ;;
     replyFailure env SPELL_FAILED_ERROR ;; ret true)
      (mkWorld (inv w) (enchants w) (live w) c' g' (events w))
    = (true, mkWorld (inv w) (enchants w) (live w) c' g'
               (events w ++ EvNotification NoEligibleEnchantments
                          :: replyEvents env SPELL_FAILED_ERROR))).
  { intros g'. rewrite bind_eq. unfold emit at 1. cbn [fst snd].
    rewrite bind_eq, replyFailure_eq. cbn. rewrite <- app_assoc. reflexivity. }
  pose proof (urand_range 1 SLAMROCK_MAX_MODIFIERS (rng w) ltac:(discriminate)) as Hcount.
  subst drawn.
  destruct (urand 1 SLAMROCK_MAX_MODIFIERS (rng w)) as [modifierCount g1].
  cbn [fst snd] in *.
  destruct (eligibleGroups pool lvl) as [|grp groups] eqn:Egroups.
  { left. split; [exact Hne|]. split; [reflexivity|]. cbn [N.eqb]. apply Hfail. }
  right.
  destruct (N.eqb_spec modifierCount 0) as [Hz|Hz]; [lia|].
  rewrite bind_eq.
  destruct (rollModifiers_runs (N.to_nat modifierCount) pool lvl []
              (mkWorld (inv w) (enchants w) (live w) c' g1 (events w)))
    as [g2 [rolled [Hroll [Hlen Hin]]]].
  cbn [inv enchants live cache events app] in Hroll. rewrite Hroll. cbn [fst snd rng].
  destruct rolled as [|id0 rolled'].
  { left. split; [exact Hne|]. split; [discriminate|]. split; [reflexivity|].
    apply Hfail. }
  right. split; [exact Hne|]. split; [discriminate|]. split; [discriminate|].
  cbv iota.
  remember (id0 :: rolled') as rolled eqn:Erolled.
  set (w2 := mkWorld (inv w) (enchants w) (live w) c' g2 (events w)).
  destruct (clearThenApply_eq player item rolled w2) as [tr [Hca Hrec]].
  destruct (clearThenApply_eq player item rolled w) as [tr' [Hca' _]].
  assert (Hrun :
    (clearThenApply player item rolled ;;
     destroyItemCount svc slamrock 1 ;; emit (empoweredReport rolled) ;; ret true) w2
    = (true,
       mkWorld (DestroyItemCount svc (inv w) slamrock 1)
         (enchants (snd (clearThenApply player item rolled w)))
         (live (snd (clearThenApply player item rolled w)))
         c' g2
         (events w ++ tr ++ [EvDestroyItemCount slamrock 1; empoweredReport rolled]))).
  { rewrite bind_eq, Hca, Hca'. unfold destroyItemCount. run_script.
    unfold w2. cbn [live enchants inv events cache rng].
    rewrite <- !app_assoc. reflexivity. }
  assert (Hassoc :
    (ClearSlamrockEnchants (Some player) (Some item) ;;
     ApplyMarkerAndModifiers item rolled ;;
     destroyItemCount svc slamrock 1 ;; emit (empoweredReport rolled) ;; ret true) w2
    = (clearThenApply player item rolled ;;
       destroyItemCount svc slamrock 1 ;; emit (empoweredReport rolled) ;; ret true) w2).
  { unfold clearThenApply. rewrite !bind_eq. reflexivity. }
  exists tr. split; [exact Hrec|].
  unfold empoweredReport in Hassoc at 1. rewrite Hassoc, Hrun. reflexivity.
Qed.
End HookShape.

Section HookShapeRuns.
Context {Inv : Type}.
Variable svc : InventoryService Inv.
Variable env : Env.

Lemma ItemUse_shape player slamrock target (w : World Inv) :
  let run := ItemUse_item_slamrock svc env (Some player) (Some slamrock) target w in
  (targetRejected player target /\
   exists more,
     run = (true, mkWorld (inv w) (enchants w) (live w) (cache w) (rng w)
                    (events w ++ EvNotification (targetNotification target) :: more
                       ++ replyEvents env SPELL_FAILED_BAD_TARGETS)) /\
     (more = [] \/ more = [EvNotification CannotEmpowerRandomProperties]))
  \/
  (exists item sw,
     target = Some item /\ ~ targetRejected player target /\
     forallb isSwapEvent sw = true /\
     ((fst run = true /\
       enchants (snd run) = enchants w /\ live (snd run) = live w /\
       cache (snd run) = cache w /\
       exists n newEntry,
         (n = ItemUpgradesInto newEntry \/ n = ItemTransformsInto newEntry) /\
         events (snd run)
         = events w ++ EvNotification (TargetingItem (entry item))
             :: sw ++ [EvDestroyItemCount slamrock 1; EvNotification n])
      \/
      (exists w0,
         events w0 = events w ++ EvNotification (TargetingItem (entry item)) :: sw /\
         enchants w0 = enchants w /\ live w0 = live w /\ cache w0 = cache w /\
         run = empower svc env player slamrock item w0))).
Proof.
  intros run.
  destruct (ItemUse_runs svc env player slamrock target w)
    as [Hrej|[item [Htarget [Hacc _]]]]; [left; exact Hrej|].
  right. exists item. subst run target.
  unfold ItemUse_item_slamrock.
  rewrite bind_eq, emit_eq. cbn [fst snd].
  assert (Hgear : IsReasonableGearTarget (Some item) = true).
  { destruct (IsReasonableGearTarget (Some item)) eqn:E; [reflexivity|].
    elim Hacc. now left. }
  assert (Hown : match owner item with Some guid => guid =? player | None => false end
                 = true).
  { destruct (owner item) as [guid|] eqn:E.
    - destruct (N.eqb_spec guid player) as [->|Hne]; [reflexivity|].
      elim Hacc. right. left. congruence.
    - elim Hacc. right. left. congruence. }
  assert (Hrp : (randomPropertyId item =? 0) = true).
  { destruct (N.eqb_spec (randomPropertyId item) 0) as [_|Hne]; [reflexivity|].
    elim Hacc. right. right. exact Hne. }
  rewrite Hgear, Hown, Hrp. cbn [negb].
  rewrite bind_eq.
  set (wT := mkWorld (inv w) (enchants w) (live w) (cache w) (rng w)
               (events w ++ [EvNotification (TargetingItem (entry item))])).
  pose proof (swapGate_shape svc SLAMROCK_UPGRADE_CHANCE_PCT
                (PickUpgradeEntrySameClass (sItemStorage env) (proto item)
                   SLAMROCK_UPGRADE_MAX_ILVL_DELTA)
                player slamrock item ItemUpgradesInto wT) as Hup.
  cbv zeta in Hup.
  destruct Hup as [sw1 [Hsw1 [Hen1 [Hli1 [Hca1 Hcase1]]]]].
  destruct (swapGate svc SLAMROCK_UPGRADE_CHANCE_PCT _ player slamrock item
              ItemUpgradesInto wT) as [upgraded wU].
  cbn [fst snd] in *.
  destruct Hcase1 as [[-> Hev1]|[-> [e1 [_ Hev1]]]].
  2:{ exists sw1. split; [reflexivity|]. split; [exact Hacc|].
      split; [exact Hsw1|]. left. unfold ret. cbn [fst snd].
      split; [reflexivity|]. rewrite Hen1, Hli1, Hca1. unfold wT.
      cbn [enchants live cache]. do 3 (split; [reflexivity|]).
      exists (ItemUpgradesInto e1), e1. split; [now left|].
      rewrite Hev1. unfold wT. cbn [events]. rewrite <- app_assoc. reflexivity. }
  rewrite bind_eq.
  pose proof (swapGate_shape svc SLAMROCK_DOWNGRADE_CHANCE_PCT
                (PickDowngradeEntry (sItemStorage env) (proto item))
                player slamrock item ItemTransformsInto wU) as Hdn.
  cbv zeta in Hdn.
  destruct Hdn as [sw2 [Hsw2 [Hen2 [Hli2 [Hca2 Hcase2]]]]].
  destruct (swapGate svc SLAMROCK_DOWNGRADE_CHANCE_PCT _ player slamrock item
              ItemTransformsInto wU) as [downgraded wD].
  cbn [fst snd] in *.
  exists (sw1 ++ sw2). split; [reflexivity|]. split; [exact Hacc|].
  split; [now rewrite forallb_app, Hsw1, Hsw2|].
  destruct Hcase2 as [[-> Hev2]|[-> [e2 [_ Hev2]]]].
  - right. exists wD. rewrite Hev2, Hev1, Hen2, Hen1, Hli2, Hli1, Hca2, Hca1.
    unfold wT. cbn [events enchants live cache]. rewrite <- !app_assoc.
    repeat split; reflexivity.
  - left. unfold ret. cbn [fst snd]. split; [reflexivity|].
    rewrite Hen2, Hen1, Hli2, Hli1, Hca2, Hca1. unfold wT.
    cbn [enchants live cache]. do 3 (split; [reflexivity|]).
    exists (ItemTransformsInto e2), e2. split; [now right|].
    rewrite Hev2, Hev1. unfold wT. cbn [events]. rewrite <- !app_assoc. reflexivity.
Qed.

Lemma forallb_filter_nil {A} (p q : A -> bool) l :
  (forall x, p x = true -> q x = false) -> forallb p l = true -> filter q l = [].
Proof.
  intros Hpq Hl. apply filter_none. intros x Hin. apply Hpq.
  rewrite forallb_forall in Hl. now apply Hl.
Qed.

Lemma replyEvents_quiet result :
  filter isConsumption (replyEvents env result) = [] /\
  filter isCommitReport (replyEvents env result) = [].
Proof. unfold replyEvents. destruct (targetingSpell env); split; reflexivity. Qed.

(** X7 -- Every use of a Slamrock by a player ends in exactly one of two ways.
    Either the run ends with the failure reply, and then no Slamrock was
    consumed and no committed outcome was reported; or its last two calls are
    the consumption of one Slamrock followed by the one report of the
    committed outcome (an upgrade, a transformation or an applied roll), and
    then no failure reply was sent and nothing before those two calls
    consumed or reported anything. *)
Theorem slamrock_consumed_once_on_commit player slamrock target (w : World Inv) :
  let run := ItemUse_item_slamrock svc env (Some player) (Some slamrock) target w in
  exists tr,
    events (snd run) = events w ++ tr /\
    ((exists pre result,
        tr = pre ++ replyEvents env result /\
        filter isConsumption tr = [] /\ filter isCommitReport tr = [] /\
        enchants (snd run) = enchants w)
     \/
     (exists pre n,
        tr = pre ++ [EvDestroyItemCount slamrock 1; EvNotification n] /\
        reportsCommit n = true /\
        filter isConsumption pre = [] /\ filter isCommitReport pre = [] /\
        ~ In EvSendEquipError pre)).
Proof.
  intros run.
  assert (Hsw : forall sw, forallb isSwapEvent sw = true ->
            filter isConsumption sw = [] /\ filter isCommitReport sw = [] /\
            ~ In EvSendEquipError sw).
  { intros sw H. split; [|split].
    - apply (forallb_filter_nil isSwapEvent); [|exact H]. now intros [].
    - apply (forallb_filter_nil isSwapEvent); [|exact H]. now intros [].
    - intros Hin. rewrite forallb_forall in H. apply H in Hin. discriminate. }
  assert (Hrec : forall rt, forallb isReconcilerEvent rt = true ->
            filter isConsumption rt = [] /\ filter isCommitReport rt = [] /\
            ~ In EvSendEquipError rt).
  { intros rt H. split; [|split].
    - apply (forallb_filter_nil isReconcilerEvent); [|exact H]. now intros [].
    - apply (forallb_filter_nil isReconcilerEvent); [|exact H]. now intros [].
    - intros Hin. rewrite forallb_forall in H. apply H in Hin. discriminate. }
  destruct (ItemUse_shape player slamrock target w)
    as [[_ [more [Hrun Hmore]]]
       |[item [sw [-> [_ [Hswap [[_ [Hen [_ [_ [n [e [Hn Hev]]]]]]]
                                |[w0 [Hev0 [Hen0 [_ [_ Hrun]]]]]]]]]]]];
    fold run in Hrun || fold run in Hev.
  - (* the target is rejected *)
    exists (EvNotification (targetNotification target) :: more
              ++ replyEvents env SPELL_FAILED_BAD_TARGETS).
    rewrite Hrun. cbn [snd events enchants]. split; [reflexivity|]. left.
    exists (EvNotification (targetNotification target) :: more),
           SPELL_FAILED_BAD_TARGETS.
    split; [reflexivity|].
    destruct (replyEvents_quiet SPELL_FAILED_BAD_TARGETS) as [Hq1 Hq2].
    destruct Hmore as [->| ->]; destruct target; cbn [targetNotification];
      cbn [app filter isConsumption isCommitReport reportsCommit];
      rewrite ?filter_app, ?Hq1, ?Hq2; repeat split; reflexivity.
  - (* a swap *)
    destruct (Hsw sw Hswap) as [H1 [H2 H3]].
    exists (EvNotification (TargetingItem (entry item))
              :: sw ++ [EvDestroyItemCount slamrock 1; EvNotification n]).
    split; [exact Hev|]. right.
    exists (EvNotification (TargetingItem (entry item)) :: sw), n.
    split; [reflexivity|].
    split; [destruct Hn as [-> | ->]; reflexivity|].
    cbn [filter isConsumption isCommitReport reportsCommit].
    split; [exact H1|]. split; [exact H2|].
    intros [Hin|Hin]; [discriminate|contradiction].
  - (* the modifier stage *)
    destruct (Hsw sw Hswap) as [H1 [H2 H3]].
    destruct (replyEvents_quiet SPELL_FAILED_ERROR) as [Hq1 Hq2].
    assert (Hfail : forall c g n,
              reportsCommit n = false ->
              run = (true, mkWorld (inv w0) (enchants w0) (live w0) c g
                             (events w0 ++ EvNotification n
                                :: replyEvents env SPELL_FAILED_ERROR)) ->
              exists tr,
                events (snd run) = events w ++ tr /\
                ((exists pre result,
                    tr = pre ++ replyEvents env result /\
                    filter isConsumption tr = [] /\ filter isCommitReport tr = [] /\
                    enchants (snd run) = enchants w)
                 \/
                 (exists pre n0,
                    tr = pre ++ [EvDestroyItemCount slamrock 1; EvNotification n0] /\
                    reportsCommit n0 = true /\
                    filter isConsumption pre = [] /\ filter isCommitReport pre = [] /\
                    ~ In EvSendEquipError pre))).
    { intros c g n Hn Heq. rewrite Heq. cbn [snd events enchants].
      exists (EvNotification (TargetingItem (entry item))
                :: sw ++ EvNotification n :: replyEvents env SPELL_FAILED_ERROR).
      rewrite Hev0, <- app_assoc. split; [reflexivity|]. left.
      exists (EvNotification (TargetingItem (entry item)) :: sw ++ [EvNotification n]),
             SPELL_FAILED_ERROR.
      split; [cbn [app]; rewrite <- app_assoc; reflexivity|].
      cbn [filter isConsumption isCommitReport reportsCommit].
      rewrite !filter_app. cbn [filter isConsumption isCommitReport].
      rewrite Hn, H1, H2, Hq1, Hq2. repeat split; [exact Hen0]. }
    destruct (empower_shape svc env player slamrock item w0)
      as [[_ Heq]|[[_ [_ Heq]]|[[_ [_ [_ Heq]]]|[_ [_ [Hne [rt [Hrt Heq]]]]]]]];
      rewrite <- Hrun in Heq.
    + refine (Hfail _ _ _ _ Heq). reflexivity.
    + refine (Hfail _ _ _ _ Heq). reflexivity.
    + refine (Hfail _ _ _ _ Heq). reflexivity.
    + destruct (Hrec rt Hrt) as [R1 [R2 R3]].
      set (rolled := fst (rollModifiers _ _ _ _ _)) in *.
      exists (EvNotification (TargetingItem (entry item))
                :: sw ++ rt ++ [EvDestroyItemCount slamrock 1; empoweredReport rolled]).
      rewrite Heq. cbn [snd events]. rewrite Hev0, <- !app_assoc.
      split; [reflexivity|]. right.
      exists (EvNotification (TargetingItem (entry item)) :: sw ++ rt),
             (EmpoweredWith (N.of_nat (List.length rolled))
                (nth 0 rolled 0) (nth 1 rolled 0) (nth 2 rolled 0)).
      split; [cbn [app]; rewrite <- !app_assoc; reflexivity|].
      split; [reflexivity|].
      cbn [filter isConsumption isCommitReport reportsCommit].
      rewrite !filter_app, H1, H2, R1, R2.
      split; [reflexivity|]. split; [reflexivity|].
      intros [Hin|Hin]; [discriminate|].
      apply in_app_or in Hin. tauto.
Qed.
End HookShapeRuns.

(** ** The roll never comes back short *)

Lemma rank_picker_succeeds pool lvl key g :
  N.of_nat (List.length pool) < 4294967296 ->
  rankRows pool lvl key <> [] ->
  exists id, fst (PickRandomEligibleRankEnchantForGroup pool lvl key g) = Some id.
Proof.
  intros Hlen Hrows. rewrite rank_picker_result by exact Hlen.
  destruct (rankRows pool lvl key) as [|r rows] eqn:Er; [now elim Hrows|].
  cbv zeta.
  set (n := N.of_nat (List.length (r :: rows))).
  assert (Hn : 1 <= n) by (unfold n; cbn [List.length]; lia).
  pose proof (urand_range 1 n g Hn) as Hroll.
  destruct (nth_error (map enchantId (r :: rows)) (N.to_nat (fst (urand 1 n g) - 1)))
    as [id|] eqn:Enth; [now exists id|].
  apply nth_error_None in Enth. rewrite length_map in Enth.
  revert Hroll Enth. generalize (fst (urand 1 n g)). unfold n. intros x Hx Hnth. lia.
Qed.

Lemma pool_bounds pool lvl :
  Forall (fun row => weight row <= 65535) pool ->
  N.of_nat (List.length pool) <= 65537 ->
  rawTotal (groupWeightsOf pool lvl noExclusions) < 4294967296 /\
  N.of_nat (List.length pool) < 4294967296.
Proof.
  intros Hw Hlen. split; [|lia].
  pose proof (rawTotal_bound pool lvl noExclusions Hw) as Hb. lia.
Qed.

Section RollCount.
Context {Inv : Type}.

Lemma rollModifiers_full remaining pool lvl :
  rawTotal (groupWeightsOf pool lvl noExclusions) < 4294967296 ->
  N.of_nat (List.length pool) < 4294967296 ->
  (exists row, In row pool /\ eligible lvl row) ->
  forall rolled (w : World Inv),
    List.length (fst (rollModifiers remaining pool lvl rolled w))
    = (List.length rolled + remaining)%nat.
Proof.
  intros Htotal Hlen [row0 [Hin0 Hel0]].
  induction remaining as [|n IH]; intros rolled w.
  - cbn. lia.
  - cbn [rollModifiers]. rewrite bind_eq, withRng_eq. cbn [fst snd].
    assert (Hq : exists row, qualifies pool lvl noExclusions row).
    { exists row0. repeat split; auto; apply Hel0. }
    pose proof (qualifying_row_positive_total pool lvl noExclusions Htotal Hq) as Hpos.
    destruct (sampler_positive_total_succeeds pool lvl noExclusions (rng w) Hpos)
      as [key Hkey].
    destruct (sampler_success_qualifies pool lvl noExclusions (rng w) key Hkey)
      as [row [[Hin [Hel _]] Hrk]].
    destruct (PickWeightedGroupFromWhitelist pool lvl noExclusions (rng w))
      as [groupKey g1]. cbn [fst snd] in *. subst groupKey.
    rewrite bind_eq, withRng_eq. cbn [fst snd inv enchants live cache rng events].
    assert (Hrows : rankRows pool lvl key <> []).
    { intros Hnil. assert (Hr : In row (rankRows pool lvl key))
        by (apply rankRows_in; auto).
      rewrite Hnil in Hr. destruct Hr. }
    destruct (rank_picker_succeeds pool lvl key g1 Hlen Hrows) as [id Hid].
    destruct (PickRandomEligibleRankEnchantForGroup pool lvl key g1) as [picked g2].
    cbn [fst snd] in *. subst picked.
    rewrite IH, length_app. cbn [List.length]. lia.
Qed.
End RollCount.

Section RollCountHook.
Context {Inv : Type}.
Variable svc : InventoryService Inv.
Variable env : Env.

(** X8 -- The roll never comes back short.  For a pool of at most 65537 rows
    (weights being 16-bit) that holds a row eligible at the item's level, the
    roll loop always appends exactly the number of ids it was asked for, and
    the modifier stage of the hook therefore always commits: it applies
    exactly the drawn count of 1 to 3 modifiers, consumes the Slamrock and
    reports the roll. *)
Theorem roll_fills_the_drawn_count player slamrock item (w : World Inv) :
  let pool := poolFor env (cache w) item in
  let lvl := itemLevelOf item in
  let drawn := fst (urand 1 SLAMROCK_MAX_MODIFIERS (rng w)) in
  let run := empower svc env player slamrock item w in
  Forall (fun row => weight row <= 65535) pool ->
  N.of_nat (List.length pool) <= 65537 ->
  (exists row, In row pool /\ eligible lvl row) ->
  (forall remaining rolled (w' : World Inv),
     List.length (fst (rollModifiers remaining pool lvl rolled w'))
     = (List.length rolled + remaining)%nat) /\
  exists rolled tr,
    List.length rolled = N.to_nat drawn /\
    (1 <= List.length rolled <= 3)%nat /\
    forallb isReconcilerEvent tr = true /\
    events (snd run)
    = events w ++ tr ++ [EvDestroyItemCount slamrock 1; empoweredReport rolled] /\
    enchants (snd run) = enchants (snd (clearThenApply player item rolled w)).
Proof.
  intros pool lvl drawn run Hw Hlen Hrow.
  destruct (pool_bounds pool lvl Hw Hlen) as [Htotal Hsize].
  assert (Hfull : forall remaining rolled (w' : World Inv),
            List.length (fst (rollModifiers remaining pool lvl rolled w'))
            = (List.length rolled + remaining)%nat).
  { intros. now apply rollModifiers_full. }
  split; [exact Hfull|].
  pose proof (urand_range 1 SLAMROCK_MAX_MODIFIERS (rng w) ltac:(discriminate))
    as Hdrawn. fold drawn in Hdrawn. unfold SLAMROCK_MAX_MODIFIERS in Hdrawn.
  destruct Hrow as [row [Hin Hel]].
  assert (Hgroups : eligibleGroups pool lvl <> []).
  { intros Hnil. rewrite eligibleGroups_nil in Hnil.
    specialize (Hnil row Hin). apply rowSkipped_false in Hel. congruence. }
  destruct (empower_shape svc env player slamrock item w)
    as [[Hp _]|[[_ [Hg _]]|[[_ [_ [Hr _]]]|[_ [_ [_ [tr [Hrec Heq]]]]]]]];
    fold pool in Hp || fold pool lvl in Hg || fold pool lvl in Hr || idtac.
  - rewrite Hp in Hin. destruct Hin.
  - contradiction.
  - apply (f_equal (@List.length N)) in Hr. fold drawn in Hr.
    rewrite Hfull in Hr. cbn [List.length] in Hr. lia.
  - fold run pool lvl drawn in Heq.
    set (roll := rollModifiers (N.to_nat drawn) pool lvl [] _) in *.
    assert (Hcount : List.length (fst roll) = N.to_nat drawn)
      by (unfold roll; rewrite Hfull; reflexivity).
    exists (fst roll), tr. split; [exact Hcount|]. split; [lia|].
    split; [exact Hrec|]. rewrite Heq. cbn [snd events enchants]. auto.
Qed.
End RollCountHook.

Lemma roll_fills_the_drawn_count_witness :
  let w := mkWorld [(255, 15, 200)] emptySlots noEffects emptyCache [1; 5; 0; 16; 0] [] in
  List.length (fst (rollModifiers 3 scenarioPool 0 [] w)) = 3%nat /\
  exists rolled tr,
    List.length rolled = 2%nat /\
    events (snd (empower toyInventory scenarioEnv 7 9000 wornSword w))
    = tr ++ [EvDestroyItemCount 9000 1; empoweredReport rolled].
Proof.
  intros w.
  assert (Hw : Forall (fun row => weight row <= 65535)
                      (poolFor scenarioEnv (cache w) wornSword)).
  { repeat constructor; cbn; lia. }
  assert (Hlen : N.of_nat (List.length (poolFor scenarioEnv (cache w) wornSword))
                 <= 65537).
  { cbn. lia. }
  assert (Hrow : exists row, In row (poolFor scenarioEnv (cache w) wornSword)
                             /\ eligible (itemLevelOf wornSword) row).
  { exists (mkRow 1 "A" 1 0 10). split; [now left|]. split; cbn; lia. }
  destruct (roll_fills_the_drawn_count toyInventory scenarioEnv 7 9000 wornSword w
              Hw Hlen Hrow) as [Hfull [rolled [tr [Hcount [_ [_ [Hev _]]]]]]].
  split; [apply (Hfull 3%nat [] w)|].
  exists rolled, tr. split; [exact Hcount|exact Hev].
Defined.

(** ** The sorted index and the candidates it yields *)

Lemma insertByLevel_perm x l : Permutation (insertByLevel x l) (x :: l).
Proof.
  induction l as [|y l IH]; cbn [insertByLevel]; [reflexivity|].
  destruct (fst x <? fst y); [reflexivity|].
  rewrite IH. apply perm_swap.
Qed.

Lemma sortByLevel_perm l : Permutation (sortByLevel l) l.
Proof.
  induction l as [|x l IH]; cbn [sortByLevel fold_right]; [reflexivity|].
  fold (sortByLevel l). rewrite insertByLevel_perm. now constructor.
Qed.

Lemma insertByLevel_sorted x l :
  StronglySorted byLevel l -> StronglySorted byLevel (insertByLevel x l).
Proof.
  induction l as [|y l IH]; intros Hs; cbn [insertByLevel].
  - repeat constructor.
  - inversion Hs as [|y' l' Hsl Hall]; subst.
    destruct (N.ltb_spec (fst x) (fst y)) as [Hlt|Hge].
    + constructor; [exact Hs|]. constructor; [unfold byLevel; lia|].
      rewrite Forall_forall in *. intros z Hz. specialize (Hall z Hz).
      unfold byLevel in *. lia.
    + constructor; [now apply IH|].
      rewrite Forall_forall in *. intros z Hz.
      apply (Permutation_in _ (insertByLevel_perm x l)) in Hz.
      destruct Hz as [<-|Hz]; [exact Hge|now apply Hall].
Qed.

Lemma sortByLevel_sorted l : StronglySorted byLevel (sortByLevel l).
Proof.
  induction l as [|x l IH]; cbn [sortByLevel fold_right]; [constructor|].
  now apply insertByLevel_sorted.
Qed.

Lemma lowerCandidates_sorted vec targetProto :
  StronglySorted byLevel vec ->
  lowerCandidates vec targetProto = map snd (filter (isLower targetProto) vec).
Proof.
  induction vec as [|it rest IH]; intros Hs; cbn [lowerCandidates filter map];
    [reflexivity|].
  inversion Hs as [|it' rest' Hsr Hall]; subst. unfold isLower at 1.
  destruct (N.leb_spec (ItemLevel targetProto) (fst it)) as [Hge|Hlt].
  - destruct (N.ltb_spec (fst it) (ItemLevel targetProto)) as [Hlt'|_]; [lia|].
    cbn [andb]. rewrite filter_none; [reflexivity|].
    intros z Hz. rewrite Forall_forall in Hall. specialize (Hall z Hz).
    unfold isLower, byLevel in *.
    destruct (N.ltb_spec (fst z) (ItemLevel targetProto)); [lia|reflexivity].
  - destruct (N.ltb_spec (fst it) (ItemLevel targetProto)) as [_|Hge']; [|lia].
    cbn [andb]. destruct (snd it =? ItemId targetProto); cbn [negb map];
      now rewrite IH.
Qed.

Lemma upgradeCandidates_sorted vec targetIlvl maxIlvl targetId :
  StronglySorted byLevel vec ->
  upgradeCandidates vec targetIlvl maxIlvl targetId
  = map snd (filter (isWithin targetIlvl maxIlvl targetId) vec).
Proof.
  induction vec as [|it rest IH]; intros Hs; cbn [upgradeCandidates filter map];
    [reflexivity|].
  inversion Hs as [|it' rest' Hsr Hall]; subst. unfold isWithin at 1.
  destruct (N.ltb_spec (fst it) targetIlvl) as [Hlt|Hge].
  - destruct (N.leb_spec targetIlvl (fst it)) as [Hle|_]; [lia|].
    cbn [andb]. now apply IH.
  - destruct (N.leb_spec targetIlvl (fst it)) as [_|Hlt']; [|lia]. cbn [andb].
    destruct (N.ltb_spec maxIlvl (fst it)) as [Hover|Hin].
    + destruct (N.leb_spec (fst it) maxIlvl) as [Hle|_]; [lia|].
      cbn [andb]. rewrite filter_none; [reflexivity|].
      intros z Hz. rewrite Forall_forall in Hall. specialize (Hall z Hz).
      unfold isWithin, byLevel in *.
      destruct (N.leb_spec (fst z) maxIlvl); [lia|]. now rewrite andb_false_r.
    + destruct (N.leb_spec (fst it) maxIlvl) as [_|Hgt]; [|lia]. cbn [andb].
      destruct (snd it =? targetId); cbn [negb map]; now rewrite IH.
Qed.

Section IndexInvariant.
Context {K : Type}.
Variable cmp : K -> K -> comparison.
Variable keyfn : ItemPrototype -> K.
Hypothesis cmp_eq : forall a b, cmp a b = Eq <-> a = b.

(** X9 -- The lazily built index files every stored, equippable prototype
    under its key, once per entry it is stored at: the vector of a key is a
    rearrangement of the (level, id) pairs of the scanned gear with that key,
    its levels never go down, and it is never empty; a key has no vector
    exactly when no scanned gear prototype has it.  Entry 0 of the storage
    and the non-equippable or container prototypes are never indexed. *)
Theorem index_groups_gear_by_level storage key :
  match StdMap.find cmp key (buildIndex cmp keyfn storage) with
  | Some vec =>
      vec <> [] /\ StronglySorted byLevel vec /\
      Permutation vec (indexRows cmp keyfn (scannedEntries storage) key) /\
      (forall lvl id, In (lvl, id) vec <->
         exists proto, In (Some proto) (skipn 1 storage) /\ notGear proto = false /\
                       keyfn proto = key /\ ItemLevel proto = lvl /\ ItemId proto = id)
  | None =>
      forall proto, In (Some proto) (skipn 1 storage) -> notGear proto = false ->
                    keyfn proto <> key
  end.
Proof.
  rewrite (index_find cmp keyfn cmp_eq).
  destruct (indexRows cmp keyfn (scannedEntries storage) key) as [|r rows] eqn:Erows.
  - intros proto Hin Hgear Hkey.
    assert (H : In (ItemLevel proto, ItemId proto)
                   (indexRows cmp keyfn (scannedEntries storage) key)).
    { apply (indexRows_in cmp keyfn cmp_eq). exists proto. auto. }
    rewrite Erows in H. destruct H.
  - split.
    { intros Hnil. apply (f_equal (@List.length LevelEntry)) in Hnil.
      rewrite sortByLevel_length in Hnil. discriminate Hnil. }
    split; [apply sortByLevel_sorted|].
    split; [apply sortByLevel_perm|].
    intros lvl id. rewrite sortByLevel_in, <- Erows.
    apply (indexRows_in cmp keyfn cmp_eq).
Qed.
End IndexInvariant.

Lemma index_groups_gear_by_level_witness :
  StdMap.find ItemTypeKey_cmp (mkKey 2 7 13) (buildByType scenarioStorage)
  = Some [(10, 100); (20, 200); (30, 300)] /\
  (exists proto, In (Some proto) (skipn 1 scenarioStorage) /\ notGear proto = false /\
                 keyOf proto = mkKey 2 7 13 /\ ItemLevel proto = 20 /\
                 ItemId proto = 200) /\
  StdMap.find ItemTypeKey_cmp (mkKey 1 0 18) (buildByType scenarioStorage) = None.
Proof.
  pose proof (index_groups_gear_by_level ItemTypeKey_cmp keyOf ItemTypeKey_cmp_eq
                scenarioStorage (mkKey 2 7 13)) as H.
  unfold buildByType.
  destruct (StdMap.find ItemTypeKey_cmp (mkKey 2 7 13)
              (buildIndex ItemTypeKey_cmp keyOf scenarioStorage)) as [vec|] eqn:E.
  - destruct H as [_ [_ [_ Hin]]].
    split; [rewrite <- E; vm_compute; reflexivity|].
    split; [|vm_compute; reflexivity].
    apply Hin. vm_compute in E. injection E as <-. simpl. tauto.
  - vm_compute in E. discriminate E.
Defined.

(** ** The selectors miss no candidate *)

Lemma index_holds_catalog_item {K} (cmp : K -> K -> comparison)
    (keyfn : ItemPrototype -> K)
    (cmp_eq : forall a b, cmp a b = Eq <-> a = b) storage proto :
  catalogItem storage proto ->
  exists vec,
    StdMap.find cmp (keyfn proto) (buildIndex cmp keyfn storage) = Some vec /\
    StronglySorted byLevel vec /\ In (ItemLevel proto, ItemId proto) vec.
Proof.
  intros [Hin Hgear].
  assert (Hrow : In (ItemLevel proto, ItemId proto)
                    (indexRows cmp keyfn (scannedEntries storage) (keyfn proto))).
  { apply (indexRows_in cmp keyfn cmp_eq). exists proto. auto. }
  rewrite (index_find cmp keyfn cmp_eq).
  destruct (indexRows cmp keyfn (scannedEntries storage) (keyfn proto))
    as [|r rows] eqn:Erows; [destruct Hrow|].
  exists (sortByLevel (r :: rows)). split; [reflexivity|].
  split; [apply sortByLevel_sorted|]. now apply sortByLevel_in.
Qed.

Lemma drawable_candidate (candidates : list N) id :
  In id candidates ->
  exists i, (i < List.length candidates)%nat /\ nth i candidates 0 = id.
Proof. intros Hin. destruct (In_nth _ _ 0 Hin) as [i [Hi Hn]]. eauto. Qed.

(** X10 -- The downgrade selector misses no candidate: every stored, equippable
    prototype of the target's category key with a strictly lower item level
    and another id is in the candidate list (the scan may stop at the first
    entry that is not lower because the vector is sorted), and some draw
    makes [PickDowngradeEntry] return it. *)
Theorem downgrade_reaches_every_lower_item storage targetProto proto :
  catalogItem storage proto ->
  keyOf proto = keyOf targetProto ->
  ItemLevel proto < ItemLevel targetProto ->
  ItemId proto <> ItemId targetProto ->
  In (ItemId proto) (downgradeCandidatesOf storage targetProto) /\
  (N.of_nat (List.length storage) <= 4294967296 ->
   exists i, forall g,
     PickDowngradeEntry storage (Some targetProto) (N.of_nat i :: g)
     = (ItemId proto, g)).
Proof.
  intros Hcat Hkey Hlvl Hid.
  assert (Hin : In (ItemId proto) (downgradeCandidatesOf storage targetProto)).
  { destruct (index_holds_catalog_item ItemTypeKey_cmp keyOf ItemTypeKey_cmp_eq
                storage proto Hcat) as [vec [Hfind [Hsorted Hvec]]].
    unfold downgradeCandidatesOf, buildByType. rewrite <- Hkey, Hfind.
    rewrite lowerCandidates_sorted by exact Hsorted.
    apply in_map_iff. exists (ItemLevel proto, ItemId proto).
    split; [reflexivity|]. apply filter_In. split; [exact Hvec|].
    unfold isLower. cbn [fst snd].
    destruct (N.ltb_spec (ItemLevel proto) (ItemLevel targetProto)); [|lia].
    destruct (N.eqb_spec (ItemId proto) (ItemId targetProto)); [contradiction|].
    reflexivity. }
  split; [exact Hin|]. intros Hfit.
  destruct (drawable_candidate _ _ Hin) as [i [Hi Hnth]].
  exists i. intros g.
  rewrite PickDowngradeEntry_candidates by lia.
  pose proof (downgradeCandidatesOf_length storage targetProto) as Hlen.
  destruct (downgradeCandidatesOf storage targetProto) as [|c cs] eqn:E;
    [destruct Hin|].
  rewrite pickCandidate_at by lia. now rewrite Hnth.
Qed.

Lemma downgrade_reaches_every_lower_item_witness :
  In 100 (downgradeCandidatesOf scenarioStorage (mkProto 300 2 7 13 30)) /\
  In 200 (downgradeCandidatesOf scenarioStorage (mkProto 300 2 7 13 30)).
Proof.
  split.
  - apply (downgrade_reaches_every_lower_item scenarioStorage
             (mkProto 300 2 7 13 30) (mkProto 100 2 7 13 10)).
    + split; [|reflexivity]. now apply (nth_error_In _ 99%nat).
    + reflexivity.
    + reflexivity.
    + discriminate.
  - apply (downgrade_reaches_every_lower_item scenarioStorage
             (mkProto 300 2 7 13 30) (mkProto 200 2 7 13 20)).
    + split; [|reflexivity]. now apply (nth_error_In _ 199%nat).
    + reflexivity.
    + reflexivity.
    + discriminate.
Defined.

(** X11 -- The upgrade selector misses no candidate: when the upper bound
    level + delta fits 32 bits, every stored, equippable prototype of the
    target's class whose item level lies in [level, level + delta] and whose
    id is another one is in the candidate list, whatever its subclass and
    slot type, and some draw makes [PickUpgradeEntrySameClass] return it. *)
Theorem upgrade_reaches_every_item_in_range storage targetProto maxIlvlDelta proto :
  ItemLevel targetProto + maxIlvlDelta < 4294967296 ->
  catalogItem storage proto ->
  Class proto = Class targetProto ->
  ItemLevel targetProto <= ItemLevel proto <= ItemLevel targetProto + maxIlvlDelta ->
  ItemId proto <> ItemId targetProto ->
  In (ItemId proto) (upgradeCandidatesOf storage targetProto maxIlvlDelta) /\
  (N.of_nat (List.length storage) <= 4294967296 ->
   exists i, forall g,
     PickUpgradeEntrySameClass storage (Some targetProto) maxIlvlDelta (N.of_nat i :: g)
     = (ItemId proto, g)).
Proof.
  intros Hfits Hcat Hclass Hlvl Hid.
  assert (Hin : In (ItemId proto) (upgradeCandidatesOf storage targetProto maxIlvlDelta)).
  { destruct (index_holds_catalog_item N.compare Class N_cmp_eq storage proto Hcat)
      as [vec [Hfind [Hsorted Hvec]]].
    unfold upgradeCandidatesOf, buildByClass. rewrite <- Hclass, Hfind.
    rewrite upgradeCandidates_sorted by exact Hsorted.
    apply in_map_iff. exists (ItemLevel proto, ItemId proto).
    split; [reflexivity|]. apply filter_In. split; [exact Hvec|].
    unfold isWithin. cbn [fst snd]. rewrite wrap32_small by exact Hfits.
    destruct (N.leb_spec (ItemLevel targetProto) (ItemLevel proto)); [|lia].
    destruct (N.leb_spec (ItemLevel proto) (ItemLevel targetProto + maxIlvlDelta));
      [|lia].
    destruct (N.eqb_spec (ItemId proto) (ItemId targetProto)); [contradiction|].
    reflexivity. }
  split; [exact Hin|]. intros Hfit.
  destruct (drawable_candidate _ _ Hin) as [i [Hi Hnth]].
  exists i. intros g.
  rewrite PickUpgradeEntry_candidates.
  pose proof (upgradeCandidatesOf_length storage targetProto maxIlvlDelta) as Hlen.
  destruct (upgradeCandidatesOf storage targetProto maxIlvlDelta) as [|c cs] eqn:E;
    [destruct Hin|].
  rewrite pickCandidate_at by lia. now rewrite Hnth.
Qed.

Lemma upgrade_reaches_every_item_in_range_witness :
  let storage :=
    storageOf [mkProto 1 2 7 13 18; mkProto 2 2 7 13 20; mkProto 3 2 8 17 25;
               mkProto 4 2 7 13 26] 5 in
  In 3 (upgradeCandidatesOf storage (mkProto 2 2 7 13 20) 5).
Proof.
  intros storage.
  apply (upgrade_reaches_every_item_in_range storage (mkProto 2 2 7 13 20) 5
           (mkProto 3 2 8 17 25)).
  - reflexivity.
  - split; [|reflexivity]. vm_compute. tauto.
  - reflexivity.
  - cbn. lia.
  - discriminate.
Defined.

(** ** The swap once the pre-check has passed *)

Section SwapCommit.
Context {Inv : Type}.
Variable svc : InventoryService Inv.

(** X12 -- Once the pre-check of a swap has passed, the old item is destroyed
    whatever happens next, one placement is attempted on the inventory
    without it, and the routine returns exactly whether the host handed back
    the new item: an equipped target is re-equipped at the validated
    destination; a carried target is stored at its old position when that
    position passes the check made after the destruction, otherwise at the
    destination validated beforehand.  If the host hands back nothing, the
    routine returns false with the old item gone. *)
Theorem swap_destroys_once_validated player targetItem newEntry (w : World Inv) :
  newEntry <> 0 ->
  precheck svc targetItem newEntry (inv w) = Some EQUIP_ERR_OK ->
  let run := TryDowngradeItemInPlace svc (Some player) (Some targetItem) newEntry w in
  let bag := bagSlot targetItem in
  let slot := slot targetItem in
  let destroyed := DestroyItem svc (inv w) bag slot in
  exists pre attempt,
    events (snd run) = events w ++ pre ++ [EvDestroyItem bag slot] ++ attempt /\
    forallb isDestroyItem pre = false /\
    ((IsEquipmentPos svc bag slot = true /\
      exists dest,
        CanEquipNewItem svc (inv w) slot newEntry true = (EQUIP_ERR_OK, dest) /\
        attempt = [EvEquipNewItem dest newEntry (fst run)] /\
        EquipNewItem svc destroyed dest newEntry = (fst run, inv (snd run)))
     \/
     (IsEquipmentPos svc bag slot = false /\
      exists destAny prop,
        CanStoreNewItem svc (inv w) NULL_BAG NULL_SLOT newEntry 1
        = (EQUIP_ERR_OK, destAny) /\
        let recheck := CanStoreNewItem svc destroyed bag slot newEntry 1 in
        let dest := if fst recheck =? EQUIP_ERR_OK then snd recheck else destAny in
        attempt = [EvCanStoreNewItem bag slot newEntry (fst recheck);
                   EvStoreNewItem dest newEntry (fst run)] /\
        StoreNewItem svc destroyed dest newEntry prop = (fst run, inv (snd run)))).
Proof.
  intros Hnz Hpre run bag slot0 destroyed. subst run.
  destruct (TryDowngradeItemInPlace_runs svc player targetItem newEntry w)
    as [tr [Hev [_ [_ [_ Hcases]]]]].
  fold bag slot0 in Hcases. fold destroyed in Hcases.
  destruct Hcases as
    [[_ [_ [_ [_ [Hz|Hnone]]]]]
    |[[msg [Hmsg [Hpre' _]]]
    |[[dest [placed [Heq [Hc [He [Hr ->]]]]]]
    |[destAny [msg' [destSame [dest [prop [placed [Heq [Hc [Hc' [Hd [Hs [Hr ->]]]]]]]]]]]]]]].
  - contradiction.
  - congruence.
  - congruence.
  - exists [EvCanEquipNewItem slot0 newEntry EQUIP_ERR_OK],
           [EvEquipNewItem dest newEntry placed].
    split; [exact Hev|]. split; [reflexivity|]. left. split; [exact Heq|].
    exists dest. rewrite Hr. auto.
  - exists [EvCanStoreNewItem NULL_BAG NULL_SLOT newEntry EQUIP_ERR_OK],
           [EvCanStoreNewItem bag slot0 newEntry msg';
            EvStoreNewItem dest newEntry placed].
    split; [exact Hev|]. split; [reflexivity|]. right. split; [exact Heq|].
    exists destAny, prop. split; [exact Hc|]. cbv zeta.
    rewrite Hc'. cbn [fst snd]. rewrite <- Hd, Hr. auto.
Qed.
End SwapCommit.

Lemma swap_destroys_once_validated_witness :
  TryDowngradeItemInPlace toyInventory (Some 7) (Some carriedSword) 100 toyWorld
  = (true,
     mkWorld [(255, 24, 100); (255, 15, 200)] emptySlots noEffects emptyCache []
       [EvCanStoreNewItem NULL_BAG NULL_SLOT 100 EQUIP_ERR_OK;
        EvDestroyItem 255 24;
        EvCanStoreNewItem 255 24 100 EQUIP_ERR_OK;
        EvStoreNewItem [(255 * 256 + 24, 1)] 100 true]) /\
  (let run := TryDowngradeItemInPlace refusingInventory (Some 7) (Some wornSword)
                100 toyWorld in
   fst run = false /\ inv (snd run) = [(255, 24, 300)]).
Proof.
  split; [reflexivity|].
  destruct (swap_destroys_once_validated refusingInventory 7 wornSword 100 toyWorld)
    as [pre [attempt [_ [_ [[_ [dest [_ [_ Hplace]]]]|[Heq _]]]]]];
    [discriminate|reflexivity| |discriminate Heq].
  split; [exact (eq_sym (f_equal fst Hplace))|].
  exact (eq_sym (f_equal snd Hplace)).
Defined.

(** ** Clearing on its own *)

Lemma prop_slots_NoDup : NoDup SLAMROCK_ALL_PROP_SLOTS.
Proof. repeat (constructor; [simpl; intuition discriminate|]); constructor. Qed.

Lemma cleared_live item e l :
  let l1 := if slot item <? EQUIPMENT_SLOT_END
            then fold_left (effectAfter item e false) SLAMROCK_ALL_PROP_SLOTS l
            else l in
  (liveConsistent item e l ->
   forall s, In s SLAMROCK_ALL_PROP_SLOTS -> getSlot l1 s = []) /\
  perm l1 = perm l /\ temp l1 = temp l.
Proof.
  intros l1. pose proof prop_slots_NoDup as Hnd4.
  split; [|split].
  - intros Hc s Hs. specialize (Hc s Hs). unfold l1.
    destruct (IsEquipped item) eqn:Eq.
    + rewrite (IsEquipped_slot _ Eq), fold_effect_get by exact Hnd4.
      assert (Hex : existsb (fun s0 => slot_eqb s0 s) SLAMROCK_ALL_PROP_SLOTS = true).
      { apply existsb_exists. exists s. split; [exact Hs|now apply slot_eqb_eq]. }
      rewrite Hex, Hc. unfold effectValue. rewrite Eq. cbn [andb].
      destruct (getSlot e s =? 0); cbn [negb]; [reflexivity|].
      cbn [removeOne]. now rewrite N.eqb_refl.
    + cbn [andb] in Hc.
      destruct (slot item <? EQUIPMENT_SLOT_END); [|exact Hc].
      rewrite fold_effect_get by exact Hnd4.
      rewrite effectValue_not_equipped by exact Eq.
      now destruct (existsb _ _).
  - unfold l1. destruct (slot item <? EQUIPMENT_SLOT_END); [|reflexivity].
    change (getSlot (fold_left (effectAfter item e false) SLAMROCK_ALL_PROP_SLOTS l)
                    PERM_ENCHANTMENT_SLOT = getSlot l PERM_ENCHANTMENT_SLOT).
    rewrite fold_effect_get by exact Hnd4. reflexivity.
  - unfold l1. destruct (slot item <? EQUIPMENT_SLOT_END); [|reflexivity].
    change (getSlot (fold_left (effectAfter item e false) SLAMROCK_ALL_PROP_SLOTS l)
                    TEMP_ENCHANTMENT_SLOT = getSlot l TEMP_ENCHANTMENT_SLOT).
    rewrite fold_effect_get by exact Hnd4. reflexivity.
Qed.

Lemma cleared_live_again item e l :
  fold_left (effectAfter item (clearedSlots e) false) SLAMROCK_ALL_PROP_SLOTS l = l.
Proof.
  unfold SLAMROCK_ALL_PROP_SLOTS, effectAfter, clearedSlots.
  cbn [fold_left getSlot prop0 prop1 prop2 prop3 N.eqb negb].
  now rewrite !andb_false_r.
Qed.

Lemma clearedSlots_idem e : clearedSlots (clearedSlots e) = clearedSlots e.
Proof.
  unfold clearedSlots. cbn [perm temp].
  destruct (N.eqb_spec (perm e) SLAMROCK_MARKER_ENCHANT_ID) as [Hm|Hm].
  - reflexivity.
  - destruct (N.eqb_spec (perm e) SLAMROCK_MARKER_ENCHANT_ID); [contradiction|].
    reflexivity.
Qed.

Section ClearAlone.
Context {Inv : Type}.

(** X13 -- [ClearSlamrockEnchants] empties the four property slots, keeps the
    temporary slot, never leaves the marker in the permanent slot, and
    touches neither the inventory, the random source nor the whitelist cache;
    on an item whose live effects agree with its slots it leaves no live
    effect of a property slot behind; clearing twice is the same as clearing
    once; and without a player or without an item it does nothing. *)
Theorem clear_is_idempotent_and_drops_effects player item (w : World Inv) :
  let once := snd (ClearSlamrockEnchants (Some player) (Some item) w) in
  let twice := snd (ClearSlamrockEnchants (Some player) (Some item) once) in
  (enchants twice = enchants once /\ live twice = live once) /\
  (forall s, In s SLAMROCK_ALL_PROP_SLOTS -> getSlot (enchants once) s = 0) /\
  temp (enchants once) = temp (enchants w) /\
  perm (enchants once) <> SLAMROCK_MARKER_ENCHANT_ID /\
  (liveConsistent item (enchants w) (live w) ->
   forall s, In s SLAMROCK_ALL_PROP_SLOTS -> getSlot (live once) s = []) /\
  (perm (live once) = perm (live w) /\ temp (live once) = temp (live w)) /\
  (inv once = inv w /\ rng once = rng w /\ cache once = cache w) /\
  (ClearSlamrockEnchants None (Some item) w = (tt, w) /\
   ClearSlamrockEnchants (Some player) None w = (tt, w)).
Proof.
  intros once twice. subst twice once.
  destruct (ClearSlamrockEnchants_eq player item w) as [tr [Heq _]].
  rewrite Heq. cbn [snd].
  destruct (ClearSlamrockEnchants_eq player item
              (mkWorld (inv w) (clearedSlots (enchants w))
                 (if slot item <? EQUIPMENT_SLOT_END
                  then fold_left (effectAfter item (enchants w) false)
                                 SLAMROCK_ALL_PROP_SLOTS (live w)
                  else live w)
                 (cache w) (rng w) (events w ++ tr))) as [tr2 [Heq2 _]].
  rewrite Heq2. cbn [snd enchants live inv rng cache].
  destruct (cleared_live item (enchants w) (live w)) as [Hdrop [Hperm Htemp]].
  split.
  { split; [apply clearedSlots_idem|].
    destruct (slot item <? EQUIPMENT_SLOT_END); [|reflexivity].
    apply cleared_live_again. }
  split.
  { intros s Hs. unfold SLAMROCK_ALL_PROP_SLOTS in Hs. simpl in Hs.
    destruct Hs as [<-|[<-|[<-|[<-|[]]]]]; reflexivity. }
  split; [reflexivity|].
  split; [apply clearedSlots_perm|].
  split; [exact Hdrop|].
  split; [split; assumption|].
  split; [repeat split|]. split; reflexivity.
Qed.
End ClearAlone.

Lemma clear_is_idempotent_and_drops_effects_witness :
  let w := mkWorld tt (mkSlots SLAMROCK_MARKER_ENCHANT_ID 77 SLAMROCK_MARKER_ENCHANT_ID 5 0 6)
             (mkSlots [] [77] [SLAMROCK_MARKER_ENCHANT_ID] [5] [] [6])
             emptyCache [] [] in
  let once := snd (ClearSlamrockEnchants (Some 7) (Some wornSword) w) in
  enchants once = mkSlots 0 77 0 0 0 0 /\
  live once = mkSlots [] [77] [] [] [] [].
Proof.
  intros w once.
  destruct (clear_is_idempotent_and_drops_effects 7 wornSword w)
    as [_ [_ [_ [_ [Hdrop _]]]]].
  split; [reflexivity|].
  assert (Hc : liveConsistent wornSword (enchants w) (live w)).
  { intros s Hs. simpl in Hs.
    destruct Hs as [<-|[<-|[<-|[<-|[]]]]]; reflexivity. }
  specialize (Hdrop Hc). fold once in Hdrop.
  pose proof (Hdrop PROP_ENCHANTMENT_SLOT_1 ltac:(simpl; tauto)) as H1.
  reflexivity.
Defined.

(** ** The calls of the reconciler *)

Section ReconcilerCalls.
Context {Inv : Type}.

Lemma refreshWeaponDamage_events item (w : World Inv) :
  refreshWeaponDamage item w =
  (tt, mkWorld (inv w) (enchants w) (live w) (cache w) (rng w)
               (events w ++ refreshEvents (slot item))).
Proof.
  unfold refreshWeaponDamage, refreshEvents.
  destruct (slot item =? EQUIPMENT_SLOT_MAINHAND); [reflexivity|].
  destruct (slot item =? EQUIPMENT_SLOT_OFFHAND); [reflexivity|].
  destruct (slot item =? EQUIPMENT_SLOT_RANGED); [reflexivity|].
  unfold ret. now rewrite app_nil_r, world_eta.
Qed.

Lemma ClearSlamrockEnchants_events player item (w : World Inv) :
  events (snd (ClearSlamrockEnchants (Some player) (Some item) w))
  = events w ++ clearCalls (slot item).
Proof.
  unfold ClearSlamrockEnchants, clearCalls.
  destruct (slot item <? EQUIPMENT_SLOT_END) eqn:Eslot.
  - rewrite bind_eq.
    rewrite (bind_eq (forM_ SLAMROCK_ALL_PROP_SLOTS _) (fun _ => refreshWeaponDamage item)).
    rewrite removeEffects_eq. cbn [fst snd].
    rewrite refreshWeaponDamage_events.
    destruct (perm (enchants w) =? SLAMROCK_MARKER_ENCHANT_ID) eqn:Ep;
      run_script; rewrite Ep; run_script; rewrite <- !app_assoc; reflexivity.
  - destruct (perm (enchants w) =? SLAMROCK_MARKER_ENCHANT_ID) eqn:Ep;
      run_script; rewrite Ep; run_script; now rewrite app_nil_r.
Qed.

Lemma ApplyMarkerAndModifiers_events item rolled (w : World Inv) :
  events (snd (ApplyMarkerAndModifiers item rolled w))
  = events w ++ applyCalls (slot item) rolled.
Proof.
  unfold ApplyMarkerAndModifiers, applyCalls.
  destruct (slot item <? EQUIPMENT_SLOT_END) eqn:Eslot;
    destruct (perm (enchants w) =? 0) eqn:Ep;
    destruct rolled as [|a [|b [|c rest]]];
    run_script; rewrite ?Ep; run_script; rewrite ?Eslot; run_script;
    rewrite ?refreshWeaponDamage_events; run_script;
    rewrite <- ?app_assoc; reflexivity.
Qed.

Lemma clearThenApply_events player item rolled (w : World Inv) :
  events (snd (clearThenApply player item rolled w))
  = events w ++ clearCalls (slot item) ++ applyCalls (slot item) rolled.
Proof.
  unfold clearThenApply. rewrite bind_eq, ApplyMarkerAndModifiers_events.
  rewrite ClearSlamrockEnchants_events. now rewrite <- app_assoc.
Qed.

Lemma unequipped_live_unchanged item e b slots : forall l,
  IsEquipped item = false -> fold_left (effectAfter item e b) slots l = l.
Proof.
  induction slots as [|s slots IH]; intros l Heq; cbn [fold_left]; [reflexivity|].
  unfold effectAfter at 2. rewrite Heq. cbn [andb]. now apply IH.
Qed.

(** X14 -- The reconciler decides what to tell the player from the target's
    slot index alone.  For a slot index of 19 or more, clearing makes no call
    and applying only marks the item changed.  For a lower index, whatever
    bag the item is in, clearing removes the effects of the four property
    slots, refreshes the weapon damage of the one attack type that belongs to
    the index (15 main hand, 16 off hand, 17 ranged, none otherwise) and
    resets the visible item of that slot, and applying does the same with the
    marker slot and one modifier slot per rolled id.  On an item that is not
    equipped the calls change no live effect. *)
Theorem reconciler_calls_follow_slot_index player item rolled (w : World Inv) :
  let run := clearThenApply player item rolled w in
  events (snd run) = events w ++ clearCalls (slot item) ++ applyCalls (slot item) rolled /\
  (EQUIPMENT_SLOT_END <= slot item ->
   events (snd run) = events w ++ [EvSetStateChanged]) /\
  (slot item < EQUIPMENT_SLOT_END ->
   In (EvSetVisibleItemSlot (slot item)) (clearCalls (slot item)) /\
   filter (fun e => match e with EvUpdateDamagePhysical _ => true | _ => false end)
          (clearCalls (slot item))
   = refreshEvents (slot item)) /\
  (IsEquipped item = false -> live (snd run) = live w).
Proof.
  intros run. subst run.
  split; [apply clearThenApply_events|].
  split.
  { intros Hslot. rewrite clearThenApply_events. unfold clearCalls, applyCalls.
    destruct (N.ltb_spec (slot item) EQUIPMENT_SLOT_END); [lia|]. reflexivity. }
  split.
  { intros Hslot. unfold clearCalls.
    destruct (N.ltb_spec (slot item) EQUIPMENT_SLOT_END); [|lia].
    split; [apply in_or_app; right; apply in_or_app; right; now left|].
    rewrite !filter_app. unfold refreshEvents.
    destruct (slot item =? EQUIPMENT_SLOT_MAINHAND); [reflexivity|].
    destruct (slot item =? EQUIPMENT_SLOT_OFFHAND); [reflexivity|].
    destruct (slot item =? EQUIPMENT_SLOT_RANGED); reflexivity. }
  intros Heq.
  destruct (clearThenApply_eq player item rolled w) as [tr [Hrun _]].
  rewrite Hrun. cbn [snd live].
  destruct (slot item <? EQUIPMENT_SLOT_END); [|reflexivity].
  now rewrite !unequipped_live_unchanged.
Qed.
End ReconcilerCalls.

Lemma reconciler_calls_follow_slot_index_witness :
  let inBag := mkItem (Some (mkProto 300 2 7 13 30)) 300 (Some 7) 0 20 15 in
  let w := mkWorld tt emptySlots noEffects emptyCache [] [] in
  IsEquipped inBag = false /\
  events (snd (clearThenApply 7 inBag [5] w))
  = [EvApplyEnchantment PROP_ENCHANTMENT_SLOT_0 false;
     EvApplyEnchantment PROP_ENCHANTMENT_SLOT_1 false;
     EvApplyEnchantment PROP_ENCHANTMENT_SLOT_2 false;
     EvApplyEnchantment PROP_ENCHANTMENT_SLOT_3 false;
     EvUpdateDamagePhysical BASE_ATTACK; EvSetVisibleItemSlot 15;
     EvSetStateChanged;
     EvApplyEnchantment PROP_ENCHANTMENT_SLOT_0 true;
     EvApplyEnchantment PROP_ENCHANTMENT_SLOT_1 true;
     EvUpdateDamagePhysical BASE_ATTACK; EvSetVisibleItemSlot 15] /\
  live (snd (clearThenApply 7 inBag [5] w)) = noEffects /\
  events (snd (clearThenApply 7 carriedSword [5] w)) = [EvSetStateChanged].
Proof.
  intros inBag w.
  destruct (reconciler_calls_follow_slot_index 7 inBag [5] w) as [Hev [_ [_ Hlive]]].
  destruct (reconciler_calls_follow_slot_index 7 carriedSword [5] w)
    as [_ [Hbag _]].
  split; [reflexivity|]. split; [rewrite Hev; reflexivity|].
  split; [apply Hlive; reflexivity|].
  apply Hbag. unfold EQUIPMENT_SLOT_END, carriedSword. cbn [slot]. lia.
Defined.

(** ** What a committed application leaves on the item *)

Lemma appliedSlots_modifiers rolled e :
  let e' := appliedSlots rolled (clearedSlots e) in
  prop1 e' = nth 0 rolled 0 /\ prop2 e' = nth 1 rolled 0 /\ prop3 e' = nth 2 rolled 0.
Proof.
  unfold appliedSlots.
  destruct (perm (clearedSlots e) =? 0);
    destruct rolled as [|a [|b [|c rest]]]; repeat split; reflexivity.
Qed.

Lemma rolled_as_reported (rolled : list N) :
  (List.length rolled <= 3)%nat ->
  firstn (List.length rolled) [nth 0 rolled 0; nth 1 rolled 0; nth 2 rolled 0] = rolled.
Proof.
  destruct rolled as [|a [|b [|c [|d rest]]]]; cbn; intros H; try reflexivity; lia.
Qed.

Section AppliedReport.
Context {Inv : Type}.
Variable svc : InventoryService Inv.
Variable env : Env.

(** X15 -- The report of an applied roll tells what is on the item.  Whenever
    a run notifies "empowered with count modifiers (e0, e1, e2)", count is
    between 1 and 3, the three modifier slots of the target hold exactly e0,
    e1 and e2 (0 in the slots beyond count), and each of the count reported
    ids is the enchantment id of a whitelist row that is eligible at the
    target's item level and belongs to the list for the target's kind: the
    weapon list for a weapon, the armor list for anything else. *)
Theorem report_matches_modifier_slots player slamrock target (w : World Inv) :
  let run := ItemUse_item_slamrock svc env (Some player) (Some slamrock) target w in
  exists tr,
    events (snd run) = events w ++ tr /\
    forall count e0 e1 e2,
      In (EvNotification (EmpoweredWith count e0 e1 e2)) tr ->
      1 <= count <= 3 /\
      prop1 (enchants (snd run)) = e0 /\
      prop2 (enchants (snd run)) = e1 /\
      prop3 (enchants (snd run)) = e2 /\
      (count < 2 -> e1 = 0) /\ (count < 3 -> e2 = 0) /\
      exists item,
        target = Some item /\
        forall id, In id (firstn (N.to_nat count) [e0; e1; e2]) ->
          exists row,
            In row (if IsWeaponTarget target
                    then weapon (cacheAfterLoad env (cache w))
                    else armor (cacheAfterLoad env (cache w))) /\
            eligible (itemLevelOf item) row /\ enchantId row = id.
Proof.
  intros run.
  destruct (ItemUse_outcomes svc env player slamrock target w)
    as [tr [_ [Hev Hout]]]. fold run in Hev, Hout.
  exists tr. split; [exact Hev|].
  intros count e0 e1 e2 Hin.
  destruct Hout as
    [[_ [_ [_ [_ [Hnn _]]]]]
    |[[_ [_ [_ [_ [_ Hnn]]]]]
    |[_ [_ [item [rolled Happlied]]]]]].
  - apply Hnn in Hin. discriminate.
  - apply Hnn in Hin. destruct Hin as [Hin|[e [Hin|Hin]]]; try discriminate.
    destruct target; discriminate.
  - destruct Happlied
      as [Ht [_ [Hne [Hlen [_ [_ [Hrows [Hen [_ [_ Hnn]]]]]]]]]].
    apply Hnn in Hin. destruct Hin as [Hin|Hin];
      [destruct target; discriminate|].
    injection Hin as -> -> -> ->.
    rewrite Hen, clearThenApply_enchants.
    destruct (appliedSlots_modifiers rolled (enchants w)) as [H1 [H2 H3]].
    split.
    { destruct rolled as [|a rolled']; [now elim Hne|]. cbn [List.length] in *. lia. }
    split; [exact H1|]. split; [exact H2|]. split; [exact H3|].
    split.
    { intros Hc. destruct rolled as [|a [|b rest]]; try reflexivity.
      cbn [List.length] in Hc. lia. }
    split.
    { intros Hc. destruct rolled as [|a [|b [|c rest]]]; try reflexivity.
      cbn [List.length] in Hc. lia. }
    exists item. split; [exact Ht|].
    intros id Hid. rewrite Nat2N.id, rolled_as_reported in Hid by exact Hlen.
    destruct (Hrows id Hid) as [row [Hrow [Hel Hrid]]].
    exists row. subst target. split; [exact Hrow|]. auto.
Qed.
End AppliedReport.

Lemma report_matches_modifier_slots_witness :
  let run := ItemUse_item_slamrock toyInventory scenarioEnv (Some 7) (Some 9000)
               (Some wornSword) (withRandom [50; 50; 1; 15; 0; 3; 0] toyWorld) in
  In (EvNotification (EmpoweredWith 2 2 1 0)) (events (snd run)) /\
  enchants (snd run) = mkSlots SLAMROCK_MARKER_ENCHANT_ID 0 0 2 1 0.
Proof.
  intros run.
  destruct (report_matches_modifier_slots toyInventory scenarioEnv 7 9000
              (Some wornSword) (withRandom [50; 50; 1; 15; 0; 3; 0] toyWorld))
    as [tr [Hev Hrep]]. fold run in Hev, Hrep.
  assert (Hin : In (EvNotification (EmpoweredWith 2 2 1 0)) tr).
  { vm_compute in Hev. subst tr. simpl. tauto. }
  destruct (Hrep _ _ _ _ Hin) as [_ [H1 [H2 [H3 _]]]].
  split; [rewrite Hev; apply in_or_app; now right|].
  reflexivity.
Defined.

(** ** What the hook leaves alone *)

Lemma applied_live_other item e (rolled : list N) l s :
  ~ In s SLAMROCK_ALL_PROP_SLOTS ->
  getSlot (fold_left (effectAfter item e true)
             (SLAMROCK_MARKER_SLOT :: map fst (combine SLAMROCK_MODIFIER_SLOTS rolled)) l) s
  = getSlot l s.
Proof.
  intros Hs. rewrite fold_effect_get by apply modifier_slots_NoDup.
  destruct (existsb _ _) eqn:Ex; [|reflexivity].
  exfalso. apply Hs. apply existsb_exists in Ex. destruct Ex as [x [Hin Hx]].
  apply slot_eqb_eq in Hx. subst x.
  destruct rolled as [|a [|b [|c rest]]]; simpl in Hin |- *; intuition.
Qed.

Section ForeignEnchantments.
Context {Inv : Type}.
Variable svc : InventoryService Inv.
Variable env : Env.

Lemma clearThenApply_keeps player item rolled (w : World Inv) :
  let after := snd (clearThenApply player item rolled w) in
  temp (enchants after) = temp (enchants w) /\
  temp (live after) = temp (live w) /\ perm (live after) = perm (live w) /\
  (perm (enchants w) <> 0 -> perm (enchants w) <> SLAMROCK_MARKER_ENCHANT_ID ->
   perm (enchants after) = perm (enchants w)) /\
  (perm (enchants w) = 0 \/ perm (enchants w) = SLAMROCK_MARKER_ENCHANT_ID ->
   perm (enchants after) = SLAMROCK_MARKER_ENCHANT_ID).
Proof.
  intros after. subst after.
  destruct (clearThenApply_eq player item rolled w) as [tr [Heq _]].
  rewrite Heq. cbn [snd enchants live].
  destruct (clearedSlots_perm (enchants w)) as [_ [Hkeep Hdrop]].
  destruct (appliedSlots_marker rolled (clearedSlots (enchants w))) as [Ht [Hz Hnz]].
  destruct (cleared_live item (enchants w) (live w)) as [_ [Hp1 Ht1]].
  split; [exact Ht|].
  split.
  { destruct (slot item <? EQUIPMENT_SLOT_END); [|reflexivity].
    change (temp ?x) with (getSlot x TEMP_ENCHANTMENT_SLOT).
    rewrite applied_live_other by (simpl; intuition discriminate).
    rewrite fold_effect_get by apply prop_slots_NoDup. reflexivity. }
  split.
  { destruct (slot item <? EQUIPMENT_SLOT_END); [|reflexivity].
    change (perm ?x) with (getSlot x PERM_ENCHANTMENT_SLOT).
    rewrite applied_live_other by (simpl; intuition discriminate).
    rewrite fold_effect_get by apply prop_slots_NoDup. reflexivity. }
  split.
  { intros H0 Hm. rewrite <- (Hkeep Hm). apply Hnz. now rewrite Hkeep. }
  intros [H0|Hm].
  - apply Hz. rewrite Hkeep; [exact H0|]. rewrite H0. discriminate.
  - apply Hz. now apply Hdrop.
Qed.

(** X16 -- The hook keeps its data out of the slots of other systems: in
    every run that does not destroy the target (no DestroyItem call on it, so
    no swap went past its validation), the temporary enchantment of the
    target and the live effects of its temporary and permanent slots are what
    they were; a permanent enchantment that is neither absent nor the marker
    stays in place; and the permanent slot only ever changes to the marker
    id. *)
Theorem hook_keeps_foreign_enchantments pPlayer pItem target (w : World Inv) tr :
  let run := ItemUse_item_slamrock svc env pPlayer pItem target w in
  events (snd run) = events w ++ tr ->
  existsb isDestroyItem tr = false ->
  temp (enchants (snd run)) = temp (enchants w) /\
  temp (live (snd run)) = temp (live w) /\
  perm (live (snd run)) = perm (live w) /\
  (perm (enchants w) <> 0 -> perm (enchants w) <> SLAMROCK_MARKER_ENCHANT_ID ->
   perm (enchants (snd run)) = perm (enchants w)) /\
  (perm (enchants (snd run)) = perm (enchants w) \/
   perm (enchants (snd run)) = SLAMROCK_MARKER_ENCHANT_ID).
Proof.
  intros run _ _.
  assert (Hsame : enchants (snd run) = enchants w -> live (snd run) = live w ->
            temp (enchants (snd run)) = temp (enchants w) /\
            temp (live (snd run)) = temp (live w) /\
            perm (live (snd run)) = perm (live w) /\
            (perm (enchants w) <> 0 ->
             perm (enchants w) <> SLAMROCK_MARKER_ENCHANT_ID ->
             perm (enchants (snd run)) = perm (enchants w)) /\
            (perm (enchants (snd run)) = perm (enchants w) \/
             perm (enchants (snd run)) = SLAMROCK_MARKER_ENCHANT_ID)).
  { intros -> ->. repeat split; auto. }
  destruct pPlayer as [player|]; [|now apply Hsame].
  destruct pItem as [slamrock|]; [|now apply Hsame].
  destruct (ItemUse_outcomes svc env player slamrock target w)
    as [tr' [_ [_ Hout]]]. fold run in Hout.
  destruct Hout as
    [[_ [Hen [Hli _]]]
    |[[_ [Hen [Hli _]]]
    |[_ [_ [item [rolled Happlied]]]]]].
  - now apply Hsame.
  - now apply Hsame.
  - destruct Happlied as [_ [_ [_ [_ [_ [_ [_ [Hen [Hli _]]]]]]]]].
    rewrite Hen, Hli.
    destruct (clearThenApply_keeps player item rolled w) as [H1 [H2 [H3 [H4 H5]]]].
    split; [exact H1|]. split; [exact H2|]. split; [exact H3|].
    split; [exact H4|].
    destruct (N.eq_dec (perm (enchants w)) 0) as [H0|H0]; [right; auto|].
    destruct (N.eq_dec (perm (enchants w)) SLAMROCK_MARKER_ENCHANT_ID) as [Hm|Hm];
      [right; auto|left; auto].
Qed.
End ForeignEnchantments.

Lemma hook_keeps_foreign_enchantments_witness :
  let w := mkWorld [(255, 15, 200)] (mkSlots 1900 77 0 0 0 0)
             (mkSlots [1900] [77] [] [] [] []) emptyCache [50; 50; 0; 15; 0] [] in
  let run := ItemUse_item_slamrock toyInventory scenarioEnv (Some 7) (Some 9000)
               (Some wornSword) w in
  existsb isDestroyItem (events (snd run)) = false /\
  inv (snd run) = [(255, 15, 200)] /\
  enchants (snd run) = mkSlots 1900 77 SLAMROCK_MARKER_ENCHANT_ID 2 0 0 /\
  perm (enchants (snd run)) = 1900 /\
  temp (live (snd run)) = [77].
Proof.
  intros w run.
  split; [reflexivity|]. split; [reflexivity|]. split; [reflexivity|].
  destruct (hook_keeps_foreign_enchantments toyInventory scenarioEnv (Some 7)
              (Some 9000) (Some wornSword) w (events (snd run)))
    as [_ [Ht [_ [Hkeep _]]]]; [reflexivity|reflexivity|].
  split; [apply Hkeep; discriminate|exact Ht].
Defined.

(** ** The whitelist cache *)

Lemma cacheAfterLoad_flags env c :
  negb (loaded (cacheAfterLoad env c)) && negb (attemptedLoad (cacheAfterLoad env c))
  = false.
Proof.
  unfold cacheAfterLoad.
  destruct (negb (loaded c) && negb (attemptedLoad c)) eqn:E; [reflexivity|exact E].
Qed.

Lemma cacheAfterLoad_stable env' c :
  negb (loaded c) && negb (attemptedLoad c) = false -> cacheAfterLoad env' c = c.
Proof. unfold cacheAfterLoad. now intros ->. Qed.

Section WhitelistCache.
Context {Inv : Type}.
Variable svc : InventoryService Inv.

Lemma ItemUse_cache env player slamrock target (w : World Inv) :
  let run := ItemUse_item_slamrock svc env (Some player) (Some slamrock) target w in
  exists tr,
    events (snd run) = events w ++ tr /\
    ((cache (snd run) = cache w /\
      forall n, In (EvNotification n) tr -> isModifierStageReport n = false)
     \/
     cache (snd run) = cacheAfterLoad env (cache w)).
Proof.
  intros run.
  destruct (ItemUse_shape svc env player slamrock target w)
    as [[_ [more [Hrun Hmore]]]
       |[item [sw [-> [_ [Hswap [[_ [_ [_ [Hca [n [e [Hn Hev]]]]]]]
                                |[w0 [Hev0 [_ [_ [Hca0 Hrun]]]]]]]]]]]];
    fold run in Hrun || fold run in Hev, Hca.
  - rewrite Hrun. cbn [snd events cache]. eexists. split; [reflexivity|].
    left. split; [reflexivity|]. intros n [Hin|Hin].
    + injection Hin as <-. now destruct target.
    + apply in_app_or in Hin. destruct Hin as [Hin|Hin].
      * destruct Hmore as [-> | ->]; [destruct Hin|].
        destruct Hin as [Hin|[]]. now injection Hin as <-.
      * apply replyEvents_only in Hin. destruct Hin; discriminate.
  - eexists. split; [exact Hev|]. left. split; [exact Hca|].
    intros n0 [Hin|Hin]; [now injection Hin as <-|].
    apply in_app_or in Hin. destruct Hin as [Hin|Hin].
    + rewrite forallb_forall in Hswap. apply Hswap in Hin. discriminate.
    + destruct Hin as [Hin|[Hin|[]]]; [discriminate|].
      injection Hin as <-. destruct Hn as [-> | ->]; reflexivity.
  - assert (Hc : cache (snd run) = cacheAfterLoad env (cache w0)).
    { destruct (empower_shape svc env player slamrock item w0)
        as [[_ Heq]|[[_ [_ Heq]]|[[_ [_ [_ Heq]]]|[_ [_ [_ [rt [_ Heq]]]]]]]];
        rewrite <- Hrun in Heq; rewrite Heq; reflexivity. }
    destruct (ItemUse_outcomes svc env player slamrock (Some item) w)
      as [tr [_ [Hev _]]]. fold run in Hev.
    exists tr. split; [exact Hev|]. right. now rewrite Hc, Hca0.
Qed.

(** X17 -- The whitelist is read from the database at most once.  A run of the
    hook either leaves the cache as it is or performs the lazy load; a run
    that sends a report of the modifier stage (whitelist empty, no eligible
    enchantment, empowered) has the cache loaded, a query without result
    counting as an empty list; and after such a run no later run changes the
    cache, whatever the database holds by then: an empty or failed load is
    never retried. *)
Theorem whitelist_is_loaded_at_most_once env env' player slamrock target
    player' slamrock' target' (w : World Inv) :
  let run := ItemUse_item_slamrock svc env (Some player) (Some slamrock) target w in
  let later := ItemUse_item_slamrock svc env' (Some player') (Some slamrock')
                 target' (snd run) in
  exists tr,
    events (snd run) = events w ++ tr /\
    (cache (snd run) = cache w \/
     cache (snd run)
     = mkCache true true
         (match dbWeapon env with Some rows => rows | None => [] end)
         (match dbArmor env with Some rows => rows | None => [] end)) /\
    (loaded (cache w) = true \/ attemptedLoad (cache w) = true ->
     cache (snd run) = cache w) /\
    (forall n, In (EvNotification n) tr -> isModifierStageReport n = true ->
       (loaded (cache (snd run)) = true \/ attemptedLoad (cache (snd run)) = true) /\
       cache (snd later) = cache (snd run)).
Proof.
  intros run later.
  destruct (ItemUse_cache env player slamrock target w) as [tr [Hev Hcases]].
  fold run in Hev, Hcases.
  exists tr. split; [exact Hev|].
  assert (Hstable : loaded (cache w) = true \/ attemptedLoad (cache w) = true ->
                    cacheAfterLoad env (cache w) = cache w).
  { intros H. apply cacheAfterLoad_stable.
    destruct H as [-> | ->]; [reflexivity|apply andb_false_r]. }
  split.
  { destruct Hcases as [[Hc _]|Hc]; [now left|]. rewrite Hc. unfold cacheAfterLoad.
    destruct (negb (loaded (cache w)) && negb (attemptedLoad (cache w)));
      [now right|now left]. }
  split.
  { intros H. destruct Hcases as [[Hc _]|Hc]; [exact Hc|]. rewrite Hc. now apply Hstable. }
  intros n Hin Hrep.
  destruct Hcases as [[_ Hnone]|Hc]; [rewrite (Hnone n Hin) in Hrep; discriminate|].
  pose proof (cacheAfterLoad_flags env (cache w)) as Hflags. rewrite <- Hc in Hflags.
  split.
  { destruct (loaded (cache (snd run))); [now left|].
    destruct (attemptedLoad (cache (snd run))); [now right|discriminate]. }
  destruct (ItemUse_cache env' player' slamrock' target' (snd run))
    as [tr' [_ [[Hc' _]|Hc']]]; fold later in Hc'; [exact Hc'|].
  rewrite Hc'. now apply cacheAfterLoad_stable.
Qed.
End WhitelistCache.

Lemma whitelist_is_loaded_at_most_once_witness :
  let run := ItemUse_item_slamrock toyInventory emptyEnv (Some 7) (Some 9000)
               (Some wornSword) (withRandom [50; 50] toyWorld) in
  let later := ItemUse_item_slamrock toyInventory scenarioEnv (Some 7) (Some 9000)
                 (Some wornSword) (withRandom [50; 50; 0; 0; 0] (snd run)) in
  cache (snd run) = mkCache true true [] [] /\
  cache (snd (ItemUse_item_slamrock toyInventory scenarioEnv (Some 7) (Some 9000)
                (Some wornSword) (snd run))) = cache (snd run) /\
  In (EvNotification WhitelistEmptyCannotRoll) (events (snd later)).
Proof.
  intros run later.
  destruct (whitelist_is_loaded_at_most_once toyInventory emptyEnv scenarioEnv
              7 9000 (Some wornSword) 7 9000 (Some wornSword)
              (withRandom [50; 50] toyWorld)) as [tr [Hev [_ [_ Hlater]]]].
  fold run in Hev, Hlater.
  assert (Hin : In (EvNotification WhitelistEmptyCannotRoll) tr).
  { vm_compute in Hev. subst tr. simpl. tauto. }
  destruct (Hlater _ Hin eq_refl) as [_ Hsame].
  split; [reflexivity|]. split; [exact Hsame|].
  vm_compute. tauto.
Defined.

(** ** The two chance gates *)

Section ChanceGates.
Context {Inv : Type}.
Variable svc : InventoryService Inv.
Variable env : Env.

Lemma urand_percent x g : urand 1 100 (x :: g) = (1 + x mod 100, g).
Proof. reflexivity. Qed.

(** X18 -- A swap gate whose draw is above its chance costs one draw and
    nothing else.  For an accepted target, when the first raw draw reduced
    modulo 100 is at least 2 (98 of its 100 values) and the second at least
    25 (75 of its 100 values), neither selector is consulted and no inventory
    call is made: the run is the targeting notification followed by the
    modifier stage on the rest of the random source. *)
Theorem closed_gates_go_straight_to_modifiers player slamrock item x1 x2 g
    (w : World Inv) :
  ~ targetRejected player (Some item) ->
  rng w = x1 :: x2 :: g ->
  SLAMROCK_UPGRADE_CHANCE_PCT <= x1 mod 100 ->
  SLAMROCK_DOWNGRADE_CHANCE_PCT <= x2 mod 100 ->
  ItemUse_item_slamrock svc env (Some player) (Some slamrock) (Some item) w
  = empower svc env player slamrock item
      (mkWorld (inv w) (enchants w) (live w) (cache w) g
         (events w ++ [EvNotification (TargetingItem (entry item))])).
Proof.
  intros Hacc Hrng H1 H2.
  assert (Hgear : IsReasonableGearTarget (Some item) = true).
  { destruct (IsReasonableGearTarget (Some item)) eqn:E; [reflexivity|].
    elim Hacc. now left. }
  assert (Hown : match owner item with Some guid => guid =? player | None => false end
                 = true).
  { destruct (owner item) as [guid|] eqn:E.
    - destruct (N.eqb_spec guid player) as [->|Hne]; [reflexivity|].
      elim Hacc. right. left. congruence.
    - elim Hacc. right. left. congruence. }
  assert (Hrp : (randomPropertyId item =? 0) = true).
  { destruct (N.eqb_spec (randomPropertyId item) 0) as [_|Hne]; [reflexivity|].
    elim Hacc. right. right. exact Hne. }
  unfold ItemUse_item_slamrock.
  rewrite bind_eq, emit_eq. cbn [fst snd].
  rewrite Hgear, Hown, Hrp. cbn [negb].
  rewrite bind_eq, swapGate_closed;
    [|cbn [rng]; rewrite Hrng, urand_percent; cbn [fst];
      unfold SLAMROCK_UPGRADE_CHANCE_PCT in *; lia].
  cbn [fst snd rng]. rewrite Hrng, urand_percent. cbn [snd].
  rewrite bind_eq, swapGate_closed;
    [|unfold withRandom; cbn [rng]; rewrite urand_percent; cbn [fst];
      unfold SLAMROCK_DOWNGRADE_CHANCE_PCT in *; lia].
  cbn [fst snd]. unfold withRandom. cbn [rng inv enchants live cache events].
  rewrite urand_percent. reflexivity.
Qed.
End ChanceGates.

Lemma closed_gates_go_straight_to_modifiers_witness :
  ItemUse_item_slamrock toyInventory scenarioEnv (Some 7) (Some 9000) (Some wornSword)
    (withRandom [150; 225; 0; 0; 0] toyWorld)
  = empower toyInventory scenarioEnv 7 9000 wornSword
      (mkWorld (inv toyWorld) emptySlots noEffects emptyCache [0; 0; 0]
         [EvNotification (TargetingItem 200)]).
Proof.
  apply (closed_gates_go_straight_to_modifiers toyInventory scenarioEnv 7 9000
           wornSword 150 225 [0; 0; 0] (withRandom [150; 225; 0; 0; 0] toyWorld)).
  - intros [H|[H|H]]; [discriminate H|now apply H|now apply H].
  - reflexivity.
  - vm_compute. discriminate.
  - vm_compute. discriminate.
Defined.

(** * The ability item script *)

Section AbilityItem.
Context {P : Type}.
Variable svc : PlayerService P.
Variable spells : SpellStore.

(** X19 -- The ability item teaches at most one spell per use and is consumed
    exactly when it teaches.  The spell is spellid_2, or spellid_1 when
    spellid_2 is 0 (an unknown spellid_2 does not fall back to spellid_1); it
    is taught exactly when it is not 0, exists in the spell store and is not
    yet known, and then the calls are: learn, notify, play the visual 362,
    destroy one item of the used entry.  In every other case the player is
    left as it was and at most one notification is sent; the use counts as
    handled whenever player, item and prototype are present. *)
Theorem ability_item_teaches_or_leaves_player player item proto :
  abilityProto item = Some proto ->
  let run := ItemUse_hardcore_ability_item svc spells (Some player) (Some item) in
  let spell := spellToLearnOf proto in
  let teachable := negb (spell =? 0)
                   && match LookupSpell spells spell with Some _ => true | None => false end
                   && negb (HasSpell svc player spell) in
  fst (fst run) = true /\
  (spellid_2 proto <> 0 -> spell = spellid_2 proto) /\
  (spellid_2 proto = 0 -> spell = spellid_1 proto) /\
  (teachable = true ->
   exists spellInfo,
     LookupSpell spells spell = Some spellInfo /\
     snd run = [AbLearnSpell spell; AbNotification (HaveLearned (SpellName spellInfo));
                AbPlaySpellVisual 362; AbDestroyItemCount (abilityEntry item) 1] /\
     snd (fst run)
     = Some (destroyItems svc (learnSpell svc player spell) (abilityEntry item) 1)) /\
  (teachable = false ->
   snd (fst run) = Some player /\
   exists msg, snd run = [AbNotification msg] /\
               forall spellName, msg <> HaveLearned spellName).
Proof.
  intros Hproto run spell teachable. subst run teachable.
  unfold ItemUse_hardcore_ability_item. rewrite Hproto. fold spell.
  split.
  { destruct (spell =? 0); [reflexivity|].
    destruct (LookupSpell spells spell); [|reflexivity].
    destruct (HasSpell svc player spell); reflexivity. }
  split.
  { intros Hnz. unfold spell, spellToLearnOf.
    destruct (N.eqb_spec (spellid_2 proto) 0); [contradiction|reflexivity]. }
  split.
  { intros Hz. unfold spell, spellToLearnOf. now rewrite Hz. }
  destruct (spell =? 0); cbn [negb andb].
  { split; [discriminate|]. intros _. split; [reflexivity|].
    exists NoSpellToTeach. split; [reflexivity|discriminate]. }
  destruct (LookupSpell spells spell) as [spellInfo|]; cbn [andb].
  2:{ split; [discriminate|]. intros _. split; [reflexivity|].
      exists (InvalidSpellId spell). split; [reflexivity|discriminate]. }
  destruct (HasSpell svc player spell); cbn [negb].
  { split; [discriminate|]. intros _. split; [reflexivity|].
    exists (AlreadyKnow (SpellName spellInfo)). split; [reflexivity|discriminate]. }
  split; [|discriminate]. intros _. exists spellInfo. auto.
Qed.

(** X20 -- A second use of an ability item teaches nothing and costs nothing.
    With a host on which a learned spell is known and consuming items
    forgets no spell, a use that taught a spell is followed, for any item
    that settles on the same spell, by uses that only notify "already known":
    no spell is learned, no item is destroyed and the player is unchanged.
    Without a player, an item or a prototype the script returns false and
    does nothing. *)
Theorem ability_item_second_use_is_free player item item' proto proto' after :
  keepsLearnedSpells svc ->
  abilityProto item = Some proto ->
  abilityProto item' = Some proto' ->
  spellToLearnOf proto' = spellToLearnOf proto ->
  In (AbLearnSpell (spellToLearnOf proto))
     (snd (ItemUse_hardcore_ability_item svc spells (Some player) (Some item))) ->
  snd (fst (ItemUse_hardcore_ability_item svc spells (Some player) (Some item)))
  = Some after ->
  (exists spellInfo,
     ItemUse_hardcore_ability_item svc spells (Some after) (Some item')
     = (true, Some after, [AbNotification (AlreadyKnow (SpellName spellInfo))])) /\
  ItemUse_hardcore_ability_item svc spells None (Some item) = (false, None, []) /\
  ItemUse_hardcore_ability_item svc spells (Some player) None
  = (false, Some player, []) /\
  ItemUse_hardcore_ability_item svc spells (Some player)
    (Some (mkAbilityItem None (abilityEntry item))) = (false, Some player, []).
Proof.
  intros [Hlearn Hkeep] Hproto Hproto' Hsame Hin Hafter.
  split; [|repeat split].
  unfold ItemUse_hardcore_ability_item in *. rewrite Hproto in Hin, Hafter.
  rewrite Hproto', Hsame.
  destruct (spellToLearnOf proto =? 0).
  { destruct Hin as [Hin|[]]. discriminate Hin. }
  destruct (LookupSpell spells (spellToLearnOf proto)) as [spellInfo|].
  2:{ destruct Hin as [Hin|[]]. discriminate Hin. }
  destruct (HasSpell svc player (spellToLearnOf proto)).
  { destruct Hin as [Hin|[]]. discriminate Hin. }
  cbn [fst snd] in Hafter. injection Hafter as <-.
  rewrite Hkeep, Hlearn. now exists spellInfo.
Qed.
End AbilityItem.

Lemma toyPlayer_keeps : keepsLearnedSpells toyPlayer.
Proof.
  split.
  - intros p spell. cbn. now rewrite N.eqb_refl.
  - reflexivity.
Qed.

Lemma ability_item_teaches_or_leaves_player_witness :
  let item := mkAbilityItem (Some (mkAbilityProto 1 0)) 7000 in
  ItemUse_hardcore_ability_item toyPlayer toySpells (Some [5]) (Some item)
  = (true, Some [1; 5],
     [AbLearnSpell 1; AbNotification (HaveLearned "Strength");
      AbPlaySpellVisual 362; AbDestroyItemCount 7000 1]) /\
  snd (ItemUse_hardcore_ability_item toyPlayer toySpells (Some [5])
         (Some (mkAbilityItem (Some (mkAbilityProto 1 9)) 7000)))
  = [AbNotification (InvalidSpellId 9)].
Proof.
  intros item.
  destruct (ability_item_teaches_or_leaves_player toyPlayer toySpells [5] item
              (mkAbilityProto 1 0) eq_refl)
    as [Hret [_ [Hfall [Hteach _]]]].
  destruct (Hteach eq_refl) as [spellInfo [Hlook [Hev Hafter]]].
  pose proof (Hfall eq_refl) as Hspell.
  split; reflexivity.
Defined.

Lemma ability_item_second_use_is_free_witness :
  let item := mkAbilityItem (Some (mkAbilityProto 1 0)) 7000 in
  let item' := mkAbilityItem (Some (mkAbilityProto 0 1)) 7001 in
  exists spellInfo,
    ItemUse_hardcore_ability_item toyPlayer toySpells (Some [1; 5]) (Some item')
    = (true, Some [1; 5], [AbNotification (AlreadyKnow (SpellName spellInfo))]).
Proof.
  intros item item'.
  destruct (ability_item_second_use_is_free toyPlayer toySpells [5] item item'
              (mkAbilityProto 1 0) (mkAbilityProto 0 1) [1; 5]
              toyPlayer_keeps eq_refl eq_refl eq_refl) as [Hsecond _].
  - simpl. tauto.
  - reflexivity.
  - exact Hsecond.
Defined.

(** * The free-for-all loot toggle *)

Lemma updateAt_length addr f store :
  List.length (updateAt addr f store) = List.length store.
Proof.
  revert addr. induction store as [|item rest IH]; intros [|addr]; cbn;
    try reflexivity. now rewrite IH.
Qed.

Lemma updateAt_nth addr f store a :
  nth_error (updateAt addr f store) a =
  if Nat.eqb a addr then option_map f (nth_error store a) else nth_error store a.
Proof.
  revert addr a. induction store as [|item rest IH]; intros [|addr] [|a]; cbn;
    try reflexivity.
  - destruct (Nat.eqb a addr); reflexivity.
  - apply IH.
Qed.

Lemma MakeAllItemsFreeForAll_nth m_lootItems : forall store a,
  nth_error (MakeAllItemsFreeForAll m_lootItems store) a =
  if existsb (fun p => match p with Some addr => Nat.eqb a addr | None => false end)
             m_lootItems
  then option_map makeFreeForAll (nth_error store a)
  else nth_error store a.
Proof.
  unfold MakeAllItemsFreeForAll.
  induction m_lootItems as [|[addr|] rest IH]; intros store a; cbn [fold_left existsb].
  - reflexivity.
  - rewrite IH, updateAt_nth.
    destruct (Nat.eqb a addr); cbn [orb].
    + destruct (existsb _ rest); destruct (nth_error store a); reflexivity.
    + reflexivity.
  - apply IH.
Qed.

Lemma MakeAllItemsFreeForAll_length m_lootItems : forall store,
  List.length (MakeAllItemsFreeForAll m_lootItems store) = List.length store.
Proof.
  unfold MakeAllItemsFreeForAll.
  induction m_lootItems as [|[addr|] rest IH]; intros store; cbn [fold_left].
  - reflexivity.
  - rewrite IH. apply updateAt_length.
  - apply IH.
Qed.

(** X21 -- [Loot::MakeAllItemsFreeForAll] marks every loot item that a non-null
    pointer of [m_lootItems] refers to as free for all and empties its list
    of allowed players, however often it is listed; it skips null pointers,
    changes no other field of those items, changes no item that is not
    listed and no count of items; doing it twice is the same as doing it
    once. *)
Theorem loot_toggle_frees_listed_items m_lootItems store :
  let store' := MakeAllItemsFreeForAll m_lootItems store in
  List.length store' = List.length store /\
  (forall addr item,
     In (Some addr) m_lootItems -> nth_error store addr = Some item ->
     nth_error store' addr = Some (mkLootItem (lootItemId item) true [])) /\
  (forall addr, ~ In (Some addr) m_lootItems ->
     nth_error store' addr = nth_error store addr) /\
  MakeAllItemsFreeForAll m_lootItems store' = store'.
Proof.
  intros store'. subst store'.
  assert (Hlisted : forall a,
            existsb (fun p => match p with
                              | Some addr => Nat.eqb a addr
                              | None => false
                              end) m_lootItems = true <-> In (Some a) m_lootItems).
  { intros a. rewrite existsb_exists. split.
    - intros [[addr|] [Hin Heq]]; [|discriminate].
      apply Nat.eqb_eq in Heq. now subst.
    - intros Hin. exists (Some a). split; [exact Hin|apply Nat.eqb_refl]. }
  split; [apply MakeAllItemsFreeForAll_length|].
  split.
  { intros addr item Hin Hnth. rewrite MakeAllItemsFreeForAll_nth.
    apply Hlisted in Hin. rewrite Hin, Hnth. reflexivity. }
  split.
  { intros addr Hnot. rewrite MakeAllItemsFreeForAll_nth.
    destruct (existsb _ m_lootItems) eqn:E; [|reflexivity].
    apply Hlisted in E. contradiction. }
  apply nth_error_ext. intros a. rewrite !MakeAllItemsFreeForAll_nth.
  destruct (existsb _ m_lootItems); [|reflexivity].
  destruct (nth_error store a); reflexivity.
Qed.

Lemma loot_toggle_frees_listed_items_witness :
  let store := [mkLootItem 11 false [7; 8]; mkLootItem 12 false [7];
                mkLootItem 13 false [9]] in
  MakeAllItemsFreeForAll [Some 2%nat; None; Some 0%nat; Some 2%nat] store
  = [mkLootItem 11 true []; mkLootItem 12 false [7]; mkLootItem 13 true []] /\
  nth_error (MakeAllItemsFreeForAll [Some 2%nat; None; Some 0%nat; Some 2%nat] store)
            2 = Some (mkLootItem 13 true []).
Proof.
  intros store. split; [reflexivity|].
  destruct (loot_toggle_frees_listed_items
              [Some 2%nat; None; Some 0%nat; Some 2%nat] store) as [_ [Hin _]].
  apply (Hin 2%nat (mkLootItem 13 false [9])); [simpl; tauto|reflexivity].
Defined.
